(** * lsprotocol generator: a shallow embedding of [py_generator.py] and
    [utils.py], and the properties of the generation pipeline.

    Python strings are modelled by [string] (code points below 256), lists
    by [list], optional attributes by [option], dictionaries that are only
    looked up by [gmap], dictionaries whose insertion order is read back by
    association lists, and exceptions by an explicit [result] type. Code
    that mutates objects shared between calls threads the store of those
    objects explicitly. *)

From Stdlib Require Import String Ascii ZArith DecimalString DecimalZ DecimalPos.
From stdpp Require Import base option list gmap strings.

Local Open Scope string_scope.
Local Open Scope list_scope.
Set Warnings "-register-all,-clear-no-such-hyp".

(** ** Python built-ins used by the sources *)

(** *** Characters *)

Definition ord (c : ascii) : N := N_of_ascii c.
Definition chr (n : N) : ascii := ascii_of_N n.

Definition in_range (lo hi : N) (c : ascii) : bool :=
  ((lo <=? ord c) && (ord c <=? hi))%N.

Definition squote : ascii := chr 39.
Definition dquote : ascii := chr 34.
Definition backslash : ascii := chr 92.

(** The class [[A-Z]] of the regular expressions. *)
Definition is_AZ (c : ascii) : bool := in_range 65 90 c.
(** The class [[a-z]]. *)
Definition is_az (c : ascii) : bool := in_range 97 122 c.
Definition is_09 (c : ascii) : bool := in_range 48 57 c.

(** The class [[a-zA-Z_]]. *)
Definition is_ident_start (c : ascii) : bool :=
  is_az c || is_AZ c || (ord c =? 95)%N.

(** [\w] on a [str] pattern: [_] and whatever [str.isalnum] accepts.  Above
    the ASCII range these are the letters and numeric signs of Latin-1. *)
Definition is_word (c : ascii) : bool :=
  is_ident_start c || is_09 c
  || (ord c =? 170)%N || (ord c =? 178)%N || (ord c =? 179)%N
  || (ord c =? 181)%N || (ord c =? 185)%N || (ord c =? 186)%N
  || in_range 188 190 c || in_range 192 214 c
  || in_range 216 246 c || in_range 248 255 c.

(** [str.lower] on one character. *)
Definition chr_lower (c : ascii) : ascii :=
  if is_AZ c || in_range 192 214 c || in_range 216 222 c
  then chr (ord c + 32) else c.

(** [str.isprintable] on one character, as [repr] uses it. *)
Definition is_printable (c : ascii) : bool :=
  negb ((ord c <? 32)%N || in_range 127 160 c || (ord c =? 173)%N).

(** *** Strings *)

Fixpoint str_map (f : ascii → ascii) (s : string) : string :=
  match s with
  | EmptyString => EmptyString
  | String c s' => String (f c) (str_map f s')
  end.

(** [s.lower()] *)
Definition lower (s : string) : string := str_map chr_lower s.

Fixpoint str_contains (c : ascii) (s : string) : bool :=
  match s with
  | EmptyString => false
  | String d s' => if Ascii.eqb c d then true else str_contains c s'
  end.

(** [sep.join(items)] *)
Definition join (sep : string) (items : list string) : string :=
  String.concat sep items.

(** Truthiness of an optional string: [None] and the empty string are
    falsy. *)
Definition truthy (o : option string) : option string :=
  match o with
  | Some (String c s) => Some (String c s)
  | _ => None
  end.

(** *** [repr] *)

Definition hex_digit (n : N) : ascii :=
  if (n <? 10)%N then chr (48 + n) else chr (87 + n).

(** [repr] of a string picks double quotes only when the string holds a
    single quote and no double quote. *)
Definition repr_quote (s : string) : ascii :=
  if str_contains squote s && negb (str_contains dquote s)
  then dquote else squote.

Definition repr_char (q c : ascii) : string :=
  if Ascii.eqb c q || Ascii.eqb c backslash then String backslash (String c EmptyString)
  else if (ord c =? 9)%N then String backslash "t"
  else if (ord c =? 10)%N then String backslash "n"
  else if (ord c =? 13)%N then String backslash "r"
  else if is_printable c then String c EmptyString
  else String backslash
         (String "x" (String (hex_digit (ord c / 16))
                        (String (hex_digit (ord c mod 16)) EmptyString))).

Fixpoint repr_body (q : ascii) (s : string) : string :=
  match s with
  | EmptyString => String q EmptyString
  | String c s' => repr_char q c +:+ repr_body q s'
  end.

(** [repr(s)] for a [str]. *)
Definition repr_str (s : string) : string :=
  let q := repr_quote s in String q (repr_body q s).

(** [repr(n)] for an [int]. *)
Definition repr_int (n : Z) : string :=
  NilZero.string_of_int (Z.to_int n).

(** [repr(b)] for a [bool]. *)
Definition repr_bool (b : bool) : string := if b then "True" else "False".

(** *** Reading a literal back

    The inverse of [repr] on the literals it writes: what evaluating the
    generated source text yields. *)

Definition hex_value (c : ascii) : option N :=
  if is_09 c then Some (ord c - 48)%N
  else if in_range 97 102 c then Some (ord c - 87)%N
  else None.

Fixpoint eval_str_body (q : ascii) (s : string) : option string :=
  match s with
  | EmptyString => None
  | String c rest =>
      if Ascii.eqb c q then
        match rest with EmptyString => Some EmptyString | _ => None end
      else if Ascii.eqb c backslash then
        match rest with
        | String e rest1 =>
            if (ord e =? 116)%N then String (chr 9) <$> eval_str_body q rest1
            else if (ord e =? 110)%N then String (chr 10) <$> eval_str_body q rest1
            else if (ord e =? 114)%N then String (chr 13) <$> eval_str_body q rest1
            else if (ord e =? 120)%N then
              match rest1 with
              | String h (String l rest2) =>
                  match hex_value h, hex_value l with
                  | Some hv, Some lv =>
                      String (chr (16 * hv + lv)) <$> eval_str_body q rest2
                  | _, _ => None
                  end
              | _ => None
              end
            else if Ascii.eqb e backslash || Ascii.eqb e squote || Ascii.eqb e dquote
            then String e <$> eval_str_body q rest1
            else None
        | EmptyString => None
        end
      else String c <$> eval_str_body q rest
  end.

(** Evaluate a quoted string literal. *)
Definition eval_str_literal (s : string) : option string :=
  match s with
  | String q body =>
      if Ascii.eqb q squote || Ascii.eqb q dquote
      then eval_str_body q body else None
  | EmptyString => None
  end.

(** Evaluate a decimal integer literal. *)
Definition eval_int_literal (s : string) : option Z :=
  Z.of_int <$> NilZero.int_of_string s.

(** *** The identifier scanner

    [re.compile(r"([a-zA-Z_]\w+)").findall(text)]: leftmost, greedy,
    non-overlapping matches of one start character followed by ONE OR MORE
    word characters.  [cur] holds the match in progress. *)

Definition flush (cur : option string) : list string :=
  match cur with
  | Some (String c (String d s)) => [String c (String d s)]
  | _ => []
  end.

Fixpoint scan (cur : option string) (s : string) : list string :=
  match s with
  | EmptyString => flush cur
  | String c rest =>
      match cur with
      | Some tok =>
          if is_word c then scan (Some (tok +:+ String c EmptyString)) rest
          else flush cur ++ scan None rest
      | None =>
          if is_ident_start c then scan (Some (String c EmptyString)) rest
          else scan None rest
      end
  end.

Definition findall (text : string) : list string := scan None text.

(** *** [to_snake_case]

    [re.sub(r"([^A-Z])([A-Z])", r"\1_\2", text)]: every character outside
    [A-Z] that is directly followed by one inside it gets an underscore
    after it; the scan resumes after the second character. *)
Fixpoint sub_boundaries (text : string) : string :=
  match text with
  | String c1 ((String c2 rest) as tail) =>
      if negb (is_AZ c1) && is_AZ c2
      then String c1 (String "_" (String c2 (sub_boundaries rest)))
      else String c1 (sub_boundaries tail)
  | _ => text
  end.

Definition to_snake_case (text : string) : string :=
  lower (sub_boundaries text).

(** *** Exceptions *)

Inductive exn : Type :=
  | RecursionError
  | TypeError
  | AttributeError
  | IndexError
  | KeyError (key : string)
  | ValueError (msg : string)
  | Exception (msg : string).

Inductive result (A : Type) : Type :=
  | Done (a : A)
  | Raise (e : exn).
Arguments Done {A} a.
Arguments Raise {A} e.

#[global] Instance result_ret : MRet result := @Done.
#[global] Instance result_bind : MBind result := λ A B f r,
  match r with Done a => f a | Raise e => Raise e end.
#[global] Instance result_fmap : FMap result := λ A B f r,
  match r with Done a => Done (f a) | Raise e => Raise e end.

(** A list comprehension whose element expression may raise: the first
    failure aborts it. *)
Fixpoint comprehension {A B : Type} (f : A → result B) (l : list A)
  : result (list B) :=
  match l with
  | [] => Done []
  | a :: l' => b ← f a; bs ← comprehension f l'; Done (b :: bs)
  end.

(** A computation over a mutable store [S].  What it wrote before raising
    stays written. *)
Definition Py (S A : Type) : Type := S → result A * S.

Definition py_ret {S A} (a : A) : Py S A := λ σ, (Done a, σ).
Definition py_raise {S A} (e : exn) : Py S A := λ σ, (Raise e, σ).
Definition py_bind {S A B} (m : Py S A) (f : A → Py S B) : Py S B := λ σ,
  match m σ with
  | (Done a, σ') => f a σ'
  | (Raise e, σ') => (Raise e, σ')
  end.
Definition py_lift {S A} (r : result A) : Py S A := λ σ, (r, σ).
Definition py_get {S} : Py S S := λ σ, (Done σ, σ).
Definition py_modify {S} (f : S → S) : Py S unit := λ σ, (Done tt, f σ).

#[global] Instance py_mret {S} : MRet (Py S) := λ A, @py_ret S A.
#[global] Instance py_mbind {S} : MBind (Py S) := λ A B f m, py_bind m f.

(** [for x in l: body(x)] *)
Fixpoint py_for {S A} (l : list A) (body : A → Py S unit) : Py S unit :=
  match l with
  | [] => py_ret tt
  | x :: l' => py_bind (body x) (λ _, py_for l' body)
  end.

(** ** [metaModel_schema.py] *)

Inductive BaseTypes : Set :=
  URI | DOCUMENTURI | INTEGER | UINTEGER | DECIMAL | REGEXP | STRING | BOOLEAN | NULL.

Definition BaseTypes_value (b : BaseTypes) : string :=
  match b with
  | URI => "URI" | DOCUMENTURI => "DocumentUri" | INTEGER => "integer"
  | UINTEGER => "uinteger" | DECIMAL => "decimal" | REGEXP => "RegExp"
  | STRING => "string" | BOOLEAN => "boolean" | NULL => "null"
  end.

Inductive MapKeyTypeKind : Set := KeyURI | KeyDocumentUri | Keystring | Keyinteger.

Definition MapKeyTypeKind_value (k : MapKeyTypeKind) : string :=
  match k with
  | KeyURI => "URI" | KeyDocumentUri => "DocumentUri"
  | Keystring => "string" | Keyinteger => "integer"
  end.

Inductive EnumerationTypeName : Set := EnumSTRING | EnumINTEGER | EnumUINTEGER.

Definition EnumerationTypeName_value (n : EnumerationTypeName) : string :=
  match n with
  | EnumSTRING => "string" | EnumINTEGER => "integer" | EnumUINTEGER => "uinteger"
  end.

Inductive MessageDirection : Set := CLIENTTOSERVER | SERVERTOCLIENT | BOTH.

(** [MapKeyType = Union[MapKeyTypeOpt, ReferenceType]] *)
Inductive MapKeyType : Type :=
  | MapKeyTypeOpt (name : MapKeyTypeKind)
  | MapKeyReference (name : string).

(** The [Type] union of the schema; each constructor is one dataclass, its
    [kind] tag being the constructor.  [StructureLiteralType] carries the
    property list of its [StructureLiteral].  Of [Property] the attributes
    the generator reads are kept. *)
Inductive Type_ : Type :=
  | BaseType (name : BaseTypes)
  | ReferenceType (name : string)
  | ArrayType (element : Type_)
  | MapType (key : MapKeyType) (value : Type_)
  | AndType (items : list Type_)
  | OrType (items : list Type_)
  | TupleType (items : list Type_)
  | StructureLiteralType (properties : list Property)
  | StringLiteralType (value : string)
  | IntegerLiteralType (value : Z)
  | BooleanLiteralType (value : bool)
with Property : Type :=
  | Build_Property (name : string) (type : Type_) (optional : option bool)
      (documentation : option string).

Definition Property_name (p : Property) : string :=
  match p with Build_Property n _ _ _ => n end.
Definition Property_type (p : Property) : Type_ :=
  match p with Build_Property _ t _ _ => t end.
Definition Property_optional (p : Property) : option bool :=
  match p with Build_Property _ _ o _ => o end.
Definition Property_documentation (p : Property) : option string :=
  match p with Build_Property _ _ _ d => d end.

(** [params: Optional[Union[Type, List[Type]]]] *)
Inductive Params : Type :=
  | NoParams
  | OneParam (tp : Type_)
  | ManyParams (tps : list Type_).

Record Request : Type := {
  req_method : string;
  req_typeName : option string;
  req_params : Params;
  req_result : Type_;
  req_messageDirection : MessageDirection;
  req_documentation : option string }.

Record Notification : Type := {
  ntf_method : string;
  ntf_typeName : option string;
  ntf_params : Params;
  ntf_messageDirection : MessageDirection;
  ntf_documentation : option string }.

Record Structure : Type := {
  st_name : string;
  st_extends : option (list Type_);
  st_mixins : option (list Type_);
  st_properties : list Property;
  st_documentation : option string }.

Record TypeAlias : Type := {
  ta_name : string;
  ta_type : Type_;
  ta_documentation : option string }.

(** [value: Union[string, number]] of an enumeration entry. *)
Inductive EntryValue : Type :=
  | StrValue (s : string)
  | IntValue (n : Z).

Record EnumerationEntry : Type := {
  ee_name : string;
  ee_value : EntryValue }.

Record Enumeration : Type := {
  en_name : string;
  en_type : EnumerationTypeName;
  en_values : list EnumerationEntry }.

(** The structures of a [MetaModel] are objects the generator reads again
    through [_structure_maps]; the list is the store of those objects, an
    object being identified by its position. *)
Record MetaModel : Type := {
  requests : list Request;
  notifications : list Notification;
  structures : list Structure;
  enumerations : list Enumeration;
  typeAliases : list TypeAlias }.

(** ** [py_generator.py]: the code objects *)

Record Variable_ : Type := {
  var_name : string;
  var_annotation : option string;
  var_value : option string;
  var_docstring : option string }.

Record Argument : Type := {
  arg_name : string;
  arg_annotation : option string;
  arg_value : option string }.

Record Function : Type := {
  fn_name : string;
  fn_arguments : option (list Argument);
  fn_annotation : option string;
  fn_body : option string;
  fn_docstring : option string }.

Record Class_ : Type := {
  cls_name : string;
  cls_variables : option (list Variable_);
  cls_methods : option (list Function);
  cls_parents : option (list string);
  cls_docstring : option string }.

(** An element of the types list: [Union[Class, Variable]]. *)
Inductive Name : Type :=
  | ClassName (c : Class_)
  | VariableName (v : Variable_).

Definition name_of (n : Name) : string :=
  match n with
  | ClassName c => cls_name c
  | VariableName v => var_name v
  end.

(** *** Dictionaries that remember insertion order *)

Fixpoint dict_get {V : Type} (k : string) (d : list (string * V)) : option V :=
  match d with
  | [] => None
  | (k', v) :: d' => if String.eqb k k' then Some v else dict_get k d'
  end.

(** [d[k] = v]: an existing key keeps its place. *)
Fixpoint dict_set {V : Type} (k : string) (v : V) (d : list (string * V))
  : list (string * V) :=
  match d with
  | [] => [(k, v)]
  | (k', v') :: d' =>
      if String.eqb k k' then (k, v) :: d' else (k', v') :: dict_set k v d'
  end.

(** ** [py_generator.py]: [CodeGenerator] *)

(** *** The type expression compiler *)

Definition builtin_type_map : list (string * string) :=
  [("integer", "int"); ("decimal", "float"); ("string", "str");
   ("boolean", "bool"); ("null", "None")].

(** [basetype], on the [value] of the enumeration member in [tp.name]. *)
Definition basetype (tp_name : string) : string :=
  match truthy (dict_get tp_name builtin_type_map) with
  | Some builtin_type => builtin_type
  | None => tp_name
  end.

Definition maptype_key (key : MapKeyType) : string :=
  match key with
  | MapKeyTypeOpt name => basetype (MapKeyTypeKind_value name)
  | MapKeyReference name => name
  end.

(** [type_] on a [Type], with [property]; [structureliteral] joins the
    [Variable] objects it built, which raises unless there are none. *)
Fixpoint type_ (tp : Type_) : result string :=
  match tp with
  | BaseType name => Done (basetype (BaseTypes_value name))
  | ReferenceType name => Done name
  | ArrayType element =>
      code ← type_ element; Done ("List[" +:+ code +:+ "]")
  | MapType key value =>
      let key := maptype_key key in
      value ← type_ value; Done ("Dict[" +:+ key +:+ ", " +:+ value +:+ "]")
  | AndType items =>
      codes ← (fix each l : result (list string) :=
                 match l with
                 | [] => Done []
                 | c :: l' => x ← type_ c; xs ← each l'; Done (x :: xs)
                 end) items;
      Done ("Union[" +:+ join ", " codes +:+ "]")
  | OrType items =>
      codes ← (fix each l : result (list string) :=
                 match l with
                 | [] => Done []
                 | c :: l' => x ← type_ c; xs ← each l'; Done (x :: xs)
                 end) items;
      Done ("Union[" +:+ join ", " codes +:+ "]")
  | TupleType items =>
      codes ← (fix each l : result (list string) :=
                 match l with
                 | [] => Done []
                 | c :: l' => x ← type_ c; xs ← each l'; Done (x :: xs)
                 end) items;
      Done ("Tuple[" +:+ join ", " codes +:+ "]")
  | StructureLiteralType properties =>
      vars ← (fix each l : result (list Variable_) :=
                match l with
                | [] => Done []
                | p :: l' => x ← property p; xs ← each l'; Done (x :: xs)
                end) properties;
      match vars with
      | [] => Done ("Literal[" +:+ repr_str EmptyString +:+ "]")
      | _ :: _ => Raise TypeError
      end
  | StringLiteralType value => Done ("Literal[" +:+ repr_str value +:+ "]")
  | IntegerLiteralType value => Done ("Literal[" +:+ repr_int value +:+ "]")
  | BooleanLiteralType value => Done ("Literal[" +:+ repr_bool value +:+ "]")
  end
with property (tp : Property) : result Variable_ :=
  match tp with
  | Build_Property name type optional documentation =>
      type_ ← type_ type;
      let type_ := match optional with
                   | Some true => "NotRequired[" +:+ type_ +:+ "]"
                   | _ => type_
                   end in
      Done {| var_name := name; var_annotation := Some type_;
              var_value := None; var_docstring := documentation |}
  end.

(** [type_(None)] is ["None"]; a list has no [kind] and no method named
    after its class. *)
Definition type_params (tp : Params) : result string :=
  match tp with
  | NoParams => Done "None"
  | OneParam tp => type_ tp
  | ManyParams _ => Raise AttributeError
  end.

Definition type_opt (tp : option Type_) : result string :=
  match tp with
  | None => Done "None"
  | Some tp => type_ tp
  end.

(** *** The generator object *)

Record CodeGenerator : Type := {
  model : MetaModel;
  _types : list Name;
  _server : Class_;
  _server_handle_map : list (string * string);
  _client : Class_;
  _client_handle_map : list (string * string);
  _structure_maps : gmap string nat;
  _is_generated : bool }.

(** [{i.name: i for i in model.structures}]: a later structure of the same
    name replaces an earlier one; the value is the object, that is its
    position in the store. *)
Fixpoint structure_maps_from (pos : nat) (l : list Structure)
  (m : gmap string nat) : gmap string nat :=
  match l with
  | [] => m
  | i :: l' => structure_maps_from (S pos) l' (<[st_name i := pos]> m)
  end.

Definition empty_class (name : string) : Class_ :=
  {| cls_name := name; cls_variables := Some []; cls_methods := Some [];
     cls_parents := None; cls_docstring := None |}.

Definition __init__ (model : MetaModel) : CodeGenerator :=
  {| model := model;
     _types := [];
     _server := empty_class "Server";
     _server_handle_map := [];
     _client := empty_class "Client";
     _client_handle_map := [];
     _structure_maps := structure_maps_from 0 (structures model) ∅;
     _is_generated := false |}.

(** Field updates of the generator and of the objects it owns. *)
Definition set_structures (l : list Structure) (g : CodeGenerator) : CodeGenerator :=
  {| model := {| requests := requests (model g);
                 notifications := notifications (model g);
                 structures := l;
                 enumerations := enumerations (model g);
                 typeAliases := typeAliases (model g) |};
     _types := _types g; _server := _server g;
     _server_handle_map := _server_handle_map g; _client := _client g;
     _client_handle_map := _client_handle_map g;
     _structure_maps := _structure_maps g; _is_generated := _is_generated g |}.

Definition set_types (l : list Name) (g : CodeGenerator) : CodeGenerator :=
  {| model := model g; _types := l; _server := _server g;
     _server_handle_map := _server_handle_map g; _client := _client g;
     _client_handle_map := _client_handle_map g;
     _structure_maps := _structure_maps g; _is_generated := _is_generated g |}.

Definition set_server (c : Class_) (g : CodeGenerator) : CodeGenerator :=
  {| model := model g; _types := _types g; _server := c;
     _server_handle_map := _server_handle_map g; _client := _client g;
     _client_handle_map := _client_handle_map g;
     _structure_maps := _structure_maps g; _is_generated := _is_generated g |}.

Definition set_client (c : Class_) (g : CodeGenerator) : CodeGenerator :=
  {| model := model g; _types := _types g; _server := _server g;
     _server_handle_map := _server_handle_map g; _client := c;
     _client_handle_map := _client_handle_map g;
     _structure_maps := _structure_maps g; _is_generated := _is_generated g |}.

Definition set_server_handle_map (d : list (string * string)) (g : CodeGenerator)
  : CodeGenerator :=
  {| model := model g; _types := _types g; _server := _server g;
     _server_handle_map := d; _client := _client g;
     _client_handle_map := _client_handle_map g;
     _structure_maps := _structure_maps g; _is_generated := _is_generated g |}.

Definition set_client_handle_map (d : list (string * string)) (g : CodeGenerator)
  : CodeGenerator :=
  {| model := model g; _types := _types g; _server := _server g;
     _server_handle_map := _server_handle_map g; _client := _client g;
     _client_handle_map := d;
     _structure_maps := _structure_maps g; _is_generated := _is_generated g |}.

Definition set_is_generated (b : bool) (g : CodeGenerator) : CodeGenerator :=
  {| model := model g; _types := _types g; _server := _server g;
     _server_handle_map := _server_handle_map g; _client := _client g;
     _client_handle_map := _client_handle_map g;
     _structure_maps := _structure_maps g; _is_generated := b |}.

Definition set_properties (ps : list Property) (s : Structure) : Structure :=
  {| st_name := st_name s; st_extends := st_extends s;
     st_mixins := st_mixins s; st_properties := ps;
     st_documentation := st_documentation s |}.

(** [cls.methods.append(f)] *)
Definition methods_append (f : Function) (c : Class_) : result Class_ :=
  match cls_methods c with
  | Some ms =>
      Done {| cls_name := cls_name c; cls_variables := cls_variables c;
              cls_methods := Some (ms ++ [f]); cls_parents := cls_parents c;
              cls_docstring := cls_docstring c |}
  | None => Raise AttributeError
  end.

Definition server_append (f : Function) : Py CodeGenerator unit := λ g,
  match methods_append f (_server g) with
  | Done c => (Done tt, set_server c g)
  | Raise e => (Raise e, g)
  end.

Definition client_append (f : Function) : Py CodeGenerator unit := λ g,
  match methods_append f (_client g) with
  | Done c => (Done tt, set_client c g)
  | Raise e => (Raise e, g)
  end.

Definition server_handle (method handler : string) : Py CodeGenerator unit :=
  py_modify (λ g, set_server_handle_map (dict_set method handler (_server_handle_map g)) g).

Definition client_handle (method handler : string) : Py CodeGenerator unit :=
  py_modify (λ g, set_client_handle_map (dict_set method handler (_client_handle_map g)) g).

(** *** Messages *)

Definition argument (name : string) (annotation : option string) : Argument :=
  {| arg_name := name; arg_annotation := annotation; arg_value := None |}.

(** [to_snake_case(tp.typeName)]: [re.sub] refuses [None]. *)
Definition func_name_of (typeName : option string) : result string :=
  match typeName with
  | Some text => Done (to_snake_case text)
  | None => Raise TypeError
  end.

Definition sends_to_server (d : MessageDirection) : bool :=
  match d with CLIENTTOSERVER | BOTH => true | SERVERTOCLIENT => false end.

Definition sends_to_client (d : MessageDirection) : bool :=
  match d with SERVERTOCLIENT | BOTH => true | CLIENTTOSERVER => false end.

Definition py_when {S} (b : bool) (m : Py S unit) : Py S unit :=
  if b then m else py_ret tt.

Definition request (tp : Request) : Py CodeGenerator unit :=
  func_name ← py_lift (func_name_of (req_typeName tp));
  let handle_func_name := "handle_" +:+ func_name in
  params ← py_lift (type_params (req_params tp));
  let request_function :=
    {| fn_name := func_name;
       fn_arguments := Some [argument "self" None; argument "params" (Some params)];
       fn_annotation := Some "None";
       fn_body := Some ("self.request(method=" +:+ repr_str (req_method tp)
                        +:+ ", params=params)");
       fn_docstring := req_documentation tp |} in
  result_ ← py_lift (type_ (req_result tp));
  let handle_result_function :=
    {| fn_name := handle_func_name;
       fn_arguments := Some [argument "self" None; argument "context" (Some "dict");
                             argument "result" (Some result_)];
       fn_annotation := Some "None"; fn_body := None; fn_docstring := None |} in
  params' ← py_lift (type_params (req_params tp));
  annotation ← py_lift (type_ (req_result tp));
  let handle_request_function :=
    {| fn_name := handle_func_name;
       fn_arguments := Some [argument "self" None; argument "context" (Some "dict");
                             argument "params" (Some params')];
       fn_annotation := Some annotation; fn_body := None; fn_docstring := None |} in
  py_when (sends_to_server (req_messageDirection tp))
    (client_append request_function;;
     client_append handle_result_function;;
     client_handle (req_method tp) handle_func_name;;
     server_append handle_request_function;;
     server_handle (req_method tp) handle_func_name);;
  py_when (sends_to_client (req_messageDirection tp))
    (server_append request_function;;
     server_append handle_result_function;;
     server_handle (req_method tp) handle_func_name;;
     client_append handle_request_function;;
     client_handle (req_method tp) handle_func_name).

Definition notify_function_of (tp : Notification) (func_name params : string)
  : Function :=
  {| fn_name := func_name;
     fn_arguments := Some [argument "self" None; argument "params" (Some params)];
     fn_annotation := Some "None";
     fn_body := Some ("self.notify(method=" +:+ repr_str (ntf_method tp)
                      +:+ ", params=params)");
     fn_docstring := ntf_documentation tp |}.

Definition handle_notification_function_of (handle_func_name params : string)
  : Function :=
  {| fn_name := handle_func_name;
     fn_arguments := Some [argument "self" None; argument "context" (Some "dict");
                           argument "params" (Some params)];
     fn_annotation := Some "None"; fn_body := None; fn_docstring := None |}.

Definition notification (tp : Notification) : Py CodeGenerator unit :=
  func_name ← py_lift (func_name_of (ntf_typeName tp));
  let handle_func_name := "handle_" +:+ func_name in
  params ← py_lift (type_params (ntf_params tp));
  let notify_function := notify_function_of tp func_name params in
  params' ← py_lift (type_params (ntf_params tp));
  let handle_notification_function :=
    handle_notification_function_of handle_func_name params' in
  py_when (sends_to_server (ntf_messageDirection tp))
    (client_append notify_function;;
     server_append handle_notification_function;;
     server_handle (ntf_method tp) handle_func_name);;
  py_when (sends_to_client (ntf_messageDirection tp))
    (server_append notify_function;;
     client_append handle_notification_function;;
     client_handle (ntf_method tp) handle_func_name).

(** *** Structures, enumerations, aliases *)

(** [pull_reference(mixin)]: [self._structure_maps[tp.name]].  Only a
    reference or a base type has a [name]; the name of a base type is an
    enumeration member, never a key of the dictionary. *)
Definition pull_reference (maps : gmap string nat) (tp : Type_) : result nat :=
  match tp with
  | ReferenceType name =>
      match maps !! name with
      | Some ref => Done ref
      | None => Raise (KeyError name)
      end
  | BaseType name => Raise (KeyError (BaseTypes_value name))
  | _ => Raise AttributeError
  end.

(** The mixin loop of [structure].  [properties] is the local variable;
    when [aliased], it is the very list object held by the structure at
    position [self_] of the store, so [extend] writes through to it. *)
Fixpoint extend_mixins (maps : gmap string nat) (self_ : nat) (aliased : bool)
  (mixins : list Type_) (properties : list Property)
  : Py (list Structure) (list Property) :=
  match mixins with
  | [] => py_ret properties
  | mixin :: mixins' => λ store,
      match pull_reference maps mixin with
      | Raise e => (Raise e, store)
      | Done ref =>
          match store !! ref with
          | None => (Raise IndexError, store) (* no such position is ever stored *)
          | Some ref_obj =>
              let properties' := properties ++ st_properties ref_obj in
              let store' := if aliased
                            then alter (set_properties properties') self_ store
                            else store in
              extend_mixins maps self_ aliased mixins' properties' store'
          end
      end
  end.

Definition is_nil {A} (l : list A) : bool :=
  match l with [] => true | _ => false end.

(** [structure(tp)], [tp] being the object at position [self_]. *)
Definition structure (maps : gmap string nat) (self_ : nat)
  : Py (list Structure) Class_ := λ store,
  match store !! self_ with
  | None => (Raise IndexError, store)
  | Some tp =>
      let parents :=
        match st_extends tp with
        | Some (p :: ps) => comprehension type_ (p :: ps)
        | _ => Done ["TypedDict"]
        end in
      match parents with
      | Raise e => (Raise e, store)
      | Done parents =>
          (* properties = tp.properties or list() *)
          let aliased := negb (is_nil (st_properties tp)) in
          let mixins := default [] (st_mixins tp) in
          match extend_mixins maps self_ aliased mixins (st_properties tp) store with
          | (Raise e, store') => (Raise e, store')
          | (Done properties, store') =>
              match comprehension property properties with
              | Raise e => (Raise e, store')
              | Done variables =>
                  (Done {| cls_name := st_name tp;
                           cls_variables := Some variables;
                           cls_methods := None;
                           cls_parents := Some parents;
                           cls_docstring := st_documentation tp |}, store')
              end
          end
      end
  end.

Definition repr_value (v : EntryValue) : string :=
  match v with
  | StrValue s => repr_str s
  | IntValue n => repr_int n
  end.

Definition enumeration (tp : Enumeration) : Class_ :=
  let entries :=
    map (λ val, {| var_name := ee_name val; var_annotation := None;
                   var_value := Some (repr_value (ee_value val));
                   var_docstring := None |}) (en_values tp) in
  {| cls_name := en_name tp;
     cls_variables := Some entries;
     cls_methods := None;
     cls_parents := Some [basetype (EnumerationTypeName_value (en_type tp)); "Enum"];
     cls_docstring := None |}.

(** [re.sub(r"\b(LSPObject|LSPArray)\b", r'"\1"', typ)]: each of the words,
    standing between two word boundaries, is put in double quotes. *)
Fixpoint starts_with (w s : string) : option string :=
  match w, s with
  | EmptyString, _ => Some s
  | String a w', String b s' => if Ascii.eqb a b then starts_with w' s' else None
  | String _ _, EmptyString => None
  end.

Definition word_at (s w : string) : bool :=
  match starts_with w s with
  | Some (String c _) => negb (is_word c)
  | Some EmptyString => true
  | None => false
  end.

Fixpoint quote_words (ws : list string) (prev_word : bool) (inside : nat)
  (s : string) : string :=
  match s with
  | EmptyString => EmptyString
  | String c rest =>
      match inside with
      | 1 => String c (String dquote (quote_words ws true 0 rest))
      | S k => String c (quote_words ws true k rest)
      | 0 =>
          match (if prev_word then None else List.find (word_at s) ws) with
          | Some w =>
              match String.length w with
              | 1 => String dquote (String c (String dquote (quote_words ws true 0 rest)))
              | n => String dquote (String c (quote_words ws true (n - 1) rest))
              end
          | None => String c (quote_words ws (is_word c) 0 rest)
          end
      end
  end.

Definition typealias (tp : TypeAlias) : result Variable_ :=
  typ ← type_ (ta_type tp);
  let typ := quote_words ["LSPObject"; "LSPArray"] false 0 typ in
  Done {| var_name := ta_name tp; var_annotation := Some "TypeAlias";
          var_value := Some typ; var_docstring := ta_documentation tp |}.

(** *** [generate] *)

Definition types_append (code : Name) : Py CodeGenerator unit :=
  py_modify (λ g, set_types (_types g ++ [code]) g).

(** Run a computation on the store of structure objects inside the
    generator. *)
Definition on_structures {A} (m : Py (list Structure) A) : Py CodeGenerator A :=
  λ g, match m (structures (model g)) with
       | (r, store') => (r, set_structures store' g)
       end.

(** The loops of [generate], up to the assignment of the flag. *)
Definition generate_loops : Py CodeGenerator unit :=
  g ← py_get;
  py_for (enumerations (model g)) (λ tp,
    types_append (ClassName (enumeration tp)));;
  py_for (seq 0 (length (structures (model g)))) (λ self_,
    code ← on_structures (structure (_structure_maps g) self_);
    types_append (ClassName code));;
  py_for (typeAliases (model g)) (λ tp,
    code ← py_lift (typealias tp);
    types_append (VariableName code));;
  py_for (requests (model g)) request;;
  py_for (notifications (model g)) notification.

Definition generate : Py CodeGenerator unit :=
  generate_loops;;
  py_modify (set_is_generated true).

(** ** [py_generator.py]: [NameOrderer] *)

(** [{tp.name: tp for tp in names}] *)
Definition name_map_of (names : list Name) : gmap string Name :=
  foldl (λ m tp, <[name_of tp := tp]> m) ∅ names.

Section define_name.
Variable name_map : gmap string Name.

(** One turn of the loop over the parents: nothing catches what the
    recursive call raises. *)
Definition visit_parent (define_name : Name → Py (list string) unit)
  (parent : string) : Py (list string) unit := λ defined_names,
  if bool_decide (parent ∈ defined_names) then (Done tt, defined_names)
  else match name_map !! parent with
       | Some parent_obj => define_name parent_obj defined_names
       | None => (Done tt, defined_names)
       end.

(** One turn of the loops over the identifiers of an annotation or of an
    alias value: [except RecursionError: pass]. *)
Definition visit_token (define_name : Name → Py (list string) unit)
  (typ : string) : Py (list string) unit := λ defined_names,
  if bool_decide (typ ∈ defined_names) then (Done tt, defined_names)
  else match name_map !! typ with
       | Some typ_obj =>
           match define_name typ_obj defined_names with
           | (Raise RecursionError, defined_names') => (Done tt, defined_names')
           | r => r
           end
       | None => (Done tt, defined_names)
       end.

Definition visit_variable (define_name : Name → Py (list string) unit)
  (var : Variable_) : Py (list string) unit :=
  match truthy (var_annotation var) with
  | Some annotation => py_for (findall annotation) (visit_token define_name)
  | None => py_ret tt
  end.

(** Iterating over [None] raises [TypeError]; so does [findall(None)]. *)
Definition iterable {A S} (o : option A) : Py S A :=
  match o with
  | Some l => py_ret l
  | None => py_raise TypeError
  end.

(** [define_name], with [depth] the number of nested calls the
    interpreter still allows: at none, the call raises
    [RecursionError]. *)
Fixpoint define_name (depth : nat) (name : Name) : Py (list string) unit :=
  match depth with
  | 0 => py_raise RecursionError
  | S depth' =>
      match name with
      | ClassName c =>
          parents ← iterable (cls_parents c);
          py_for parents (visit_parent (define_name depth'));;
          variables ← iterable (cls_variables c);
          py_for variables (visit_variable (define_name depth'));;
          py_modify (λ defined_names, defined_names ++ [cls_name c])
      | VariableName v =>
          (if bool_decide (var_annotation v = Some "TypeAlias") then
             value ← iterable (var_value v);
             py_for (findall value) (visit_token (define_name depth'))
           else py_ret tt);;
          py_modify (λ defined_names, defined_names ++ [var_name v])
      end
  end.

(** The second loop of [ordered_names]. *)
Fixpoint collect_ordered (defined : gset string) (defined_names : list string)
  : result (list Name) :=
  match defined_names with
  | [] => Done []
  | name :: rest =>
      if bool_decide (name ∈ defined) then collect_ordered defined rest
      else match name_map !! name with
           | Some tp => cons tp <$> collect_ordered ({[name]} ∪ defined) rest
           | None => Raise (KeyError name)
           end
  end.
End define_name.

(** [NameOrderer(names).ordered_names()] under a recursion limit. *)
Definition ordered_names (limit : nat) (names : list Name) : result (list Name) :=
  let name_map := name_map_of names in
  match py_for names (define_name name_map limit) [] with
  | (Raise e, _) => Raise e
  | (Done _, defined_names) => collect_ordered name_map ∅ defined_names
  end.

(** ** [py_generator.py]: [ImportsManager] *)

Section resolve.
Variable names : gset string.

Definition add_import (imports : list string) (typ : string) : list string :=
  if bool_decide (typ ∈ imports) then imports
  else if bool_decide (typ ∈ names) then imports ++ [typ]
  else imports.

Definition scan_annotation (imports : list string) (annotation : option string)
  : list string :=
  match truthy annotation with
  | Some annotation => foldl add_import imports (findall annotation)
  | None => imports
  end.

Definition resolve_function (imports : list string) (func : Function)
  : result (list string) :=
  match fn_arguments func with
  | None => Raise TypeError
  | Some arguments =>
      let imports :=
        foldl (λ imports arg, scan_annotation imports (arg_annotation arg))
          imports arguments in
      Done (scan_annotation imports (fn_annotation func))
  end.

Fixpoint resolve_functions (imports : list string) (methods : list Function)
  : result (list string) :=
  match methods with
  | [] => Done imports
  | func :: rest =>
      imports ← resolve_function imports func; resolve_functions imports rest
  end.

Definition resolve_name (imports : list string) (name : Name)
  : result (list string) :=
  match name with
  | ClassName c =>
      let imports := foldl add_import imports (default [] (cls_parents c)) in
      let imports :=
        foldl (λ imports var, scan_annotation imports (var_annotation var))
          imports (default [] (cls_variables c)) in
      resolve_functions imports (default [] (cls_methods c))
  | VariableName v =>
      let imports := scan_annotation imports (var_annotation v) in
      if bool_decide (var_annotation v = Some "TypeAlias") then
        match var_value v with
        | Some value => Done (foldl add_import imports (findall value))
        | None => Raise TypeError
        end
      else Done imports
  end.

Fixpoint resolve_names (imports : list string) (consumer_names : list Name)
  : result (list string) :=
  match consumer_names with
  | [] => Done imports
  | name :: rest =>
      imports ← resolve_name imports name; resolve_names imports rest
  end.
End resolve.

(** [ImportsManager(consumer_names, defined_names).resolve()] *)
Definition resolve (consumer_names defined_names : list Name) : result (list string) :=
  resolve_names (list_to_set (map name_of defined_names)) [] consumer_names.

(** ** [py_generator.py]: the three output properties

    Each returns the list of code objects whose [get_code()] texts it would
    join; rendering a code object to text is formatting only and is left
    out. *)

Record FromImports : Type := {
  fi_module : string;
  fi_names : list string }.

Inductive Code : Type :=
  | ImportCode (i : FromImports)
  | NameCode (n : Name).

Definition not_generated : exn := Exception "code not generated yet".

Definition nl : string := String (chr 10) EmptyString.
Definition tab : string := String (chr 9) EmptyString.

Definition base_aliases : list Name :=
  map (λ '(n, v), VariableName
         {| var_name := n; var_annotation := Some "TypeAlias";
            var_value := Some v; var_docstring := None |})
    [("uinteger", "int"); ("URI", "str"); ("DocumentUri", "str"); ("RegExp", "str")].

Definition types_code (limit : nat) : Py CodeGenerator (list Code) := λ g,
  if negb (_is_generated g) then (Raise not_generated, g)
  else
    let imports :=
      [ {| fi_module := "__future__"; fi_names := ["annotations"] |};
        {| fi_module := "enum"; fi_names := ["Enum"] |};
        {| fi_module := "typing";
           fi_names := ["List"; "Dict"; "Union"; "Tuple"; "Literal";
                        "TypeAlias"; "TypedDict"; "NotRequired"] |} ] in
    let g := set_types (base_aliases ++ _types g) g in
    match ordered_names limit (_types g) with
    | Raise e => (Raise e, g)
    | Done ordered_types =>
        (Done (map ImportCode imports ++ map NameCode ordered_types), g)
    end.

(** The [handle] method both dispatchers get when their code is read. *)
Definition handle_function (handle_map : list (string * string)) : Function :=
  let entries := map (λ '(k, v), repr_str k +:+ ": self." +:+ v) handle_map in
  let handle_map := join ("," +:+ nl +:+ tab) entries in
  let body := "handle_map = {" +:+ nl +:+ tab +:+ handle_map +:+ nl +:+ tab
              +:+ "}" +:+ nl
              +:+ "return handle_map[method](params_or_result)" +:+ nl in
  {| fn_name := "handle";
     fn_arguments := Some [argument "self" None; argument "method" (Some "str");
                           argument "params_or_result" (Some "LSPAny")];
     fn_annotation := Some "None";
     fn_body := Some body;
     fn_docstring := None |}.

Definition dispatcher_code (cls : Class_) (types : list Name) : result (list Code) :=
  protocol_imports ← resolve [ClassName cls] types;
  Done [ ImportCode {| fi_module := "typing"; fi_names := ["List"; "Union"] |};
         ImportCode {| fi_module := ".lsprotocol"; fi_names := protocol_imports |};
         NameCode (ClassName cls) ].

Definition server_code : Py CodeGenerator (list Code) := λ g,
  if negb (_is_generated g) then (Raise not_generated, g)
  else
    match server_append (handle_function (_server_handle_map g)) g with
    | (Raise e, g) => (Raise e, g)
    | (Done _, g) => (dispatcher_code (_server g) (_types g), g)
    end.

Definition client_code : Py CodeGenerator (list Code) := λ g,
  if negb (_is_generated g) then (Raise not_generated, g)
  else
    match client_append (handle_function (_client_handle_map g)) g with
    | (Raise e, g) => (Raise e, g)
    | (Done _, g) => (dispatcher_code (_client g) (_types g), g)
    end.

(** ** [utils.py]: default values of [TypedDict] types *)

Module utils.

(** The objects a [TypedDict] hint can be, by what [hash], [get_origin],
    [get_args], [is_typeddict], [isinstance(_, Enum)] and the formatting
    in an f-string answer on them.

    - [ListOf], [DictOf], [UnionOf] and [LiteralOf] are the generic aliases
      of origin [list], [dict], [Union] and [Literal], with their
      [get_args].
    - A [TypedDict] class is given by its [get_type_hints], a dictionary in
      declaration order, and by [__required_keys__], a frozen set, given
      as the list of its keys in the order its iteration yields them.
    - [EnumInstance] is an instance of [Enum], given by the text an
      f-string makes of it and by what iterating it yields: nothing when
      it is not iterable, else the [value] attribute of each item, where
      the item has one.
    - [OtherType] is any other hashable object, no generic alias of these
      origins, no [TypedDict] class and no instance of [Enum], given by the
      text an f-string makes of it: a plain class such as a bare [list] or
      an [Enum] subclass, [LiteralString], a [X | Y] union.
    - [Unhashable] is any other object that cannot be hashed. *)
Inductive PyType : Type :=
  | Int | Float | Str | Bool
  | NoneType
  | ListOf (args : list PyType)
  | DictOf (args : list PyType)
  | UnionOf (args : list PyType)
  | LiteralOf (args : list PyValue)
  | TypedDictClass (name : string) (type_hints : list (string * PyType))
      (required_keys : list string)
  | EnumInstance (text : string) (iteration : option (list (option PyValue)))
  | OtherType (text : string)
  | Unhashable (text : string)
with PyValue : Type :=
  | VInt (n : Z)
  | VFloat0
  | VStr (s : string)
  | VBool (b : bool)
  | VNone
  | VList (items : list PyValue)
  | VDict (items : list (string * PyValue))
  | MissingValue (value : PyType).

(** [hash(value)] returns: lists and dictionaries cannot be hashed, nor
    can a [MissingValue], a dataclass that defines [__eq__]. *)
Definition hashable_value (val : PyValue) : bool :=
  match val with
  | VInt _ | VFloat0 | VStr _ | VBool _ | VNone => true
  | VList _ | VDict _ | MissingValue _ => false
  end.

(** [hash(typ)] returns: a generic alias hashes its arguments, a class is
    hashed by identity. *)
Fixpoint hashable (typ : PyType) : bool :=
  match typ with
  | ListOf args | DictOf args | UnionOf args =>
      (fix all l := match l with
                    | [] => true
                    | a :: l' => hashable a && all l'
                    end) args
  | LiteralOf args => forallb hashable_value args
  | Unhashable _ => false
  | _ => true
  end.

(** [atomic_types.get(typ)], for a [typ] that is hashed; the last two
    entries of the table map to [None]. *)
Definition atomic_types (typ : PyType) : option PyValue :=
  match typ with
  | Int => Some (VInt 0)
  | Float => Some VFloat0
  | Str => Some (VStr EmptyString)
  | Bool => Some (VBool false)
  | NoneType => Some VNone
  | _ => None
  end.

(** [val is not None], on the answer of [dict.get]. *)
Definition is_not_None (val : option PyValue) : option PyValue :=
  match val with
  | Some VNone | None => None
  | Some v => Some v
  end.

(** [args[0]] *)
Definition first {A} (args : list A) : result A :=
  match args with
  | a :: _ => Done a
  | [] => Raise IndexError
  end.

(** [ValueError(f"unable get default value for {typ}")], [text] being
    what the f-string makes of [typ]. *)
Definition unable (text : string) : exn :=
  ValueError ("unable get default value for " +:+ text).

(** [[i.value for i in items]], [items] being an instance of [Enum]. *)
Definition values_of (iteration : option (list (option PyValue))) : result PyValue :=
  match iteration with
  | None => Raise TypeError
  | Some items =>
      VList <$> comprehension (λ i, match i with
                                    | Some value => Done value
                                    | None => Raise AttributeError
                                    end) items
  end.

(** [_get_valueset_default]: [args[0]] must exist, the origin must be
    [list] and [args[0]] an instance of [Enum]. *)
Definition _get_valueset_default (typ : PyType) : result PyValue :=
  match typ with
  | ListOf (EnumInstance _ iteration :: _) => values_of iteration
  | ListOf (_ :: _) | DictOf (_ :: _) | UnionOf (_ :: _) | LiteralOf (_ :: _) =>
      Raise (ValueError "'valueSet' only accept list of Enum")
  | _ => Raise IndexError
  end.

(** [type_ = type_hints[key]] and the value the loop computes for it. *)
Fixpoint value_of_key (_get_type_default : PyType → result PyValue)
  (key : string) (type_hints : list (string * PyType)) : result PyValue :=
  match type_hints with
  | [] => Raise (KeyError key)
  | (key', type_) :: rest =>
      if String.eqb key key'
      then if String.eqb key "valueSet" then _get_valueset_default type_
           else _get_type_default type_
      else value_of_key _get_type_default key rest
  end.

(** The loop of [_get_typeddict_default] over the keys. *)
Fixpoint typeddict_data (_get_type_default : PyType → result PyValue)
  (type_hints : list (string * PyType)) (keys : list string)
  (data : list (string * PyValue)) : result (list (string * PyValue)) :=
  match keys with
  | [] => Done data
  | key :: keys' =>
      v ← value_of_key _get_type_default key type_hints;
      typeddict_data _get_type_default type_hints keys' (dict_set key v data)
  end.

Section TypedDictValue.
Variables only_required recursive : bool.

(** [keys] *)
Definition keys_of (type_hints : list (string * PyType))
  (required_keys : list string) : list string :=
  if only_required then required_keys else type_hints.*1.

Fixpoint _get_type_default (typ : PyType) : result PyValue :=
  if negb (hashable typ) then Raise TypeError
  else
    match is_not_None (atomic_types typ) with
    | Some val => Done val
    | None =>
        match typ with
        | ListOf _ => Done (VList [])
        | DictOf _ => Done (VDict [])
        | UnionOf args =>
            match args with
            | a :: _ => _get_type_default a
            | [] => Raise IndexError
            end
        | LiteralOf args => first args
        | TypedDictClass _ type_hints required_keys =>
            if negb recursive then Done (MissingValue typ)
            else VDict <$> typeddict_data _get_type_default type_hints
                             (keys_of type_hints required_keys) []
        | Int => Raise (unable "<class 'int'>")
        | Float => Raise (unable "<class 'float'>")
        | Str => Raise (unable "<class 'str'>")
        | Bool => Raise (unable "<class 'bool'>")
        | NoneType => Raise (unable "<class 'NoneType'>")
        | EnumInstance text _ | OtherType text | Unhashable text =>
            Raise (unable text)
        end
    end.

Definition _get_typeddict_default (type_hints : list (string * PyType))
  (required_keys : list string) : result PyValue :=
  VDict <$> typeddict_data _get_type_default type_hints
              (keys_of type_hints required_keys) [].
End TypedDictValue.

(** [get_default_value(typ, only_required=..., recursive=...)], [typ]
    being the [TypedDict] class with these hints and required keys. *)
Definition get_default_value (type_hints : list (string * PyType))
  (required_keys : list string) (only_required recursive : bool)
  : result PyValue :=
  _get_typeddict_default only_required recursive type_hints required_keys.

End utils.

(** * Reference definitions

    What the specification describes, written independently of the code, to
    compare the code with. *)

(** ** The method identifier *)

(** Insert an underscore between every two neighbours that [boundary]
    accepts: the transform of the specification, each pair of neighbours
    being looked at. *)
Fixpoint separate (boundary : ascii → ascii → bool) (text : string) : string :=
  match text with
  | String c1 ((String c2 _) as tail) =>
      if boundary c1 c2 then String c1 (String "_" (separate boundary tail))
      else String c1 (separate boundary tail)
  | _ => text
  end.

(** The identifier in the words of the specification: a separator at each
    lowercase to uppercase boundary, then lowercase. *)
Definition snake_case_as_specified (text : string) : string :=
  lower (separate (λ c1 c2, is_az c1 && is_AZ c2) text).

(** What the code separates: anything outside [A-Z] from a following
    [A-Z]. *)
Definition snake_case_of_code (text : string) : string :=
  lower (separate (λ c1 c2, negb (is_AZ c1) && is_AZ c2) text).

(** A name made of ASCII letters only. *)
Fixpoint letters_only (text : string) : bool :=
  match text with
  | EmptyString => true
  | String c rest => (is_az c || is_AZ c) && letters_only rest
  end.


(** ** Structures *)

Definition prop (name : string) (tp : Type_) : Property :=
  Build_Property name tp None None.

Definition plain_structure (name : string) (properties : list Property)
  (mixins : list string) : Structure :=
  {| st_name := name; st_extends := None;
     st_mixins := Some (map ReferenceType mixins);
     st_properties := properties; st_documentation := None |}.

Definition model_of_structures (l : list Structure) : MetaModel :=
  {| requests := []; notifications := []; structures := l;
     enumerations := []; typeAliases := [] |}.

(** The declared structure of a name, as [_structure_maps] finds it in the
    input. *)
Definition declared (m : MetaModel) (name : string) : option Structure :=
  ref ← structure_maps_from 0 (structures m) ∅ !! name; structures m !! ref.

(** The field list of the specification: the own properties, then for each
    mixin the own declared properties of the structure it names. *)
Definition fields_as_specified (m : MetaModel) (tp : Structure) : list Property :=
  st_properties tp ++
  concat (map (λ mixin,
                 match mixin with
                 | ReferenceType name => from_option st_properties [] (declared m name)
                 | _ => []
                 end) (default [] (st_mixins tp))).

(** The class compiled for a name, in the types list of a generator. *)
Definition compiled_class (g : CodeGenerator) (name : string) : option Class_ :=
  list_find (λ n, name_of n = name) (_types g) ≫= λ '(_, n),
    match n with ClassName c => Some c | VariableName _ => None end.

Definition variable_names (c : Class_) : list string :=
  map var_name (default [] (cls_variables c)).

(** Three structures: [Inner] is mixed into [Middle], [Middle] into
    [Outer]; [Middle] is declared before [Outer]. *)
Definition nested_mixins : MetaModel :=
  model_of_structures
    [ plain_structure "Middle" [prop "m" (BaseType STRING)] ["Inner"];
      plain_structure "Inner" [prop "n" (BaseType STRING)] [];
      plain_structure "Outer" [prop "s" (BaseType STRING)] ["Middle"] ].

(** ** Enumerations *)

(** What the literal carried by a compiled entry denotes. *)
Definition eval_literal (s : string) : option EntryValue :=
  match eval_str_literal s with
  | Some v => Some (StrValue v)
  | None => IntValue <$> eval_int_literal s
  end.

Definition escape_key : Enumeration :=
  {| en_name := "Keys"; en_type := EnumSTRING;
     en_values := [ {| ee_name := "Escape";
                       ee_value := StrValue (String (chr 27) EmptyString) |} ] |}.

(** ** Default values *)

Module utils_shapes.
Import utils.

(** The member a hint is decided by: a union is decided by its first
    member. *)
Fixpoint selected (typ : PyType) : PyType :=
  match typ with
  | UnionOf (a :: _) => selected a
  | _ => typ
  end.

(** The handled shapes: an atomic scalar, a list, a dictionary, a
    literal, or a union selecting one of these. *)
Definition handled (typ : PyType) : bool :=
  match selected typ with
  | Int | Float | Str | Bool | ListOf _ | DictOf _ | LiteralOf (_ :: _) => true
  | _ => false
  end.

(** An inline record: a [TypedDict] class, or a union selecting one. *)
Definition inline_record (typ : PyType) : bool :=
  match selected typ with
  | TypedDictClass _ _ _ => true
  | _ => false
  end.

(** A shape the helper knows nothing about, or a union selecting one. *)
Definition unhandled (typ : PyType) : bool :=
  match selected typ with
  | OtherType _ | EnumInstance _ _ => true
  | _ => false
  end.

(** The text of the object an unhandled hint is decided by. *)
Definition selected_text (typ : PyType) : string :=
  match selected typ with
  | OtherType text | EnumInstance text _ => text
  | _ => EmptyString
  end.

Definition Position : PyType :=
  TypedDictClass "Position" [("line", Int); ("character", Int)]
    ["line"; "character"].

Definition Location_hints : list (string * PyType) :=
  [("uri", Str); ("start", Position)].

(** [Literal[[1, 2]]]: a literal of a list. *)
Definition list_literal : PyType := LiteralOf [VList [VInt 1; VInt 2]].
End utils_shapes.

(** ** Messages *)

(** A method is named after the identifier of its message: the sender,
    which has a body calling the transport, bears the identifier; a handler
    stub, which has none, bears [handle_] and the identifier. *)
Definition named_after (ident : string) (f : Function) : Prop :=
  fn_name f = match fn_body f with
              | Some _ => ident
              | None => "handle_" +:+ ident
              end.

(** A dispatch table after a message was compiled: the old table, or the
    old table with the entry of [method] set to [handler]. *)
Definition table_step (method handler : string) (old new : list (string * string))
  : Prop :=
  new = old ∨ new = dict_set method handler old.

(** What compiling one message of identifier [ident] does to the two
    dispatchers. *)
Definition compiled_message (ident method : string) (g g' : CodeGenerator) : Prop :=
  ∃ mc ms added_client added_server,
    cls_methods (_client g) = Some mc
    ∧ cls_methods (_server g) = Some ms
    ∧ cls_methods (_client g') = Some (mc ++ added_client)
    ∧ cls_methods (_server g') = Some (ms ++ added_server)
    ∧ Forall (named_after ident) (added_client ++ added_server)
    ∧ ident ∈ map fn_name (added_client ++ added_server)
    ∧ table_step method ("handle_" +:+ ident) (_client_handle_map g) (_client_handle_map g')
    ∧ table_step method ("handle_" +:+ ident) (_server_handle_map g) (_server_handle_map g').

Definition hover : Request :=
  {| req_method := "textDocument/hover"; req_typeName := Some "HoverRequest";
     req_params := OneParam (ReferenceType "HoverParams");
     req_result := ReferenceType "Hover";
     req_messageDirection := CLIENTTOSERVER; req_documentation := None |}.

Definition progress : Notification :=
  {| ntf_method := "$/progress"; ntf_typeName := Some "ProgressNotification";
     ntf_params := OneParam (ReferenceType "ProgressParams");
     ntf_messageDirection := BOTH; ntf_documentation := None |}.

(** A notification sent both ways that has no type name. *)
Definition exit_both : Notification :=
  {| ntf_method := "exit"; ntf_typeName := None; ntf_params := NoParams;
     ntf_messageDirection := BOTH; ntf_documentation := None |}.

(** A dispatcher class with another list of methods. *)
Definition with_methods (c : Class_) (methods : list Function) : Class_ :=
  {| cls_name := cls_name c; cls_variables := cls_variables c;
     cls_methods := Some methods; cls_parents := cls_parents c;
     cls_docstring := cls_docstring c |}.

(** The sender and the handler stub of a notification, as the claim
    describes them: the sender is named by the identifier, takes the
    params and passes them to the transport under the wire method; the
    stub is named by the handler identifier, takes the context and the
    params and has no body; both are declared to return nothing. *)
Definition sender_of (tp : Notification) (ident params : string) : Function :=
  {| fn_name := ident;
     fn_arguments :=
       Some [ {| arg_name := "self"; arg_annotation := None; arg_value := None |};
              {| arg_name := "params"; arg_annotation := Some params;
                 arg_value := None |} ];
     fn_annotation := Some "None";
     fn_body := Some ("self.notify(method=" +:+ repr_str (ntf_method tp)
                      +:+ ", params=params)");
     fn_docstring := ntf_documentation tp |}.

Definition stub_of (handler params : string) : Function :=
  {| fn_name := handler;
     fn_arguments :=
       Some [ {| arg_name := "self"; arg_annotation := None; arg_value := None |};
              {| arg_name := "context"; arg_annotation := Some "dict";
                 arg_value := None |};
              {| arg_name := "params"; arg_annotation := Some params;
                 arg_value := None |} ];
     fn_annotation := Some "None"; fn_body := None; fn_docstring := None |}.

Definition empty_model : MetaModel :=
  {| requests := []; notifications := []; structures := [];
     enumerations := []; typeAliases := [] |}.

(** ** The generator's life cycle *)

(** A computation keeps an invariant of the store, however it ends. *)
Definition preserves {S A} (I : S → Prop) (m : Py S A) : Prop :=
  ∀ σ, I σ → I (m σ).2.




(** A model with one message of each kind. *)
Definition small_model : MetaModel :=
  {| requests := [hover]; notifications := [progress];
     structures := [plain_structure "Hover" [prop "contents" (BaseType STRING)] []];
     enumerations := [escape_key]; typeAliases := [] |}.


(** ** Imports *)

(** The identifiers of a text as a lexer reads them: a letter or an
    underscore followed by ANY number of word characters, a single letter
    included. *)
Definition flush_identifier (cur : option string) : list string :=
  match cur with
  | Some tok => [tok]
  | None => []
  end.

Fixpoint scan_identifiers (cur : option string) (s : string) : list string :=
  match s with
  | EmptyString => flush_identifier cur
  | String c rest =>
      match cur with
      | Some tok =>
          if is_word c then scan_identifiers (Some (tok +:+ String c EmptyString)) rest
          else flush_identifier cur ++ scan_identifiers None rest
      | None =>
          if is_ident_start c then scan_identifiers (Some (String c EmptyString)) rest
          else scan_identifiers None rest
      end
  end.

Definition identifiers (text : string) : list string := scan_identifiers None text.

(** The elements of a list in the order of their first occurrence. *)
Fixpoint first_occurrences (l : list string) : list string :=
  match l with
  | [] => []
  | x :: l' => x :: filter (λ y, y ≠ x) (first_occurrences l')
  end.

(** The annotations the resolver scans in a method: those of the arguments,
    then that of the result. *)
Definition method_annotations (f : Function) : list string :=
  omap (λ a, truthy (arg_annotation a)) (default [] (fn_arguments f))
  ++ option_list (truthy (fn_annotation f)).

(** The texts the resolver scans in a dispatcher class, in order. *)
Definition scanned_annotations (c : Class_) : list string :=
  omap (λ v, truthy (var_annotation v)) (default [] (cls_variables c))
  ++ concat (map method_annotations (default [] (cls_methods c))).

(** A type alias of one letter, and a notification whose parameter is of
    that type. *)
Definition single_letter : MetaModel :=
  {| requests := [];
     notifications :=
       [ {| ntf_method := "custom/tell"; ntf_typeName := Some "TellNotification";
            ntf_params := OneParam (ReferenceType "T");
            ntf_messageDirection := CLIENTTOSERVER; ntf_documentation := None |} ];
     structures := []; enumerations := [];
     typeAliases := [ {| ta_name := "T"; ta_type := BaseType STRING;
                         ta_documentation := None |} ] |}.

(** ** Ordering *)

(** The texts [define_name] scans in a class. *)
Definition annotations_of (c : Class_) : list string :=
  omap (λ v, truthy (var_annotation v)) (default [] (cls_variables c)).

(** The names a definition references, read with a given scanner: the
    parent names, the identifiers of the field annotations, the identifiers
    of the value of an alias. *)
Definition references_with (tokens : string → list string) (n : Name) : list string :=
  match n with
  | ClassName c =>
      default [] (cls_parents c) ++ concat (map tokens (annotations_of c))
  | VariableName v =>
      if bool_decide (var_annotation v = Some "TypeAlias")
      then from_option tokens [] (var_value v)
      else []
  end.

(** The references the orderer sees. *)
Definition references : Name → list string := references_with findall.

(** A definition the orderer can iterate over: a class has its two lists,
    an alias has its value. *)
Definition well_formed (n : Name) : Prop :=
  match n with
  | ClassName c => is_Some (cls_parents c) ∧ is_Some (cls_variables c)
  | VariableName v => var_annotation v = Some "TypeAlias" → is_Some (var_value v)
  end.

#[global] Instance well_formed_dec n : Decision (well_formed n).
Proof. destruct n; simpl; apply _. Defined.

(** [x] stands before [y] in [l]. *)
Definition precedes (x y : string) (l : list string) : Prop :=
  ∃ l1 l2 l3, l = l1 ++ x :: l2 ++ y :: l3.

(** [a] references the defined name [b]. *)
Definition refers (tokens : string → list string) (names : list Name)
  (a b : string) : Prop :=
  ∃ D, D ∈ names ∧ name_of D = a
       ∧ b ∈ references_with tokens D ∧ b ∈ (name_of <$> names).

Inductive reaches (tokens : string → list string) (names : list Name)
  : string → string → Prop :=
  | reaches_step a b : refers tokens names a b → reaches tokens names a b
  | reaches_trans a b c :
      refers tokens names a b → reaches tokens names b c →
      reaches tokens names a c.

(** A definition takes part in a reference cycle. *)
Definition in_cycle (tokens : string → list string) (names : list Name)
  (a : string) : Prop :=
  reaches tokens names a a.

(** The references are acyclic and no chain of them is as long as the
    recursion limit: every definition has a rank below the limit, above the
    ranks of the defined names it references. *)
Definition ranked (rank : string → nat) (limit : nat) (names : list Name) : Prop :=
  Forall (λ D,
            rank (name_of D) < limit
            ∧ Forall (λ R, R ∈ (name_of <$> names) → rank R < rank (name_of D))
                (references D)) names.

(** No definition references the name. *)
Definition unreferenced (names : list Name) (y : string) : Prop :=
  Forall (λ D, y ∉ references D) names.

(** The ordering of the specification, as C1 states it. *)
Definition ordered_as_specified (limit : nat) (names : list Name) : Prop :=
  ∃ out,
    ordered_names limit names = Done out
    ∧ NoDup ((name_of <$> out))
    ∧ (∀ D R, D ∈ out → R ∈ references_with identifiers D →
              R ∈ (name_of <$> names) →
              ¬ in_cycle identifiers names (name_of D) →
              precedes R (name_of D) ((name_of <$> out)))
    ∧ (∀ x y, precedes x y ((name_of <$> names)) →
              ¬ reaches identifiers names x y → ¬ reaches identifiers names y x →
              precedes x y ((name_of <$> out))).

Definition field_class (name : string) (annotations : list string) : Name :=
  ClassName
    {| cls_name := name;
       cls_variables :=
         Some (map (λ a, {| var_name := "field"; var_annotation := Some a;
                            var_value := None; var_docstring := None |})
                 annotations);
       cls_methods := None; cls_parents := Some ["TypedDict"];
       cls_docstring := None |}.

(** [Tree] holds trees and leaves; [Leaf] holds a [Label]; nothing refers
    to [Tag].  Only [Tree] is on a cycle. *)
Definition beside_a_cycle : list Name :=
  [ field_class "Tree" ["List[Tree]"; "Leaf"];
    field_class "Tag" ["str"];
    field_class "Leaf" ["Label"];
    field_class "Label" ["str"] ].

(** An acyclic set of definitions, declared consumers first. *)
Definition consumers_first : list Name :=
  [ field_class "Range" ["Position"; "Position"];
    ClassName {| cls_name := "Location"; cls_variables := Some [];
                 cls_methods := None; cls_parents := Some ["Range"];
                 cls_docstring := None |};
    VariableName {| var_name := "Position"; var_annotation := Some "TypeAlias";
                    var_value := Some "Tuple[uinteger, uinteger]";
                    var_docstring := None |};
    VariableName {| var_name := "uinteger"; var_annotation := Some "TypeAlias";
                    var_value := Some "int"; var_docstring := None |} ].

(** Some definition references the defined name. *)
Definition referenced (names : list Name) (x : string) : Prop :=
  x ∈ (name_of <$> names) ∧ ∃ D, D ∈ names ∧ x ∈ references D.

(** The parent names of a definition, and the identifiers the orderer
    reads off its annotations or off its value. *)
Definition parents_of (n : Name) : list string :=
  match n with
  | ClassName c => default [] (cls_parents c)
  | VariableName _ => []
  end.

Definition tokens_of (n : Name) : list string :=
  match n with
  | ClassName c => concat (map findall (annotations_of c))
  | VariableName v =>
      if bool_decide (var_annotation v = Some "TypeAlias")
      then from_option findall [] (var_value v)
      else []
  end.

(** No chain of parent links is as long as the recursion limit, and none
    is a cycle: every definition has a rank below the limit, above the
    ranks of its defined parents. *)
Definition parents_ranked (prank : string → nat) (limit : nat) (names : list Name)
  : Prop :=
  Forall (λ D,
            prank (name_of D) < limit
            ∧ Forall (λ P, P ∈ (name_of <$> names) → prank P < prank (name_of D))
                (parents_of D)) names.

(** A chain of [n] references leads from [a] to [b]. *)
Inductive reaches_in (names : list Name) : nat → string → string → Prop :=
  | reaches_in_O a : reaches_in names 0 a a
  | reaches_in_S n a b c :
      reaches_in names n a b → refers findall names b c →
      reaches_in names (S n) a c.

(** The names of a list up to the first [y], [y] included. *)
Fixpoint upto (y : string) (l : list string) : list string :=
  match l with
  | [] => []
  | x :: l' => if decide (x = y) then [x] else x :: upto y l'
  end.

(** [x] is declared no later than [y]: it is [y], or it is declared
    before it. *)
Definition no_later (names : list Name) (x y : string) : Prop :=
  x ∈ upto y (name_of <$> names).

(** Every chain of references that leads to [D] from a definition declared
    no later than [D], continued by the chain of the parents of [R], stays
    below the recursion limit.  No such chain goes through a cycle. *)
Definition within_depth (names : list Name) (prank : string → nat) (limit : nat)
  (D R : string) : Prop :=
  ∀ N n, no_later names N D → reaches_in names n N D → n + prank R + 1 < limit.

(** A way to check [within_depth]: the definitions in [early] hold those
    declared no later than [D] and all they reach; among them, those in
    [above] hold [D] and all that reach it, and [level] grows along every
    reference between two of them. *)
Definition levelled (names : list Name) (early above : string → bool)
  (level : string → nat) (D : string) : Prop :=
  above D = true
  ∧ Forall (λ N, no_later names (name_of N) D → early (name_of N) = true) names
  ∧ Forall (λ X,
              early (name_of X) = true →
              Forall (λ y, y ∈ (name_of <$> names) →
                           early y = true
                           ∧ (above y = true →
                                above (name_of X) = true
                                ∧ level (name_of X) < level y))
                (references X)) names.

(** In the list of defined names every defined parent of a name stands
    before it. *)
Definition parents_placed (names : list Name) (st : list string) : Prop :=
  ∀ i x o P,
    st !! i = Some x → name_map_of names !! x = Some o →
    P ∈ parents_of o → P ∈ (name_of <$> names) → P ∈ take i st.

(** In the list of defined names [R] stands before [D]. *)
Definition reference_placed (D R : string) (st : list string) : Prop :=
  ∀ i, st !! i = Some D → R ∈ take i st.

(** A call of [define_name] for [x] with [d] nested calls left is deep
    enough for [D]: [D] is defined and is not [x], or the calls above it
    follow a chain of references from a definition declared no later than
    [D]. *)
Definition deep (names : list Name) (limit : nat) (D : string) (d : nat)
  (x : string) (st : list string) : Prop :=
  (x ≠ D ∧ D ∈ st)
  ∨ ∃ N n, no_later names N D ∧ reaches_in names n N x ∧ n + d = limit.

(** [R] is a defined reference of the definition [D], within depth. *)
Definition target (names : list Name) (prank : string → nat) (limit : nat)
  (D R : string) : Prop :=
  R ∈ (name_of <$> names)
  ∧ (∃ o, o ∈ names ∧ name_of o = D ∧ R ∈ references o)
  ∧ within_depth names prank limit D R.

(** What a call for a definition, with [d] nested calls left, does to the
    list of defined names. *)
Definition defines (names : list Name) (prank : string → nat) (limit : nat)
  (D R : string) (d : nat) (define : Name → Py (list string) unit) : Prop :=
  ∀ o st,
    o ∈ names → parents_placed names st →
    ∃ r ext,
      define o st = (r, st ++ ext)
      ∧ parents_placed names (st ++ ext)
      ∧ match r with
        | Done _ =>
            ∃ ext', ext = ext' ++ [name_of o] ∧ Forall (referenced names) ext'
        | Raise e =>
            e = RecursionError ∧ (d ≤ prank (name_of o))%nat
            ∧ Forall (referenced names) ext
        end
      ∧ (target names prank limit D R → deep names limit D d (name_of o) st →
         reference_placed D R st → reference_placed D R (st ++ ext)).

(** [Leaf] is declared before the cycle that reaches it. *)
Definition leaf_first : list Name :=
  [ field_class "Leaf" ["Label"];
    field_class "Tree" ["List[Tree]"; "Leaf"];
    field_class "Tag" ["str"];
    field_class "Label" ["str"] ].

(** ** Sample inputs *)

Definition position_store : list Structure :=
  [plain_structure "Position" [prop "line" (BaseType UINTEGER)] []].

Definition range_class : Name := field_class "Range" ["Position"; "Position"].

(** ** More on messages *)

(** The three methods [request] builds. *)
Definition request_function_of (tp : Request) (func_name params : string) : Function :=
  {| fn_name := func_name;
     fn_arguments := Some [argument "self" None; argument "params" (Some params)];
     fn_annotation := Some "None";
     fn_body := Some ("self.request(method=" +:+ repr_str (req_method tp)
                      +:+ ", params=params)");
     fn_docstring := req_documentation tp |}.

Definition handle_result_function_of (handle_func_name result_ : string) : Function :=
  {| fn_name := handle_func_name;
     fn_arguments := Some [argument "self" None; argument "context" (Some "dict");
                           argument "result" (Some result_)];
     fn_annotation := Some "None"; fn_body := None; fn_docstring := None |}.

Definition handle_request_function_of (handle_func_name params result_ : string)
  : Function :=
  {| fn_name := handle_func_name;
     fn_arguments := Some [argument "self" None; argument "context" (Some "dict");
                           argument "params" (Some params)];
     fn_annotation := Some result_; fn_body := None; fn_docstring := None |}.

(** The sample request, sent both ways. *)
Definition hover_both : Request :=
  {| req_method := "textDocument/hover"; req_typeName := Some "HoverRequest";
     req_params := OneParam (ReferenceType "HoverParams");
     req_result := ReferenceType "Hover";
     req_messageDirection := BOTH; req_documentation := None |}.

(** A notification from the client, and one without a type name. *)
Definition did_open : Notification :=
  {| ntf_method := "textDocument/didOpen";
     ntf_typeName := Some "DidOpenTextDocumentNotification";
     ntf_params := OneParam (ReferenceType "DidOpenTextDocumentParams");
     ntf_messageDirection := CLIENTTOSERVER; ntf_documentation := None |}.

Definition nameless : Notification :=
  {| ntf_method := "exit"; ntf_typeName := None; ntf_params := NoParams;
     ntf_messageDirection := CLIENTTOSERVER; ntf_documentation := None |}.

(** ** More on the scanner and the imports *)

(** The shape of a token of the scanner: a start character, then word
    characters, at least one. *)
Fixpoint all_word (s : string) : bool :=
  match s with
  | EmptyString => true
  | String c rest => is_word c && all_word rest
  end.

Definition token_shape (tok : string) : Prop :=
  match tok with
  | String c (String d rest) =>
      is_ident_start c = true ∧ all_word (String d rest) = true
  | _ => False
  end.

(** The tokens the resolver looks up for a class, in the order it meets
    them: the parent names as they are, then the identifiers of the
    annotations. *)
Definition class_tokens (c : Class_) : list string :=
  default [] (cls_parents c) ++ concat (findall <$> scanned_annotations c).

(** A dispatcher with two handlers naming the same defined types. *)
Definition sample_dispatcher : Class_ :=
  {| cls_name := "Server"; cls_variables := Some [];
     cls_methods :=
       Some [ handle_request_function_of "handle_hover" "HoverParams" "Hover";
              handle_request_function_of "handle_definition" "DefinitionParams"
                "Union[Location, Hover]" ];
     cls_parents := None; cls_docstring := None |}.

Definition sample_types : list Name :=
  [ field_class "Hover" ["str"]; field_class "HoverParams" ["Position"];
    field_class "Location" ["str"] ].

(** A method built with the default of its [arguments]. *)
Definition bare_function : Function :=
  {| fn_name := "shutdown"; fn_arguments := None; fn_annotation := Some "None";
     fn_body := None; fn_docstring := None |}.

(** ** More on the ordering *)

(** A computation on the defined names only appends names, all of them
    satisfying [P]. *)
Definition appends {A} (P : string → Prop) (m : Py (list string) A) : Prop :=
  ∀ st r st', m st = (r, st') → ∃ ext, st' = st ++ ext ∧ Forall P ext.

(** Every definition of [l] stands after the defined names it references,
    [seen] being the names before [l] and [all] the defined names. *)
Fixpoint references_seen (seen all : list string) (l : list Name) : bool :=
  match l with
  | [] => true
  | D :: l' =>
      forallb (λ R, implb (bool_decide (R ∈ all)) (bool_decide (R ∈ seen)))
        (references D)
      && references_seen (seen ++ [name_of D]) all l'
  end.

Definition in_reference_order (names : list Name) : bool :=
  references_seen [] (name_of <$> names) names.

(** The same definitions as [consumers_first], in the order the orderer
    gives them. *)
Definition references_first_sample : list Name :=
  [ VariableName {| var_name := "uinteger"; var_annotation := Some "TypeAlias";
                    var_value := Some "int"; var_docstring := None |};
    VariableName {| var_name := "Position"; var_annotation := Some "TypeAlias";
                    var_value := Some "Tuple[uinteger, uinteger]";
                    var_docstring := None |};
    range_class;
    ClassName {| cls_name := "Location"; cls_variables := Some [];
                 cls_methods := None; cls_parents := Some ["Range"];
                 cls_docstring := None |} ].

(** A name of the dictionary of the orderer. *)
Definition declared_name (names : list Name) (x : string) : Prop :=
  is_Some (name_map_of names !! x).

(** Whatever a computation raises is a [RecursionError]. *)
Definition raises_only_recursion {S A} (m : Py S A) : Prop :=
  ∀ σ e σ', m σ = (Raise e, σ') → e = RecursionError.

(** A class that is its own parent, after a parent that is declared. *)
Definition own_parent_sample : list Name :=
  [ field_class "Base" ["str"];
    ClassName {| cls_name := "Node"; cls_variables := Some [];
                 cls_methods := None; cls_parents := Some ["Base"; "Node"];
                 cls_docstring := None |};
    field_class "Edge" ["Node"] ].

(** The name is not among the defined names. *)
Definition not_defined (n : string) (st : list string) : Prop := n ∉ st.

(** ** More on structures *)

(** The store after compiling the structure at [self_]: nothing but an
    extension of the property list of that structure. *)
Definition only_extended (self_ : nat) (store store' : list Structure) : Prop :=
  length store' = length store
  ∧ (∀ j, j ≠ self_ → store' !! j = store !! j)
  ∧ (∀ tp, store !! self_ = Some tp →
       ∃ more, store' !! self_ = Some (set_properties (st_properties tp ++ more) tp)).

(** The structure a mixin names, in a store. *)
Definition mixin_target (maps : gmap string nat) (store : list Structure)
  (mixin : Type_) : option (nat * Structure) :=
  match mixin with
  | ReferenceType name => ref ← maps !! name; tp ← store !! ref; Some (ref, tp)
  | _ => None
  end.

(** The own properties, followed by the properties the mixin targets hold
    in the store. *)
Definition flattened (maps : gmap string nat) (store : list Structure)
  (tp : Structure) : list Property :=
  st_properties tp ++
  concat ((λ mixin, from_option (λ t, st_properties t.2) [] (mixin_target maps store mixin))
            <$> default [] (st_mixins tp)).

(** Every mixin names a structure of the store other than the one at
    [self_]. *)
Definition mixins_elsewhere (maps : gmap string nat) (store : list Structure)
  (self_ : nat) (mixins : list Type_) : Prop :=
  Forall (λ mixin, ∃ ref tp, mixin_target maps store mixin = Some (ref, tp)
                             ∧ ref ≠ self_) mixins.

Definition nested_store : list Structure := structures nested_mixins.

(** ** More on the type compiler *)

(** A type without a structure literal anywhere inside. *)
Fixpoint literal_free (tp : Type_) : bool :=
  match tp with
  | ArrayType element => literal_free element
  | MapType _ value => literal_free value
  | AndType items | OrType items | TupleType items =>
      (fix all l := match l with
                    | [] => true
                    | c :: l' => literal_free c && all l'
                    end) items
  | StructureLiteralType _ => false
  | _ => true
  end.

Definition locations_map : Type_ :=
  MapType (MapKeyTypeOpt KeyDocumentUri)
    (ArrayType (OrType [ReferenceType "Location"; BaseType NULL])).

Definition range_literal : Type_ :=
  StructureLiteralType [prop "start" (BaseType UINTEGER); prop "end" (BaseType UINTEGER)].

(** ** More on the identifier *)

(** No character of the text is in [A-Z]. *)
Fixpoint no_AZ (s : string) : bool :=
  match s with
  | EmptyString => true
  | String c rest => negb (is_AZ c) && no_AZ rest
  end.

(** ** More on default values *)

Module utils_keys.
Import utils.

(** What the loop of [_get_typeddict_default] computes for a key. *)
Definition value_for (only_required recursive : bool) (key : string)
  (type_ : PyType) : result PyValue :=
  if String.eqb key "valueSet" then _get_valueset_default type_
  else _get_type_default only_required recursive type_.

(** A hint that is a list whose first argument is an instance of
    [Enum]. *)
Definition list_of_enum_instance (typ : PyType) : bool :=
  match typ with
  | ListOf (EnumInstance _ _ :: _) => true
  | _ => false
  end.

Definition completion_hints : list (string * PyType) :=
  [ ("label", Str); ("detail", UnionOf [Str; NoneType]); ("tags", ListOf [Int]) ].

(** [valueSet: List[SymbolKind]], the argument being the class. *)
Definition kinds_hints : list (string * PyType) :=
  [ ("dynamicRegistration", Bool);
    ("valueSet", ListOf [OtherType "<enum 'SymbolKind'>"]) ].

(** [valueSet: list[Perm.R | Perm.W]], the argument being a member of a
    [Flag] whose iteration yields the two flags. *)
Definition flags_hints : list (string * PyType) :=
  [ ("valueSet",
     ListOf [EnumInstance "Perm.R|W" (Some [Some (VInt 1); Some (VInt 2)])]) ].
End utils_keys.

(** ** What [generate] leaves behind *)

(** A structure object after some [extend] calls on its property list. *)
Definition extended (tp tp' : Structure) : Prop :=
  ∃ more, tp' = set_properties (st_properties tp ++ more) tp.

Definition model_extended (m m' : MetaModel) : Prop :=
  requests m' = requests m
  ∧ notifications m' = notifications m
  ∧ enumerations m' = enumerations m
  ∧ typeAliases m' = typeAliases m
  ∧ Forall2 extended (structures m) (structures m').

(** The names a model declares, in the order [generate] goes through
    them. *)
Definition declared_names (m : MetaModel) : list string :=
  (en_name <$> enumerations m) ++ (st_name <$> structures m)
  ++ (ta_name <$> typeAliases m).

Definition type_names (g : CodeGenerator) : list string := name_of <$> _types g.

(** A computation that appends to [_types] definitions of the names [l],
    one after the other, stopping where it raises. *)
Definition declares (J : CodeGenerator → Prop) (l : list string)
  (m : Py CodeGenerator unit) : Prop :=
  ∀ g, J g →
    J (m g).2
    ∧ ∃ l1, l1 `prefix_of` l
        ∧ type_names (m g).2 = type_names g ++ l1
        ∧ match (m g).1 with Done _ => l1 = l | Raise _ => True end.

(** The name of the structure declared at a position. *)
Definition structure_name (m : MetaModel) (self_ : nat) : string :=
  from_option st_name "" (structures m !! self_).

(** What the messages leave as it is. *)
Definition kept (M : MetaModel) (T : list Name) (g : CodeGenerator) : Prop :=
  model g = M ∧ _types g = T.

Definition extends_model (m : MetaModel) (g : CodeGenerator) : Prop :=
  model_extended m (model g).

(** ** Sample runs *)

(** What the orderer returns on [beside_a_cycle]. *)
Definition beside_a_cycle_out : list Name :=
  Eval vm_compute in
    match ordered_names 1000 beside_a_cycle with
    | Done out => out
    | Raise _ => []
    end.

(** The generator after [generate] on [small_model], the code its
    [server_code] returns and the generator after that read. *)
Definition small_generated : CodeGenerator :=
  Eval vm_compute in (generate (__init__ small_model)).2.

Definition small_server_code : list Code :=
  Eval vm_compute in
    match (server_code small_generated).1 with
    | Done code => code
    | Raise _ => []
    end.

Definition small_read : CodeGenerator :=
  Eval vm_compute in (server_code small_generated).2.

(** * Properties *)

(** ** The method identifier *)

Lemma sub_boundaries_cons2 c1 c2 rest :
  sub_boundaries (String c1 (String c2 rest)) =
  if negb (is_AZ c1) && is_AZ c2
  then String c1 (String "_" (String c2 (sub_boundaries rest)))
  else String c1 (sub_boundaries (String c2 rest)).
Proof. reflexivity. Qed.

Lemma separate_cons2 boundary c1 c2 rest :
  separate boundary (String c1 (String c2 rest)) =
  if boundary c1 c2
  then String c1 (String "_" (separate boundary (String c2 rest)))
  else String c1 (separate boundary (String c2 rest)).
Proof. reflexivity. Qed.

(** After an upper-case letter no separator follows, so resuming the scan
    behind it loses nothing. *)
Lemma separate_after_upper c rest :
  is_AZ c = true →
  separate (λ c1 c2, negb (is_AZ c1) && is_AZ c2) (String c rest)
  = String c (separate (λ c1 c2, negb (is_AZ c1) && is_AZ c2) rest).
Proof.
  intros Hc. destruct rest as [|c' rest]; [reflexivity|].
  rewrite separate_cons2, Hc. reflexivity.
Qed.

Lemma sub_boundaries_separate text :
  sub_boundaries text = separate (λ c1 c2, negb (is_AZ c1) && is_AZ c2) text.
Proof.
  remember (String.length text) as n eqn:Hn.
  revert text Hn. induction (lt_wf n) as [n _ IH]. intros text ->.
  destruct text as [|c1 [|c2 rest]]; [reflexivity..|].
  rewrite sub_boundaries_cons2, separate_cons2.
  destruct (negb (is_AZ c1) && is_AZ c2) eqn:E.
  - apply andb_true_iff in E as [_ E2].
    rewrite (separate_after_upper _ _ E2).
    do 3 f_equal. eapply IH; [|reflexivity]. simpl. lia.
  - f_equal. eapply IH; [|reflexivity]. simpl. lia.
Qed.

Lemma to_snake_case_of_code text : to_snake_case text = snake_case_of_code text.
Proof. unfold to_snake_case, snake_case_of_code. by rewrite sub_boundaries_separate. Qed.

Lemma az_not_AZ c : is_az c = true → is_AZ c = false.
Proof.
  unfold is_az, is_AZ, in_range. intros H.
  apply andb_true_iff in H as [H1 H2].
  apply N.leb_le in H1. apply andb_false_iff. right. apply N.leb_gt. lia.
Qed.

Lemma separate_letters text :
  letters_only text = true →
  separate (λ c1 c2, negb (is_AZ c1) && is_AZ c2) text
  = separate (λ c1 c2, is_az c1 && is_AZ c2) text.
Proof.
  induction text as [|c1 rest IH]; [done|].
  intros H. change (letters_only (String c1 rest))
    with ((is_az c1 || is_AZ c1) && letters_only rest) in H.
  apply andb_true_iff in H as [Hc Hrest].
  destruct rest as [|c2 rest']; [done|].
  specialize (IH Hrest).
  rewrite !separate_cons2, IH.
  assert (negb (is_AZ c1) = is_az c1) as ->; [|done].
  destruct (is_az c1) eqn:E.
  - by rewrite (az_not_AZ _ E).
  - apply orb_true_iff in Hc as [Hc|Hc]; [done|]. by rewrite Hc.
Qed.

(** On names made of letters the code computes the identifier of the
    specification. *)
Lemma to_snake_case_letters text :
  letters_only text = true → to_snake_case text = snake_case_as_specified text.
Proof.
  intros H. rewrite to_snake_case_of_code.
  unfold snake_case_of_code, snake_case_as_specified.
  by rewrite separate_letters.
Qed.

(** C7, as stated, fails: after a digit the code separates too, the
    specification's transform does not. *)
Lemma to_snake_case_digit_boundary :
  to_snake_case "A1B" = "a1_b" ∧ snake_case_as_specified "A1B" = "a1b"
  ∧ to_snake_case "A1B" ≠ snake_case_as_specified "A1B".
Proof. split; [|split]; [reflexivity | reflexivity | discriminate]. Qed.

(** ** Messages *)

Lemma dict_get_set_eq {V} k (v : V) d : dict_get k (dict_set k v d) = Some v.
Proof.
  induction d as [|[k' v'] d IH]; simpl.
  - by rewrite String.eqb_refl.
  - destruct (String.eqb k k') eqn:E; simpl; rewrite ?String.eqb_refl, ?E; done.
Qed.

Lemma dict_get_set_ne {V} k k' (v : V) d :
  k ≠ k' → dict_get k' (dict_set k v d) = dict_get k' d.
Proof.
  intros Hne. induction d as [|[k0 v0] d IH]; simpl.
  - destruct (String.eqb k' k) eqn:E; [|done].
    apply String.eqb_eq in E. congruence.
  - destruct (String.eqb k k0) eqn:E; simpl.
    + apply String.eqb_eq in E. subst k0.
      destruct (String.eqb k' k) eqn:E'; [|done].
      apply String.eqb_eq in E'. congruence.
    + by rewrite IH.
Qed.

Lemma dict_set_twice {V} k (v : V) d : dict_set k v (dict_set k v d) = dict_set k v d.
Proof.
  induction d as [|[k' v'] d IH]; simpl.
  - by rewrite String.eqb_refl.
  - destruct (String.eqb k k') eqn:E; simpl; rewrite ?String.eqb_refl, ?E, ?IH; done.
Qed.

(** Unfolding the monad of the generator. *)
Ltac py_unfold :=
  unfold mbind, mret, py_mbind, py_mret, py_bind, py_ret, py_lift, py_when,
    py_modify, py_raise, py_get, server_append, client_append, server_handle,
    client_handle, methods_append in *.

Lemma dict_set_keys {V} key (v : V) data :
  (dict_set key v data).*1 = if bool_decide (key ∈ data.*1) then data.*1
                             else data.*1 ++ [key].
Proof.
  induction data as [|[k v'] data IH]; [done|]. cbn [dict_set].
  destruct (String.eqb key k) eqn:Hk; rewrite !fmap_cons; cbn [fst].
  - apply String.eqb_eq in Hk as ->. rewrite bool_decide_true by left. done.
  - apply String.eqb_neq in Hk. rewrite IH.
    destruct (bool_decide (key ∈ data.*1)) eqn:Hin.
    + rewrite bool_decide_true; [done|]. right. by apply bool_decide_eq_true in Hin.
    + rewrite bool_decide_false; [done|].
      apply bool_decide_eq_false in Hin. by intros [?|?]%elem_of_cons.
Qed.

(** C6 (amended). On a generator whose dispatchers hold their method
    lists, a notification whose direction is [BOTH] does one of three
    things.  Without a type name it raises [TypeError] and adds nothing;
    with params that do not compile it raises their error and adds
    nothing.  Otherwise it returns, and the generator differs in this
    only: the client has gained the sender and then the handler stub, the
    server the handler stub and then the sender, both declared to return
    [None]; and the dispatch table of each role maps the wire method to
    the handler identifier, in a new last entry, or in place of the entry
    the method already had, every other entry being as it was. *)
Theorem notification_both tp g mc ms :
  ntf_messageDirection tp = BOTH →
  cls_methods (_client g) = Some mc →
  cls_methods (_server g) = Some ms →
  (ntf_typeName tp = None → notification tp g = (Raise TypeError, g))
  ∧ (∀ text e,
       ntf_typeName tp = Some text → type_params (ntf_params tp) = Raise e →
       notification tp g = (Raise e, g))
  ∧ (∀ text params,
       ntf_typeName tp = Some text → type_params (ntf_params tp) = Done params →
       let method := ntf_method tp in
       let handler := "handle_" +:+ to_snake_case text in
       let sender := sender_of tp (to_snake_case text) params in
       let stub := stub_of handler params in
       let client_table := dict_set method handler (_client_handle_map g) in
       let server_table := dict_set method handler (_server_handle_map g) in
       notification tp g
       = (Done tt,
          {| model := model g; _types := _types g;
             _server := with_methods (_server g) (ms ++ [stub; sender]);
             _server_handle_map := server_table;
             _client := with_methods (_client g) (mc ++ [sender; stub]);
             _client_handle_map := client_table;
             _structure_maps := _structure_maps g;
             _is_generated := _is_generated g |})
       ∧ dict_get method client_table = Some handler
       ∧ dict_get method server_table = Some handler
       ∧ (∀ k, k ≠ method →
            dict_get k client_table = dict_get k (_client_handle_map g)
            ∧ dict_get k server_table = dict_get k (_server_handle_map g))
       ∧ client_table.*1
         = (if bool_decide (method ∈ (_client_handle_map g).*1)
            then (_client_handle_map g).*1
            else (_client_handle_map g).*1 ++ [method])
       ∧ server_table.*1
         = (if bool_decide (method ∈ (_server_handle_map g).*1)
            then (_server_handle_map g).*1
            else (_server_handle_map g).*1 ++ [method])).
Proof.
  intros Hdir Hmc Hms. split; [|split].
  - intros Hname. unfold notification. py_unfold. by rewrite Hname.
  - intros text e Hname Hparams. unfold notification. py_unfold.
    by rewrite Hname, Hparams.
  - intros text params Hname Hparams method handler sender stub
      client_table server_table.
    split.
    + unfold notification. py_unfold.
      rewrite Hname, Hparams, Hdir. cbn. rewrite Hmc. cbn. rewrite Hms. cbn.
      unfold with_methods. rewrite <- !app_assoc. reflexivity.
    + split; [apply dict_get_set_eq|]. split; [apply dict_get_set_eq|].
      split; [|split; apply dict_set_keys].
      intros k Hk. split; by apply dict_get_set_ne.
Qed.

(** C6, as stated, fails: a notification sent both ways need not have a
    type name, and then nothing is added, the call raising [TypeError];
    and compiling a notification whose wire method already has its entry
    adds no entry to either table. *)
Lemma nameless_both_adds_nothing :
  ntf_messageDirection exit_both = BOTH
  ∧ notification exit_both (__init__ empty_model)
    = (Raise TypeError, __init__ empty_model)
  ∧ ∃ g1 g2,
      notification progress (__init__ empty_model) = (Done tt, g1)
      ∧ notification progress g1 = (Done tt, g2)
      ∧ _client_handle_map g2 = _client_handle_map g1
      ∧ _server_handle_map g2 = _server_handle_map g1
      ∧ length (_client_handle_map g2) = 1.
Proof.
  split; [reflexivity|]. split; [reflexivity|].
  exists (notification progress (__init__ empty_model)).2,
    (notification progress (notification progress (__init__ empty_model)).2).2.
  by vm_compute.
Qed.

Lemma request_compiled tp g text params result_ mc ms :
  req_typeName tp = Some text →
  type_params (req_params tp) = Done params →
  type_ (req_result tp) = Done result_ →
  cls_methods (_client g) = Some mc →
  cls_methods (_server g) = Some ms →
  ∃ g', request tp g = (Done tt, g')
        ∧ compiled_message (to_snake_case text) (req_method tp) g g'.
Proof.
  intros Hname Hparams Hresult Hmc Hms.
  unfold request, compiled_message. py_unfold.
  rewrite Hname, Hparams, Hresult. cbn.
  destruct (req_messageDirection tp); cbn;
    rewrite ?Hmc, ?Hms; cbn; rewrite ?Hmc, ?Hms; cbn;
    (eexists; split; [reflexivity|]);
    exists mc, ms; cbn; rewrite <- ?app_assoc; cbn;
    do 2 eexists; (split; [done|]); (split; [done|]);
    (split; [reflexivity|]); (split; [reflexivity|]);
    simpl app; simpl map;
    (split; [repeat first [apply Forall_nil_2 | apply Forall_cons_2; [reflexivity|]]|]);
    (split; [set_solver|]);
    unfold table_step; cbn; rewrite ?dict_set_twice; split; first [by left | by right].
Qed.

Lemma notification_compiled tp g text params mc ms :
  ntf_typeName tp = Some text →
  type_params (ntf_params tp) = Done params →
  cls_methods (_client g) = Some mc →
  cls_methods (_server g) = Some ms →
  ∃ g', notification tp g = (Done tt, g')
        ∧ compiled_message (to_snake_case text) (ntf_method tp) g g'.
Proof.
  intros Hname Hparams Hmc Hms.
  unfold notification, compiled_message. py_unfold.
  rewrite Hname, Hparams. cbn.
  destruct (ntf_messageDirection tp); cbn;
    rewrite ?Hmc, ?Hms; cbn; rewrite ?Hmc, ?Hms; cbn;
    (eexists; split; [reflexivity|]);
    exists mc, ms; cbn; rewrite <- ?app_assoc; cbn;
    do 2 eexists; (split; [done|]); (split; [done|]);
    (split; [reflexivity|]); (split; [reflexivity|]);
    simpl app; simpl map;
    (split; [repeat first [apply Forall_nil_2 | apply Forall_cons_2; [reflexivity|]]|]);
    (split; [set_solver|]);
    unfold table_step; cbn; rewrite ?dict_set_twice; split; first [by left | by right].
Qed.

(** C7 (amended). The identifier of a message is its type name with an
    underscore put between every character outside [A-Z] and an [A-Z] that
    directly follows it, in lower case; on names made of letters that is
    the separation at the lowercase to uppercase boundaries.  Every request
    and every notification that compiles names its sender by that
    identifier and its handler stubs, and the dispatch entries it writes,
    by [handle_] followed by it. *)
Theorem message_identifier text :
  to_snake_case text = snake_case_of_code text
  ∧ (letters_only text = true → to_snake_case text = snake_case_as_specified text)
  ∧ (∀ tp g params result_ mc ms,
       req_typeName tp = Some text →
       type_params (req_params tp) = Done params →
       type_ (req_result tp) = Done result_ →
       cls_methods (_client g) = Some mc →
       cls_methods (_server g) = Some ms →
       ∃ g', request tp g = (Done tt, g')
             ∧ compiled_message (snake_case_of_code text) (req_method tp) g g')
  ∧ (∀ tp g params mc ms,
       ntf_typeName tp = Some text →
       type_params (ntf_params tp) = Done params →
       cls_methods (_client g) = Some mc →
       cls_methods (_server g) = Some ms →
       ∃ g', notification tp g = (Done tt, g')
             ∧ compiled_message (snake_case_of_code text) (ntf_method tp) g g').
Proof.
  split; [apply to_snake_case_of_code|].
  split; [apply to_snake_case_letters|].
  rewrite <- to_snake_case_of_code. split.
  - intros. by eapply request_compiled.
  - intros. by eapply notification_compiled.
Qed.

(** ** Structures *)

Lemma structure_parents_default maps self_ store tp :
  store !! self_ = Some tp →
  st_extends tp = None ∨ st_extends tp = Some [] →
  ∀ c store', structure maps self_ store = (Done c, store') →
    cls_parents c = Some ["TypedDict"].
Proof.
  intros Hself Hext c store'. unfold structure. rewrite Hself.
  assert (match st_extends tp with
          | Some (p :: ps) => comprehension type_ (p :: ps)
          | _ => Done ["TypedDict"]
          end = Done ["TypedDict"]) as ->.
  { by destruct Hext as [-> | ->]. }
  destruct (extend_mixins _ _ _ _ _ _) as [[props|e] store1]; [|done].
  destruct (comprehension property props) as [vars|e]; [|done].
  intros [= <- <-]. reflexivity.
Qed.

(** C4 (amended). A structure whose [extends] is absent or empty is
    compiled to a class whose parent list is exactly [["TypedDict"]]; when
    it has no mixins and its properties compile, the class is produced. *)
Theorem structure_without_extends maps self_ store tp :
  store !! self_ = Some tp →
  st_extends tp = None ∨ st_extends tp = Some [] →
  (∀ c store', structure maps self_ store = (Done c, store') →
     cls_parents c = Some ["TypedDict"])
  ∧ (∀ variables,
       st_mixins tp = None ∨ st_mixins tp = Some [] →
       comprehension property (st_properties tp) = Done variables →
       ∃ c, structure maps self_ store = (Done c, store)
            ∧ cls_name c = st_name tp
            ∧ cls_parents c = Some ["TypedDict"]
            ∧ cls_variables c = Some variables).
Proof.
  intros Hself Hext. split.
  - by apply (structure_parents_default maps self_ store tp).
  - intros variables Hmix Hvars. unfold structure. rewrite Hself.
    assert (match st_extends tp with
            | Some (p :: ps) => comprehension type_ (p :: ps)
            | _ => Done ["TypedDict"]
            end = Done ["TypedDict"]) as ->.
    { by destruct Hext as [-> | ->]. }
    assert (default [] (st_mixins tp) = []) as ->.
    { by destruct Hmix as [-> | ->]. }
    cbn. rewrite Hvars. eexists. split; [reflexivity|]. done.
Qed.

(** C4, as stated, fails: the class of a structure without [extends] has a
    parent. *)
Lemma structure_without_extends_not_alone :
  ∃ c store',
    structure ∅ 0 [plain_structure "Position" [] []] = (Done c, store')
    ∧ cls_parents c = Some ["TypedDict"]
    ∧ cls_parents c ≠ Some [] ∧ cls_parents c ≠ None.
Proof. do 2 eexists. split; [reflexivity|]. cbn. by repeat split. Qed.

(** C3 at the failing input: [Middle] was compiled first, which extended
    its property list in place by the properties of [Inner]; compiling
    [Outer] then copies both. *)
Lemma nested_mixins_flattened_twice :
  ∃ g c outer,
    generate (__init__ nested_mixins) = (Done tt, g)
    ∧ compiled_class g "Outer" = Some c
    ∧ variable_names c = ["s"; "m"; "n"]
    ∧ declared nested_mixins "Outer" = Some outer
    ∧ map Property_name (fields_as_specified nested_mixins outer) = ["s"; "m"].
Proof. do 3 eexists. by vm_compute. Qed.

(** C5 at the failing input: [generate] leaves the structures of its input
    changed. *)
Lemma generate_mutates_model :
  ∃ g,
    generate (__init__ nested_mixins) = (Done tt, g)
    ∧ map (λ s, map Property_name (st_properties s)) (structures nested_mixins)
      = [["m"]; ["n"]; ["s"]]
    ∧ map (λ s, map Property_name (st_properties s)) (structures (model g))
      = [["m"; "n"]; ["n"]; ["s"; "m"; "n"]]
    ∧ structures (model g) ≠ structures nested_mixins.
Proof. eexists. split; [by vm_compute|]. by vm_compute. Qed.

(** ** Enumerations *)

(** Reading one escaped character back. *)
Lemma eval_repr_char q c rest :
  q = squote ∨ q = dquote →
  eval_str_body q (repr_char q c +:+ rest) = String c <$> eval_str_body q rest.
Proof.
  intros [-> | ->];
    destruct c as [[] [] [] [] [] [] [] []];
    lazymatch goal with
    | |- eval_str_body ?q (repr_char ?q ?c +:+ ?rest) = _ =>
        let r := eval vm_compute in (repr_char q c) in
        let q' := eval vm_compute in q in
        change (eval_str_body q' (r +:+ rest) = String c <$> eval_str_body q' rest)
    end; simpl; reflexivity.
Qed.

Lemma eval_repr_body q s :
  q = squote ∨ q = dquote → eval_str_body q (repr_body q s) = Some s.
Proof.
  intros Hq. induction s as [|c s IH].
  - simpl. rewrite Ascii.eqb_refl. reflexivity.
  - simpl. rewrite eval_repr_char, IH by done. reflexivity.
Qed.

Lemma repr_quote_cases s : repr_quote s = squote ∨ repr_quote s = dquote.
Proof. unfold repr_quote. destruct (_ && _); auto. Qed.

(** Evaluating the [repr] of a string gives the string. *)
Lemma eval_repr_str s : eval_str_literal (repr_str s) = Some s.
Proof.
  unfold repr_str, eval_str_literal.
  destruct (repr_quote_cases s) as [-> | ->]; simpl;
    apply eval_repr_body; auto.
Qed.

(** Evaluating the [repr] of an integer gives the integer. *)
Lemma eval_repr_int n : eval_int_literal (repr_int n) = Some n.
Proof.
  unfold eval_int_literal, repr_int.
  rewrite NilZero.isi.
  - simpl. by rewrite of_to.
  - destruct n; simpl; try discriminate.
    intros [= H]. by apply Unsigned.to_uint_nonnil in H.
  - destruct n; simpl; try discriminate.
    intros [= H]. by apply Unsigned.to_uint_nonnil in H.
Qed.

(** An integer literal does not start with a quote. *)
Lemma repr_int_not_str n : eval_str_literal (repr_int n) = None.
Proof.
  unfold repr_int, NilZero.string_of_int.
  destruct n as [|p|p]; simpl; [reflexivity| |reflexivity].
  pose proof (Unsigned.to_uint_nonnil p) as Hnil.
  destruct (Pos.to_uint p); simpl; done.
Qed.

Lemma eval_repr_value v : eval_literal (repr_value v) = Some v.
Proof.
  unfold eval_literal, repr_value. destruct v as [s|n].
  - by rewrite eval_repr_str.
  - by rewrite repr_int_not_str, eval_repr_int.
Qed.

(** C8 (amended). The class compiled for an enumeration lists the entries
    in declared order under their names, and carries for each the [repr] of
    its value: a literal that evaluates to exactly that value. *)
Theorem enumeration_entries tp :
  ∃ entries,
    cls_variables (enumeration tp) = Some entries
    ∧ map var_name entries = map ee_name (en_values tp)
    ∧ Forall2 (λ val entry,
                 var_value entry = Some (repr_value (ee_value val))
                 ∧ (var_value entry ≫= eval_literal) = Some (ee_value val))
        (en_values tp) entries.
Proof.
  eexists. split; [reflexivity|]. split.
  - rewrite map_map. reflexivity.
  - induction (en_values tp) as [|val l IH]; constructor; [|exact IH].
    split; [reflexivity|]. simpl. apply eval_repr_value.
Qed.

(** C8, as stated, fails: the entry of value U+001B carries six characters,
    the escaped literal, not the one character of the value. *)
Lemma escape_entry_is_escaped :
  ∃ entry,
    cls_variables (enumeration escape_key) = Some [entry]
    ∧ var_name entry = "Escape"
    ∧ var_value entry
      = Some (String squote (String backslash (String "x" (String "1" (String "b"
               (String squote EmptyString))))))
    ∧ var_value entry ≠ Some (String (chr 27) EmptyString).
Proof. eexists. split; [reflexivity|]. by vm_compute. Qed.
(** ** Default values *)

Module utils_facts.
Import utils utils_shapes.

Lemma hashable_selected a args :
  hashable (UnionOf (a :: args)) = true → hashable a = true.
Proof. simpl. by intros [H _]%andb_prop. Qed.

Lemma get_type_default_eq only_required recursive typ :
  _get_type_default only_required recursive typ
  = if negb (hashable typ) then Raise TypeError
    else
      match is_not_None (atomic_types typ) with
      | Some val => Done val
      | None =>
          match typ with
          | ListOf _ => Done (VList [])
          | DictOf _ => Done (VDict [])
          | UnionOf args =>
              match args with
              | a :: _ => _get_type_default only_required recursive a
              | [] => Raise IndexError
              end
          | LiteralOf args => first args
          | TypedDictClass _ type_hints required_keys =>
              if negb recursive then Done (MissingValue typ)
              else VDict <$> typeddict_data
                               (_get_type_default only_required recursive)
                               type_hints
                               (keys_of only_required type_hints required_keys) []
          | Int => Raise (unable "<class 'int'>")
          | Float => Raise (unable "<class 'float'>")
          | Str => Raise (unable "<class 'str'>")
          | Bool => Raise (unable "<class 'bool'>")
          | NoneType => Raise (unable "<class 'NoneType'>")
          | EnumInstance text _ | OtherType text | Unhashable text =>
              Raise (unable text)
          end
      end.
Proof. by destruct typ. Qed.

Lemma unhashable_raises only_required recursive typ :
  hashable typ = false →
  _get_type_default only_required recursive typ = Raise TypeError.
Proof. intros H. by rewrite get_type_default_eq, H. Qed.

Lemma handled_returns only_required recursive :
  ∀ typ, hashable typ = true → handled typ = true →
    ∃ val, _get_type_default only_required recursive typ = Done val.
Proof.
  fix IH 1. intros typ Hhash. rewrite get_type_default_eq, Hhash.
  unfold handled.
  destruct typ as [ | | | | |args|args|args|args|name hints keys|text it|text|text];
    simpl; try discriminate; try (intros _; eexists; reflexivity).
  - destruct args as [|a args]; [discriminate|].
    apply IH. exact (hashable_selected _ _ Hhash).
  - destruct args as [|v args]; [discriminate|]. intros _. by exists v.
Qed.

Lemma unhandled_raises only_required recursive :
  ∀ typ, hashable typ = true → unhandled typ = true →
    _get_type_default only_required recursive typ
    = Raise (unable (selected_text typ)).
Proof.
  fix IH 1. intros typ Hhash. rewrite get_type_default_eq, Hhash.
  unfold unhandled, selected_text.
  destruct typ as [ | | | | |args|args|args|args|name hints keys|text it|text|text];
    simpl; try discriminate; try (intros _; reflexivity).
  destruct args as [|a args]; [discriminate|].
  apply IH. exact (hashable_selected _ _ Hhash).
Qed.

Lemma inline_record_placeholder only_required :
  ∀ typ, hashable typ = true → inline_record typ = true →
    _get_type_default only_required false typ = Done (MissingValue (selected typ)).
Proof.
  fix IH 1. intros typ Hhash. rewrite get_type_default_eq, Hhash.
  unfold inline_record.
  destruct typ as [ | | | | |args|args|args|args|name hints keys|text it|text|text];
    simpl; try discriminate; try (intros _; reflexivity).
  destruct args as [|a args]; [discriminate|].
  apply IH. exact (hashable_selected _ _ Hhash).
Qed.

(** C9 (amended). For a hint that can be hashed, [_get_type_default]
    returns a default without error for every handled shape (an atomic
    scalar among int, float, str and bool, a list, a dictionary, a
    literal, a union selecting one of these); it raises [ValueError], the
    message naming the object, for a shape it knows nothing about and for a
    union selecting one; and for an inline record, when recursive expansion
    is not requested, it does not raise: it returns a [MissingValue]
    holding the record type.  A hint that cannot be hashed raises
    [TypeError] at the lookup in the table, whatever its shape. *)
Theorem get_type_default_shapes only_required recursive typ :
  (hashable typ = true → handled typ = true →
     ∃ val, _get_type_default only_required recursive typ = Done val)
  ∧ (hashable typ = true → unhandled typ = true →
       _get_type_default only_required recursive typ
       = Raise (ValueError ("unable get default value for " +:+ selected_text typ)))
  ∧ (hashable typ = true → inline_record typ = true → recursive = false →
       _get_type_default only_required recursive typ
       = Done (MissingValue (selected typ)))
  ∧ (hashable typ = false →
       _get_type_default only_required recursive typ = Raise TypeError).
Proof.
  split; [apply handled_returns|]. split; [apply unhandled_raises|].
  split; [|apply unhashable_raises].
  intros Hhash H ->. by apply inline_record_placeholder.
Qed.

(** C9, as stated, fails: a field that is an inline record, recursive
    expansion not requested, is no error; its default is a placeholder. *)
Lemma inline_record_is_not_fatal :
  _get_type_default false false Position = Done (MissingValue Position)
  ∧ get_default_value Location_hints ["uri"; "start"] false false
    = Done (VDict [("uri", VStr EmptyString); ("start", MissingValue Position)])
  ∧ ∀ e, _get_type_default false false Position ≠ Raise e.
Proof. split; [reflexivity|]. split; [reflexivity|]. discriminate. Qed.

(** The entry of the table for [None] is never returned: its value is
    shadowed by the test on the answer of [get]. *)
Lemma none_type_raises only_required recursive :
  _get_type_default only_required recursive NoneType
  = Raise (unable "<class 'NoneType'>")
  ∧ _get_type_default only_required recursive (UnionOf [NoneType; Str])
    = Raise (unable "<class 'NoneType'>").
Proof. split; reflexivity. Qed.

(** A literal of a list is a handled shape that cannot be hashed. *)
Lemma list_literal_raises only_required recursive :
  handled list_literal = true
  ∧ _get_type_default only_required recursive list_literal = Raise TypeError.
Proof. split; reflexivity. Qed.
End utils_facts.

(** ** The generator's life cycle *)

Section preserves.
Context {S : Type} (I : S → Prop).

Lemma preserves_ret {A} (a : A) : preserves I (py_ret a).
Proof. by intros σ. Qed.

Lemma preserves_lift {A} (r : result A) : preserves I (py_lift r).
Proof. by intros σ. Qed.

Lemma preserves_get : preserves I py_get.
Proof. by intros σ. Qed.

Lemma preserves_bind {A B} (m : Py S A) (k : A → Py S B) :
  preserves I m → (∀ a, preserves I (k a)) → preserves I (m ≫= k).
Proof.
  intros Hm Hk σ Hσ. unfold mbind, py_mbind, py_bind.
  specialize (Hm σ Hσ). destruct (m σ) as [[a|e] σ']; simpl in *; [|done].
  by apply Hk.
Qed.

Lemma preserves_when (b : bool) (m : Py S unit) :
  preserves I m → preserves I (py_when b m).
Proof. destruct b; [done|]. intros _. apply preserves_ret. Qed.

Lemma preserves_for {A} (l : list A) (body : A → Py S unit) :
  (∀ x, preserves I (body x)) → preserves I (py_for l body).
Proof.
  intros Hbody. induction l as [|x l IH]; simpl; [apply preserves_ret|].
  intros σ Hσ. unfold py_bind.
  specialize (Hbody x σ Hσ). destruct (body x σ) as [[a|e] σ']; simpl in *; [|done].
  by apply IH.
Qed.

Lemma preserves_modify (f : S → S) :
  (∀ σ, I σ → I (f σ)) → preserves I (py_modify f).
Proof. intros Hf σ Hσ. by apply Hf. Qed.
End preserves.


















Lemma py_for_cons {S A} (x : A) l (body : A → Py S unit) σ :
  py_for (x :: l) body σ =
  match body x σ with
  | (Done _, σ') => py_for l body σ'
  | (Raise e, σ') => (Raise e, σ')
  end.
Proof. reflexivity. Qed.








(** ** Imports *)

(** C2 at the failing input: the server's handler stub takes a parameter of
    the defined type [T], an identifier of its annotation; the scanner,
    asking for two characters at least, does not see it, and the import
    list of the server lacks it. *)
Lemma single_letter_import_missing :
  ∃ g code g' stub,
    generate (__init__ single_letter) = (Done tt, g)
    ∧ server_code g = (Done code, g')
    ∧ ImportCode {| fi_module := ".lsprotocol"; fi_names := [] |} ∈ code
    ∧ "T" ∈ map name_of (_types g)
    ∧ cls_methods (_server g) = Some [stub]
    ∧ "T" ∈ method_annotations stub
    ∧ identifiers "T" = ["T"]
    ∧ findall "T" = [].
Proof.
  do 4 eexists. split; [by vm_compute|]. split; [by vm_compute|].
  split; [set_solver|]. split; [vm_compute; set_solver|].
  split; [by vm_compute|]. split; [vm_compute; set_solver|]. by vm_compute.
Qed.

(** ** Ordering *)

Lemma py_for_app {S A} (l1 l2 : list A) (body : A → Py S unit) σ :
  py_for (l1 ++ l2) body σ =
  match py_for l1 body σ with
  | (Done _, σ') => py_for l2 body σ'
  | (Raise e, σ') => (Raise e, σ')
  end.
Proof.
  revert σ. induction l1 as [|x l1 IH]; intros σ; [done|].
  rewrite <- app_comm_cons, !py_for_cons.
  destruct (body x σ) as [[[]|e] σ']; [apply IH|done].
Qed.

(** The loop over the variables of a class visits the identifiers of their
    annotations, one after the other. *)
Lemma visit_variables_tokens name_map define vars st :
  py_for vars (visit_variable name_map define) st =
  py_for (concat (map findall (omap (λ v, truthy (var_annotation v)) vars)))
    (visit_token name_map define) st.
Proof.
  revert st. induction vars as [|v vars IH]; intros st; [done|].
  rewrite py_for_cons. unfold visit_variable at 1. simpl omap.
  destruct (truthy (var_annotation v)) as [a|]; simpl.
  - rewrite py_for_app.
    destruct (py_for (findall a) _ st) as [[[]|e] st']; [apply IH|done].
  - apply IH.
Qed.

(** *** The dictionary of the names *)

Lemma name_map_of_snoc l x :
  name_map_of (l ++ [x]) = <[name_of x := x]> (name_map_of l).
Proof. unfold name_map_of. by rewrite foldl_app. Qed.

Lemma name_map_of_lookup names k o :
  NoDup (name_of <$> names) →
  name_map_of names !! k = Some o ↔ o ∈ names ∧ name_of o = k.
Proof.
  induction names as [|x l IH] using rev_ind; intros Hnodup.
  - unfold name_map_of. simpl. rewrite lookup_empty. set_solver.
  - rewrite fmap_app in Hnodup. apply NoDup_app in Hnodup as (Hl & Hx & _).
    rewrite name_map_of_snoc.
    destruct (decide (name_of x = k)) as [<-|Hne].
    + rewrite lookup_insert_eq. split.
      * intros [= <-]. split; [set_solver|done].
      * intros [Ho Hname]. f_equal.
        apply elem_of_app in Ho as [Ho|Ho]; [|set_solver].
        exfalso. apply (Hx (name_of x)); [|set_solver].
        rewrite <- Hname. apply list_elem_of_fmap. by exists o.
    + rewrite lookup_insert_ne by done. rewrite IH by done.
      split; intros [Ho Hname]; (split; [|done]); [set_solver|].
      apply elem_of_app in Ho as [Ho|Ho]; [done|].
      apply list_elem_of_singleton in Ho. congruence.
Qed.

Lemma name_of_inj names o o' :
  NoDup (name_of <$> names) → o ∈ names → o' ∈ names →
  name_of o' = name_of o → o' = o.
Proof.
  intros Hnodup Ho Ho' Hname.
  pose proof (proj2 (name_map_of_lookup names (name_of o) o Hnodup)
                (conj Ho eq_refl)) as H1.
  pose proof (proj2 (name_map_of_lookup names (name_of o) o' Hnodup)
                (conj Ho' Hname)) as H2.
  congruence.
Qed.

(** *** First occurrences *)

Lemma filter_all (P : string → Prop) `{∀ x, Decision (P x)} (l : list string) :
  (∀ x, x ∈ l → P x) → filter P l = l.
Proof.
  induction l as [|a l IH]; intros Hall; [done|].
  rewrite filter_cons_True by (apply Hall; left). f_equal.
  apply IH. intros x Hx. apply Hall. by right.
Qed.

Lemma first_occurrences_elem x l : x ∈ first_occurrences l ↔ x ∈ l.
Proof.
  induction l as [|a l IH]; [done|]. simpl.
  rewrite !elem_of_cons, list_elem_of_filter, IH.
  destruct (decide (x = a)); naive_solver.
Qed.

Lemma first_occurrences_NoDup l : NoDup (first_occurrences l).
Proof.
  induction l as [|a l IH]; simpl; constructor.
  - rewrite list_elem_of_filter. naive_solver.
  - by apply NoDup_filter.
Qed.

(** What stands before the first occurrence of [y] stands before [y] among
    the first occurrences. *)
Lemma first_occurrences_precedes pre y post x :
  y ∉ pre → x ∈ pre → precedes x y (first_occurrences (pre ++ y :: post)).
Proof.
  induction pre as [|a pre IH]; intros Hy Hx; [by apply elem_of_nil in Hx|].
  apply not_elem_of_cons in Hy as [Hya Hy].
  simpl. destruct (decide (x = a)) as [->|Hxa].
  - assert (y ∈ filter (λ z, z ≠ a) (first_occurrences (pre ++ y :: post))) as Hin.
    { apply list_elem_of_filter. split; [done|].
      apply first_occurrences_elem. set_solver. }
    apply list_elem_of_split in Hin as (l2 & l3 & ->).
    by exists [], l2, l3.
  - apply elem_of_cons in Hx as [?|Hx]; [done|].
    destruct (IH Hy Hx) as (l1 & l2 & l3 & ->).
    exists (a :: filter (λ z, z ≠ a) l1), (filter (λ z, z ≠ a) l2),
      (filter (λ z, z ≠ a) l3).
    rewrite filter_app, filter_cons_True by done.
    rewrite filter_app, filter_cons_True by done. done.
Qed.

Lemma first_index (x : string) l :
  x ∈ l → ∃ i, l !! i = Some x ∧ x ∉ take i l.
Proof.
  induction l as [|a l IH]; intros Hx; [by apply elem_of_nil in Hx|].
  destruct (decide (x = a)) as [->|Hne].
  - exists 0. split; [done|]. simpl. apply not_elem_of_nil.
  - apply elem_of_cons in Hx as [?|Hx]; [done|].
    destruct (IH Hx) as (i & Hi & Hnot). exists (S i). split; [done|].
    simpl. by apply not_elem_of_cons.
Qed.

(** The second loop of [ordered_names] keeps the first occurrences. *)
Lemma collect_ordered_names name_map defined l :
  (∀ x, x ∈ l → ∃ o, name_map !! x = Some o ∧ name_of o = x) →
  ∃ out,
    collect_ordered name_map defined l = Done out
    ∧ (name_of <$> out) = filter (λ x, x ∉ defined) (first_occurrences l)
    ∧ Forall (λ o, name_map !! name_of o = Some o) out.
Proof.
  revert defined. induction l as [|x l IH]; intros defined Hl.
  - exists []. by repeat split.
  - simpl. case_bool_decide as Hdef.
    + destruct (IH defined) as (out & -> & Hout & Hall); [set_solver|].
      exists out. split; [done|]. split; [|done].
      rewrite filter_cons_False by naive_solver.
      rewrite Hout, list_filter_filter. apply list_filter_iff.
      intros y. naive_solver.
    + destruct (Hl x) as (o & Ho & Hname); [set_solver|]. rewrite Ho.
      destruct (IH ({[x]} ∪ defined)) as (out & -> & Hout & Hall); [set_solver|].
      exists (o :: out). split; [done|]. split.
      * rewrite filter_cons_True by done. rewrite fmap_cons, Hname. f_equal.
        rewrite Hout, list_filter_filter. apply list_filter_iff.
        intros y. set_solver.
      * constructor; [by rewrite Hname|done].
Qed.

(** *** The references of a definition *)

Lemma references_class c parents variables :
  cls_parents c = Some parents → cls_variables c = Some variables →
  references (ClassName c)
  = parents ++ concat (map findall (omap (λ v, truthy (var_annotation v)) variables)).
Proof.
  intros Hps Hvs. unfold references, references_with, annotations_of.
  by rewrite Hps, Hvs.
Qed.

Lemma references_alias v value :
  var_annotation v = Some "TypeAlias" → var_value v = Some value →
  references (VariableName v) = findall value.
Proof.
  intros Hann Hval. unfold references, references_with.
  by rewrite bool_decide_eq_true_2, Hval.
Qed.

Lemma references_plain v :
  var_annotation v ≠ Some "TypeAlias" → references (VariableName v) = [].
Proof.
  intros Hann. unfold references, references_with.
  by rewrite bool_decide_eq_false_2.
Qed.

Lemma references_split n : references n = parents_of n ++ tokens_of n.
Proof.
  unfold references, references_with. destruct n as [c|v]; simpl; [done|].
  by case_bool_decide.
Qed.

(** A call that is not refused, on a definition that can be iterated
    over: the loop over the parents, the loop over the identifiers, the
    name. *)
Lemma define_name_S name_map depth o st :
  well_formed o →
  define_name name_map (S depth) o st
  = match py_for (parents_of o)
            (visit_parent name_map (define_name name_map depth)) st with
    | (Done _, st1) =>
        match py_for (tokens_of o)
                (visit_token name_map (define_name name_map depth)) st1 with
        | (Done _, st2) => (Done tt, st2 ++ [name_of o])
        | (Raise e, st2) => (Raise e, st2)
        end
    | (Raise e, st1) => (Raise e, st1)
    end.
Proof.
  intros Hwf. destruct o as [c|v]; simpl in Hwf |- *;
    unfold mbind, py_mbind, py_bind, iterable, py_ret, py_modify.
  - destruct Hwf as [[parents Hps] [variables Hvs]]. rewrite Hps. simpl.
    destruct (py_for parents _ st) as [[[]|e] st1]; [|done].
    rewrite Hvs, visit_variables_tokens. unfold annotations_of. rewrite Hvs. simpl.
    by destruct (py_for _ _ st1) as [[[]|e] st2].
  - case_bool_decide as Hann.
    + destruct (Hwf Hann) as [value Hval]. rewrite Hval. simpl.
      by destruct (py_for _ _ st) as [[[]|e] st2].
    + done.
Qed.

Lemma reference_placed_snoc D R st x :
  reference_placed D R st → (x = D → R ∈ st) →
  reference_placed D R (st ++ [x]).
Proof.
  intros Hst Hx i Hi. destruct (decide (i < length st)) as [Hlt|Hge].
  - rewrite lookup_app_l in Hi by done. rewrite take_app_le by lia. by apply Hst.
  - rewrite lookup_app_r in Hi by lia.
    apply list_lookup_singleton_Some in Hi as [Hi <-].
    assert (i = length st) as -> by lia.
    rewrite take_app_length. by apply Hx.
Qed.

Lemma deep_mono names limit D d x st ext :
  deep names limit D d x st → deep names limit D d x (st ++ ext).
Proof.
  intros [[Hne Hin]|H]; [left|by right]. split; [done|].
  apply elem_of_app. by left.
Qed.

Lemma upto_subseteq y l x : x ∈ upto y l → x ∈ l.
Proof.
  induction l as [|a l IH]; [done|]. simpl. case_decide.
  - intros ->%list_elem_of_singleton. left.
  - intros [->|Hx]%elem_of_cons; [left|right; by apply IH].
Qed.

Lemma upto_app y l1 l2 : y ∉ l1 → upto y (l1 ++ y :: l2) = l1 ++ [y].
Proof.
  induction l1 as [|a l1 IH]; intros Hy; simpl.
  - by rewrite decide_True.
  - apply not_elem_of_cons in Hy as [Hne Hy].
    rewrite decide_False by done. by rewrite IH.
Qed.

(** *** The depth-first placement *)

Section placement.
Variable names : list Name.
Variable prank : string → nat.
Variable limit : nat.
Variables D R : string.
Hypothesis names_NoDup : NoDup (name_of <$> names).
Hypothesis names_well_formed : Forall well_formed names.
Hypothesis names_ranked : parents_ranked prank limit names.

Lemma lookup_declared x :
  x ∈ (name_of <$> names) → ∃ o, name_map_of names !! x = Some o.
Proof.
  intros (o & -> & Ho)%list_elem_of_fmap. exists o.
  by apply name_map_of_lookup.
Qed.

Lemma parent_rank o P :
  o ∈ names → P ∈ parents_of o → P ∈ (name_of <$> names) →
  prank P < prank (name_of o).
Proof.
  intros Ho HP Hdecl.
  pose proof (proj1 (Forall_forall _ _) names_ranked o Ho) as [_ Hps].
  by apply (proj1 (Forall_forall _ _) Hps P HP).
Qed.

Lemma rank_limit o : o ∈ names → prank (name_of o) < limit.
Proof.
  intros Ho. by pose proof (proj1 (Forall_forall _ _) names_ranked o Ho) as [? _].
Qed.

Lemma parents_placed_snoc st o :
  o ∈ names → parents_placed names st →
  (∀ P, P ∈ parents_of o → P ∈ (name_of <$> names) → P ∈ st) →
  parents_placed names (st ++ [name_of o]).
Proof.
  intros Ho Hst Hps i x o' P Hi Hmap HP Hdecl.
  destruct (decide (i < length st)) as [Hlt|Hge].
  - rewrite lookup_app_l in Hi by done.
    rewrite take_app_le by lia. by eapply Hst.
  - rewrite lookup_app_r in Hi by lia.
    apply list_lookup_singleton_Some in Hi as [Hi <-].
    assert (i = length st) as -> by lia.
    rewrite take_app_length.
    apply name_map_of_lookup in Hmap as [Ho' Hname]; [|done].
    assert (o' = o) as ->; [|by apply Hps].
    by apply (name_of_inj names).
Qed.

(** The call for a reference of a definition is deep enough when the call
    for the definition is. *)
Lemma deep_reference d o p st :
  o ∈ names → p ∈ references o → p ∈ (name_of <$> names) → p ∉ st →
  deep names limit D (S d) (name_of o) st → deep names limit D d p st.
Proof.
  intros Ho Hp Hdecl Hnew [[Hne Hin]|(N & n & Hearly & Hreach & Hn)].
  - left. split; [|done]. by intros ->.
  - right. exists N, (S n). split; [done|]. split; [|lia].
    apply (reaches_in_S _ _ _ (name_of o)); [done|]. by exists o.
Qed.

(** One turn of the loop over the parents. *)
Lemma visit_parent_defines d define o p st :
  defines names prank limit D R d define →
  o ∈ names → p ∈ parents_of o → parents_placed names st →
  ∃ r ext,
    visit_parent (name_map_of names) define p st = (r, st ++ ext)
    ∧ parents_placed names (st ++ ext)
    ∧ Forall (referenced names) ext
    ∧ match r with
      | Done _ => p ∈ (name_of <$> names) → p ∈ st ++ ext
      | Raise e => e = RecursionError ∧ (S d ≤ prank (name_of o))%nat
      end
    ∧ (target names prank limit D R → deep names limit D (S d) (name_of o) st →
       reference_placed D R st → reference_placed D R (st ++ ext)).
Proof.
  intros Hdef Ho Hp Hst. unfold visit_parent.
  case_bool_decide as Hin.
  { exists (Done tt), []. rewrite app_nil_r. by repeat split. }
  destruct (name_map_of names !! p) as [P|] eqn:Hmap.
  - pose proof Hmap as [HP Hname]%name_map_of_lookup; [|done]. subst p.
    assert (name_of P ∈ (name_of <$> names)) as Hdecl.
    { apply list_elem_of_fmap. by exists P. }
    assert (name_of P ∈ references o) as Href.
    { rewrite references_split. apply elem_of_app. by left. }
    destruct (Hdef P st HP Hst) as (r & ext & -> & Hplaced & Hr & Hkeep).
    exists r, ext. split; [done|]. split; [done|].
    assert (referenced names (name_of P)) as Hrefd by (split; [done|by exists o]).
    split; [|split].
    + destruct r as [[]|e].
      * destruct Hr as (ext' & -> & Hext'). apply Forall_app. split; [done|].
        by constructor.
      * by destruct Hr as (_ & _ & Hext).
    + destruct r as [[]|e].
      * destruct Hr as (ext' & -> & _). intros _. set_solver.
      * destruct Hr as (-> & Hd & _). split; [done|].
        pose proof (parent_rank o (name_of P) Ho Hp Hdecl). lia.
    + intros Htarget Hdeep Hrp. apply Hkeep; [done| |done].
      by apply (deep_reference d o).
  - exists (Done tt), []. rewrite app_nil_r. repeat split; try done.
    intros [o' Ho']%lookup_declared. congruence.
Qed.

(** One turn of the loops over the identifiers. *)
Lemma visit_token_defines d define o t st :
  defines names prank limit D R d define →
  o ∈ names → t ∈ tokens_of o → parents_placed names st →
  ∃ ext,
    visit_token (name_map_of names) define t st = (Done tt, st ++ ext)
    ∧ parents_placed names (st ++ ext)
    ∧ Forall (referenced names) ext
    ∧ (prank t < d → t ∈ (name_of <$> names) → t ∈ st ++ ext)
    ∧ (target names prank limit D R → deep names limit D (S d) (name_of o) st →
       reference_placed D R st → reference_placed D R (st ++ ext)).
Proof.
  intros Hdef Ho Ht Hst. unfold visit_token.
  case_bool_decide as Hin.
  { exists []. rewrite app_nil_r. by repeat split. }
  destruct (name_map_of names !! t) as [T|] eqn:Hmap.
  - pose proof Hmap as [HT Hname]%name_map_of_lookup; [|done]. subst t.
    assert (name_of T ∈ (name_of <$> names)) as Hdecl.
    { apply list_elem_of_fmap. by exists T. }
    assert (name_of T ∈ references o) as Href.
    { rewrite references_split. apply elem_of_app. by right. }
    destruct (Hdef T st HT Hst) as (r & ext & -> & Hplaced & Hr & Hkeep).
    exists ext.
    assert (referenced names (name_of T)) as Hrefd by (split; [done|by exists o]).
    split; [|split; [done|split; [|split]]].
    + destruct r as [[]|e]; [done|]. by destruct Hr as (-> & _).
    + destruct r as [[]|e].
      * destruct Hr as (ext' & -> & Hext'). apply Forall_app. split; [done|].
        by constructor.
      * by destruct Hr as (_ & _ & Hext).
    + intros Hrank _. destruct r as [[]|e].
      * destruct Hr as (ext' & -> & _). set_solver.
      * destruct Hr as (_ & Hd & _). lia.
    + intros Htarget Hdeep Hrp. apply Hkeep; [done| |done].
      by apply (deep_reference d o).
  - exists []. rewrite app_nil_r. repeat split; try done.
    intros _ [o' Ho']%lookup_declared. congruence.
Qed.

Lemma visit_parents_define d define o ps st :
  defines names prank limit D R d define →
  o ∈ names → (∀ p, p ∈ ps → p ∈ parents_of o) → parents_placed names st →
  ∃ r ext,
    py_for ps (visit_parent (name_map_of names) define) st = (r, st ++ ext)
    ∧ parents_placed names (st ++ ext)
    ∧ Forall (referenced names) ext
    ∧ match r with
      | Done _ => ∀ p, p ∈ ps → p ∈ (name_of <$> names) → p ∈ st ++ ext
      | Raise e => e = RecursionError ∧ (S d ≤ prank (name_of o))%nat
      end
    ∧ (target names prank limit D R → deep names limit D (S d) (name_of o) st →
       reference_placed D R st → reference_placed D R (st ++ ext)).
Proof.
  intros Hdef Ho. revert st.
  induction ps as [|p ps IH]; intros st Hps Hst.
  { exists (Done tt), []. rewrite app_nil_r. repeat split; try done. set_solver. }
  destruct (visit_parent_defines d define o p st)
    as (r1 & ext1 & Hrun1 & Hplaced1 & Hext1 & Hr1 & Hkeep1);
    [done|done|set_solver|done|].
  rewrite py_for_cons, Hrun1. destruct r1 as [[]|e].
  - destruct (IH (st ++ ext1)) as (r2 & ext2 & Hrun2 & Hplaced2 & Hext2 & Hr2 & Hkeep2);
      [set_solver|done|].
    exists r2, (ext1 ++ ext2). rewrite Hrun2, <- ?app_assoc in *.
    split; [done|]. split; [done|]. split; [by apply Forall_app|]. split.
    + destruct r2 as [[]|e]; [|done].
      intros q [->|Hq]%elem_of_cons Hdecl; [|by apply Hr2].
      specialize (Hr1 Hdecl). set_solver.
    + intros Htarget Hdeep Hrp. apply Hkeep2; [done|by apply deep_mono|].
      by apply Hkeep1.
  - exists (Raise e), ext1. destruct Hr1 as [-> Hd]. by repeat split.
Qed.

Lemma visit_tokens_define d define o ts st :
  defines names prank limit D R d define →
  o ∈ names → (∀ t, t ∈ ts → t ∈ tokens_of o) → parents_placed names st →
  ∃ ext,
    py_for ts (visit_token (name_map_of names) define) st = (Done tt, st ++ ext)
    ∧ parents_placed names (st ++ ext)
    ∧ Forall (referenced names) ext
    ∧ (∀ t, t ∈ ts → prank t < d → t ∈ (name_of <$> names) → t ∈ st ++ ext)
    ∧ (target names prank limit D R → deep names limit D (S d) (name_of o) st →
       reference_placed D R st → reference_placed D R (st ++ ext)).
Proof.
  intros Hdef Ho. revert st.
  induction ts as [|t ts IH]; intros st Hts Hst.
  { exists []. rewrite app_nil_r. repeat split; try done. set_solver. }
  destruct (visit_token_defines d define o t st)
    as (ext1 & Hrun1 & Hplaced1 & Hext1 & Hin1 & Hkeep1);
    [done|done|set_solver|done|].
  destruct (IH (st ++ ext1)) as (ext2 & Hrun2 & Hplaced2 & Hext2 & Hin2 & Hkeep2);
    [set_solver|done|].
  exists (ext1 ++ ext2). rewrite py_for_cons, Hrun1, Hrun2, <- ?app_assoc in *.
  split; [done|]. split; [done|]. split; [by apply Forall_app|]. split.
  - intros q [->|Hq]%elem_of_cons Hrank Hdecl; [|by apply Hin2].
    specialize (Hin1 Hrank Hdecl). set_solver.
  - intros Htarget Hdeep Hrp. apply Hkeep2; [done|by apply deep_mono|].
    by apply Hkeep1.
Qed.

(** What [define_name] does, at every depth. *)
Lemma define_name_defines d :
  defines names prank limit D R d (define_name (name_map_of names) d).
Proof.
  induction d as [|d IH]; intros o st Ho Hst.
  { exists (Raise RecursionError), []. rewrite app_nil_r. simpl.
    repeat split; try done. lia. }
  pose proof (proj1 (Forall_forall _ _) names_well_formed o Ho) as Hwf.
  rewrite (define_name_S _ _ _ _ Hwf).
  destruct (visit_parents_define d _ o (parents_of o) st IH)
    as (r1 & ext1 & -> & Hplaced1 & Hext1 & Hr1 & Hkeep1); [done..|].
  destruct r1 as [[]|e].
  2:{ exists (Raise e), ext1. destruct Hr1 as [-> Hd]. by repeat split. }
  destruct (visit_tokens_define d _ o (tokens_of o) (st ++ ext1) IH)
    as (ext2 & -> & Hplaced2 & Hext2 & Hin2 & Hkeep2); [done..|].
  exists (Done tt), (ext1 ++ ext2 ++ [name_of o]).
  rewrite <- ?app_assoc in *. split; [done|]. split; [|split].
  - rewrite !app_assoc. apply parents_placed_snoc; [done| |].
    + by rewrite <- app_assoc.
    + intros P HP Hdecl. apply elem_of_app. left. by apply Hr1.
  - exists (ext1 ++ ext2). rewrite <- app_assoc. split; [done|].
    by apply Forall_app.
  - intros Htarget Hdeep Hrp. rewrite !app_assoc.
    apply reference_placed_snoc.
    + rewrite <- app_assoc. apply Hkeep2; [done|by apply deep_mono|].
      by apply Hkeep1.
    + intros HD.
      destruct Htarget as (Hdecl & (o' & Ho' & Hname & Href) & Hwithin).
      assert (o' = o) as -> by (apply (name_of_inj names); congruence).
      rewrite references_split in Href. rewrite <- app_assoc.
      apply elem_of_app in Href as [HR|HR].
      * rewrite app_assoc. apply elem_of_app. left. by apply Hr1.
      * apply Hin2; [done| |done].
        destruct Hdeep as [[Hne _]|(N & n & Hearly & Hreach & Hn)]; [done|].
        rewrite HD in Hreach. specialize (Hwithin N n Hearly Hreach). lia.
Qed.

(** The first loop of [ordered_names] over a part of the names. *)
Lemma defining_loop l st :
  (∀ o, o ∈ l → o ∈ names) → parents_placed names st →
  ∃ ext,
    py_for l (define_name (name_map_of names) limit) st = (Done tt, st ++ ext)
    ∧ parents_placed names (st ++ ext)
    ∧ (∀ o, o ∈ l → name_of o ∈ st ++ ext)
    ∧ Forall (λ x, referenced names x ∨ x ∈ (name_of <$> l)) ext
    ∧ (target names prank limit D R →
       (∀ o, o ∈ l → deep names limit D limit (name_of o) st) →
       reference_placed D R st → reference_placed D R (st ++ ext)).
Proof.
  revert st. induction l as [|o l IH]; intros st Hl Hst.
  { exists []. rewrite app_nil_r. repeat split; try done. set_solver. }
  destruct (define_name_defines limit o st) as (r & ext1 & Hrun1 & Hplaced1 & Hr & Hkeep1);
    [set_solver|done|].
  destruct r as [[]|e].
  2:{ destruct Hr as (_ & Hd & _).
      pose proof (rank_limit o (Hl o (list_elem_of_here _ _))). lia. }
  destruct Hr as (ext' & -> & Hext').
  destruct (IH (st ++ ext' ++ [name_of o]))
    as (ext2 & Hrun2 & Hplaced2 & Hin2 & Hext2 & Hkeep2); [set_solver|done|].
  exists ((ext' ++ [name_of o]) ++ ext2).
  rewrite py_for_cons, Hrun1, Hrun2. rewrite <- ?app_assoc in *.
  split; [done|]. split; [done|]. split; [|split].
  - intros o' [->|Ho']%elem_of_cons; [set_solver|by apply Hin2].
  - rewrite !Forall_app. repeat split.
    + eapply Forall_impl; [exact Hext'|]. naive_solver.
    + constructor; [|done]. right. set_solver.
    + eapply Forall_impl; [exact Hext2|]. intros x [?|?]; [by left|].
      right. set_solver.
  - intros Htarget Hdeep Hrp. apply Hkeep2; [done| |].
    + intros o' Ho'. apply deep_mono. apply Hdeep. by right.
    + apply Hkeep1; [done|apply Hdeep; left|done].
Qed.

Lemma parents_placed_nil : parents_placed names [].
Proof. intros i x o P Hi. by rewrite lookup_nil in Hi. Qed.

Lemma referenced_declared x : referenced names x → x ∈ (name_of <$> names).
Proof. by intros [? _]. Qed.

(** The defined names after the first loop. *)
Lemma defined_names_run :
  ∃ st,
    py_for names (define_name (name_map_of names) limit) [] = (Done tt, st)
    ∧ parents_placed names st
    ∧ (∀ x, x ∈ st ↔ x ∈ (name_of <$> names)).
Proof.
  destruct (defining_loop names []) as (st & Hrun & Hplaced & Hin & Hext & _);
    [done|apply parents_placed_nil|].
  exists st. simpl in *. split; [done|]. split; [done|].
  intros x. split.
  - intros Hx. pose proof (proj1 (Forall_forall _ _) Hext x Hx) as [?|?];
      [by apply referenced_declared|done].
  - intros (o & -> & Ho)%list_elem_of_fmap. by apply Hin.
Qed.

(** The names split at a declared one. *)
Lemma names_split y :
  y ∈ (name_of <$> names) →
  ∃ A Y B, names = A ++ Y :: B ∧ name_of Y = y
           ∧ (y ∉ (name_of <$> A)) ∧ (y ∉ (name_of <$> B)).
Proof.
  intros (Y & -> & HY)%list_elem_of_fmap.
  apply list_elem_of_split in HY as (A & B & Hnames).
  exists A, Y, B. split; [done|]. split; [done|].
  pose proof names_NoDup as Hnodup.
  rewrite Hnames, fmap_app, fmap_cons in Hnodup.
  apply NoDup_app in Hnodup as (_ & Hdisj & [HB _]%NoDup_cons).
  split; [|done]. intros Hin. apply (Hdisj _ Hin). left.
Qed.

(** After the first loop, a reference within depth stands before every
    occurrence of the definition. *)
Lemma run_reference_placed st :
  target names prank limit D R →
  py_for names (define_name (name_map_of names) limit) [] = (Done tt, st) →
  reference_placed D R st.
Proof.
  intros Htarget Hrun.
  pose proof Htarget as (_ & (o & Ho & HoD & _) & _).
  destruct (names_split D) as (A & Y & B & Hnames & HY & HA & HB).
  { apply list_elem_of_fmap. by exists o. }
  assert (py_for ((A ++ [Y]) ++ B) (define_name (name_map_of names) limit) []
          = (Done tt, st)) as Hrun'.
  { rewrite <- app_assoc. simpl. by rewrite <- Hnames. }
  clear Hrun. rewrite py_for_app in Hrun'.
  destruct (defining_loop (A ++ [Y]) [])
    as (s1 & Hrun1 & Hplaced1 & Hin1 & _ & Hkeep1);
    [rewrite Hnames; set_solver|apply parents_placed_nil|].
  simpl in Hrun1, Hplaced1, Hin1, Hkeep1. rewrite Hrun1 in Hrun'.
  destruct (defining_loop B s1) as (s2 & Hrun2 & _ & _ & _ & Hkeep2);
    [rewrite Hnames; set_solver|done|].
  rewrite Hrun2 in Hrun'. injection Hrun' as <-.
  apply Hkeep2; [done| |].
  - intros o' Ho'. left. split.
    + intros Hname. apply HB. rewrite <- Hname. apply list_elem_of_fmap. by exists o'.
    + rewrite <- HY. apply Hin1. set_solver.
  - apply Hkeep1; [done| |by intros i Hi; rewrite lookup_nil in Hi].
    intros o' Ho'. right. exists (name_of o'), 0.
    split; [|split; [constructor|lia]].
    unfold no_later. rewrite Hnames, fmap_app, fmap_cons, HY, upto_app by done.
    rewrite <- HY. change [name_of Y] with (name_of <$> [Y]).
    rewrite <- fmap_app. by apply list_elem_of_fmap_2.
Qed.

(** A name that no definition references is first defined by the turn of
    the first loop taken for it. *)
Lemma unreferenced_after st x y :
  py_for names (define_name (name_map_of names) limit) [] = (Done tt, st) →
  precedes x y (name_of <$> names) → (¬ referenced names y) →
  ∃ pre post, st = pre ++ y :: post ∧ (y ∉ pre) ∧ x ∈ pre.
Proof.
  intros Hrun (l1 & l2 & l3 & Hsplit) Hy.
  assert (∃ A Y B, names = A ++ Y :: B ∧ name_of Y = y ∧ x ∈ (name_of <$> A)
                   ∧ y ∉ (name_of <$> A)) as (A & Y & B & Hnames & HY & HxA & HyA).
  { pose proof names_NoDup as Hnodup. rewrite Hsplit in Hnodup.
    rewrite app_comm_cons, app_assoc in Hsplit.
    apply fmap_app_inv in Hsplit as (A & YB & HA & HYB & ->).
    symmetry in HYB. apply fmap_cons_inv in HYB as (Y & B & HY & HB & ->).
    exists A, Y, B. split; [done|]. split; [done|]. rewrite <- HA.
    split; [apply elem_of_app; right; left|].
    rewrite app_comm_cons, app_assoc in Hnodup.
    apply NoDup_app in Hnodup as (_ & Hdisj & _).
    intros Hin. apply (Hdisj y Hin). left. }
  assert (py_for (A ++ Y :: B) (define_name (name_map_of names) limit) []
          = (Done tt, st)) as Hrun' by (by rewrite <- Hnames).
  clear Hrun. rename Hrun' into Hrun. rewrite py_for_app in Hrun.
  destruct (defining_loop A []) as (s1 & Hrun1 & Hplaced1 & Hin1 & Hext1 & _);
    [rewrite Hnames; set_solver|apply parents_placed_nil|].
  simpl in Hrun1, Hplaced1, Hin1. rewrite Hrun1, py_for_cons in Hrun.
  destruct (define_name_defines limit Y s1) as (r & ext & HrunY & HplacedY & Hr & _);
    [rewrite Hnames; set_solver|done|].
  rewrite HrunY in Hrun. destruct r as [[]|e]; [|discriminate].
  destruct Hr as (ext' & -> & Hext').
  destruct (defining_loop B (s1 ++ ext' ++ [name_of Y]))
    as (s3 & Hrun3 & _); [rewrite Hnames; set_solver|done|].
  rewrite Hrun3 in Hrun. injection Hrun as <-.
  exists (s1 ++ ext'), s3. rewrite HY, <- !app_assoc. split; [done|]. split.
  - intros [Hin|Hin]%elem_of_app.
    + pose proof (proj1 (Forall_forall _ _) Hext1 y Hin) as [?|?]; done.
    + by pose proof (proj1 (Forall_forall _ _) Hext' y Hin).
  - apply elem_of_app. left.
    apply list_elem_of_fmap in HxA as (X & -> & HX). by apply Hin1.
Qed.
End placement.

Lemma unreferenced_not_referenced names y :
  unreferenced names y → ¬ referenced names y.
Proof.
  intros Hun (_ & D & HD & Hy).
  by apply (proj1 (Forall_forall _ _) Hun D HD).
Qed.

(** *** Chains of references *)

Lemma no_later_declared names (N : string) D :
  no_later names N D → N ∈ (name_of <$> names).
Proof. apply upto_subseteq. Qed.

Lemma reaches_in_declared names n a b :
  reaches_in names n a b → b ∈ (name_of <$> names) → a ∈ (name_of <$> names).
Proof.
  induction 1 as [a|n a b c Hab IH (o & Ho & Hname & _ & _)]; [done|].
  intros _. apply IH. apply list_elem_of_fmap. by exists o.
Qed.

(** Levels that grow along the references leading to [D] bound the
    chains that lead to it. *)
Lemma levelled_chain names early above level D n a c :
  levelled names early above level D →
  reaches_in names n a c → early a = true →
  early c = true
  ∧ (above c = true → above a = true ∧ (n + level a ≤ level c)%nat).
Proof.
  intros (_ & _ & Hall) Hreach Ha.
  induction Hreach as [a|n a b c Hab IH (o & Ho & Hname & Hc & Hdecl)].
  { split; [done|]. intros Habove. split; [done|lia]. }
  destruct (IH Ha) as [Hb Hlevel]. subst b.
  pose proof (proj1 (Forall_forall _ _) Hall o Ho Hb) as Hrefs.
  destruct (proj1 (Forall_forall _ _) Hrefs c Hc Hdecl) as [Hearly Habove].
  split; [done|]. intros Hc'. destruct (Habove Hc') as [Ho' Hlt].
  destruct (Hlevel Ho') as [Ha' Hle]. split; [done|lia].
Qed.

Lemma levelled_within_depth names early above level prank limit D R :
  levelled names early above level D →
  level D + prank R + 1 < limit →
  within_depth names prank limit D R.
Proof.
  intros Hlevelled Hmargin N n Hearly Hreach.
  pose proof (no_later_declared names N D Hearly) as HN.
  apply list_elem_of_fmap in HN as (o & -> & Ho).
  pose proof Hlevelled as (Habove & Hstart & _).
  pose proof (proj1 (Forall_forall _ _) Hstart o Ho Hearly) as Ho'.
  destruct (levelled_chain names early above level D _ _ _ Hlevelled Hreach Ho')
    as [_ Hle].
  destruct (Hle Habove) as [_ Hn]. lia.
Qed.

(** Acyclic references: the ranks of [ranked] bound every chain. *)
Lemma ranked_chain names rank limit n a c :
  ranked rank limit names → reaches_in names n a c → (n + rank c ≤ rank a)%nat.
Proof.
  intros Hranked.
  induction 1 as [a|n a b c Hab IH (o & Ho & Hname & Hc & Hdecl)]; [lia|].
  subst b.
  pose proof (proj1 (Forall_forall _ _) Hranked o Ho) as [_ Hrefs].
  pose proof (proj1 (Forall_forall _ _) Hrefs c Hc Hdecl). lia.
Qed.

Lemma ranked_parents_ranked names rank limit :
  ranked rank limit names → parents_ranked rank limit names.
Proof.
  intros Hranked. apply Forall_forall. intros o Ho.
  pose proof (proj1 (Forall_forall _ _) Hranked o Ho) as [Hlimit Hrefs].
  split; [done|]. apply Forall_forall. intros P HP.
  apply (proj1 (Forall_forall _ _) Hrefs P).
  rewrite references_split. apply elem_of_app. by left.
Qed.

Lemma ranked_within_depth names rank limit o R :
  ranked rank limit names → o ∈ names → R ∈ references o →
  R ∈ (name_of <$> names) →
  within_depth names rank limit (name_of o) R.
Proof.
  intros Hranked Ho HR Hdecl N n Hearly Hreach.
  pose proof (ranked_chain names rank limit n N (name_of o) Hranked Hreach) as Hn.
  pose proof (proj1 (Forall_forall _ _) Hranked o Ho) as [_ Hrefs].
  pose proof (proj1 (Forall_forall _ _) Hrefs R HR Hdecl) as HRrank.
  pose proof (no_later_declared names N (name_of o) Hearly) as HN.
  apply list_elem_of_fmap in HN as (oN & -> & HoN).
  pose proof (proj1 (Forall_forall _ _) Hranked oN HoN) as [Hlimit _]. lia.
Qed.

(** C1 (amended). When no chain of parent links among the definitions is
    as long as the recursion limit (so that none is a cycle), the orderer
    returns the definitions it was given, each name once, with or without
    cycles among the other references.  In what it returns every
    definition stands after all its defined parents; it stands after a
    defined name [R] read off a field annotation or off the value of an
    alias whenever every chain of references leading to it from a
    definition declared no later than itself, continued by the parents of
    [R], stays below the recursion limit: that leaves out a definition on
    a cycle and one that a definition declared before it reaches through
    a cycle, which are the ones the escape at the recursion limit may place
    before a name they reference.  Every definition that nothing
    references stands after all those declared before it. *)
Theorem ordered_names_placed names prank limit :
  NoDup (name_of <$> names) →
  Forall well_formed names →
  parents_ranked prank limit names →
  ∃ out,
    ordered_names limit names = Done out
    ∧ NoDup (name_of <$> out)
    ∧ (∀ o, o ∈ out ↔ o ∈ names)
    ∧ (∀ D P, D ∈ out → P ∈ parents_of D → P ∈ (name_of <$> names) →
         precedes P (name_of D) (name_of <$> out))
    ∧ (∀ D R, D ∈ out → R ∈ references D → R ∈ (name_of <$> names) →
         within_depth names prank limit (name_of D) R →
         precedes R (name_of D) (name_of <$> out))
    ∧ (∀ x y, precedes x y (name_of <$> names) → unreferenced names y →
         precedes x y (name_of <$> out)).
Proof.
  intros Hnodup Hwf Hranked.
  destruct (defined_names_run names prank limit EmptyString EmptyString
              Hnodup Hwf Hranked) as (st & Hrun & Hplaced & Hst).
  destruct (collect_ordered_names (name_map_of names) ∅ st)
    as (out & Hout & Hnames & Hall).
  { intros x Hx. apply Hst in Hx.
    apply list_elem_of_fmap in Hx as (o & -> & Ho). exists o.
    split; [|done]. by apply name_map_of_lookup. }
  assert ((name_of <$> out) = first_occurrences st) as Hfirst.
  { rewrite Hnames. apply filter_all. intros x _. set_solver. }
  exists out. unfold ordered_names. rewrite Hrun.
  split; [done|]. split; [rewrite Hfirst; apply first_occurrences_NoDup|].
  assert (∀ o, o ∈ out → o ∈ names) as Hsub.
  { intros o Ho. pose proof (proj1 (Forall_forall _ _) Hall o Ho) as Hmap.
    by apply name_map_of_lookup in Hmap as [? _]. }
  assert (∀ o, o ∈ out →
            ∃ i, st !! i = Some (name_of o) ∧ name_of o ∉ take i st) as Hfirst_index.
  { intros o Ho. apply first_index, Hst, list_elem_of_fmap.
    exists o. split; [done|]. by apply Hsub. }
  split; [|split; [|split]].
  - intros o. split; [apply Hsub|]. intros Ho.
    assert (name_of o ∈ (name_of <$> out)) as Hin.
    { rewrite Hfirst. apply first_occurrences_elem, Hst, list_elem_of_fmap.
      by exists o. }
    apply list_elem_of_fmap in Hin as (o' & Hname & Ho').
    assert (o' = o) as ->; [|done].
    apply (name_of_inj names); [done|done|by apply Hsub|done].
  - intros D P HD HP Hdecl. rewrite Hfirst.
    pose proof (proj1 (Forall_forall _ _) Hall D HD) as Hmap.
    destruct (Hfirst_index D HD) as (i & Hi & Hnot).
    pose proof (Hplaced i (name_of D) D P Hi Hmap HP Hdecl) as HPin.
    rewrite <- (take_drop_middle st i (name_of D) Hi).
    by apply first_occurrences_precedes.
  - intros D R HD HR Hdecl Hwithin. rewrite Hfirst.
    destruct (Hfirst_index D HD) as (i & Hi & Hnot).
    assert (target names prank limit (name_of D) R) as Htarget.
    { split; [done|]. split; [|done]. exists D. split; [by apply Hsub|done]. }
    pose proof (run_reference_placed names prank limit (name_of D) R
                  Hnodup Hwf Hranked st Htarget Hrun i Hi) as HRin.
    rewrite <- (take_drop_middle st i (name_of D) Hi).
    by apply first_occurrences_precedes.
  - intros x y Hxy Hy. rewrite Hfirst.
    destruct (unreferenced_after names prank limit EmptyString EmptyString
                Hnodup Hwf Hranked st x y Hrun Hxy)
      as (pre & post & -> & Hnot & Hin);
      [by apply unreferenced_not_referenced|].
    by apply first_occurrences_precedes.
Qed.


(** *** Beside a cycle *)

Lemma beside_a_cycle_ordered :
  ∃ out, ordered_names 1000 beside_a_cycle = Done out
         ∧ name_of <$> out = ["Tree"; "Leaf"; "Tag"; "Label"]
         ∧ field_class "Leaf" ["Label"] ∈ out.
Proof.
  eexists. split; [by vm_compute|]. split; [by vm_compute|]. right. left.
Qed.

Lemma leaf_refers b : refers identifiers beside_a_cycle "Leaf" b → b = "Label".
Proof.
  intros (D & HD & Hname & Hb & Hdecl). unfold beside_a_cycle in HD.
  repeat (apply elem_of_cons in HD as [->|HD]); try discriminate Hname;
    [|by apply elem_of_nil in HD].
  vm_compute in Hb, Hdecl.
  repeat (apply elem_of_cons in Hb as [->|Hb]); [|done|by apply elem_of_nil in Hb].
  repeat (apply elem_of_cons in Hdecl as [Hdecl|Hdecl]); try discriminate Hdecl.
  by apply elem_of_nil in Hdecl.
Qed.

Lemma label_refers b : ¬ refers identifiers beside_a_cycle "Label" b.
Proof.
  intros (D & HD & Hname & Hb & Hdecl). unfold beside_a_cycle in HD.
  repeat (apply elem_of_cons in HD as [->|HD]); try discriminate Hname;
    [|by apply elem_of_nil in HD].
  vm_compute in Hb, Hdecl.
  repeat (apply elem_of_cons in Hb as [->|Hb]); [| |by apply elem_of_nil in Hb];
    repeat (apply elem_of_cons in Hdecl as [Hdecl|Hdecl]); try discriminate Hdecl;
    by apply elem_of_nil in Hdecl.
Qed.

Lemma leaf_not_in_cycle : ¬ in_cycle identifiers beside_a_cycle "Leaf".
Proof.
  unfold in_cycle. intros H. inversion H as [a b Hab|a b c Hab Hbc]; subst.
  - by apply leaf_refers in Hab.
  - apply leaf_refers in Hab as ->.
    inversion Hbc as [a b Hab|a b c' Hab Hbc']; subst; by apply label_refers in Hab.
Qed.

(** C1, as stated, fails: [Leaf] is on no cycle and references the defined
    [Label], yet it is placed before it, because it was first met below the
    cyclic [Tree] when the recursion limit was reached. *)
Lemma leaf_before_its_label : ¬ ordered_as_specified 1000 beside_a_cycle.
Proof.
  intros (out & Hout & _ & Horder & _).
  destruct beside_a_cycle_ordered as (out' & Hout' & Hnames & HD).
  rewrite Hout in Hout'. injection Hout' as <-.
  specialize (Horder (field_class "Leaf" ["Label"]) "Label" HD).
  rewrite Hnames in Horder.
  destruct Horder as (l1 & l2 & l3 & Hsplit).
  - vm_compute. right. left.
  - vm_compute. do 3 right. left.
  - apply leaf_not_in_cycle.
  - simpl in Hsplit.
    destruct l1 as [|? l1]; [discriminate|]. injection Hsplit as _ Hsplit.
    destruct l1 as [|? l1]; [discriminate|]. injection Hsplit as _ Hsplit.
    destruct l1 as [|? l1]; [discriminate|]. injection Hsplit as _ Hsplit.
    destruct l1 as [|? l1].
    + injection Hsplit as Hsplit. by destruct l2.
    + injection Hsplit as _ Hsplit. by destruct l1.
Qed.

(** * The theorems at sample inputs *)

Lemma ordered_names_placed_witness :
  NoDup (name_of <$> leaf_first)
  ∧ Forall well_formed leaf_first
  ∧ parents_ranked (λ _, 0) 1000 leaf_first
  ∧ refers findall leaf_first "Tree" "Tree"
  ∧ refers findall leaf_first "Tree" "Leaf"
  ∧ within_depth leaf_first (λ _, 0) 1000 "Leaf" "Label"
  ∧ ∃ out,
      ordered_names 1000 leaf_first = Done out
      ∧ NoDup (name_of <$> out)
      ∧ precedes "Label" "Leaf" (name_of <$> out).
Proof.
  assert (NoDup (name_of <$> leaf_first)) as Hnodup
    by (refine (bool_decide_unpack _ _); vm_compute; exact I).
  assert (Forall well_formed leaf_first) as Hwf
    by (refine (bool_decide_unpack _ _); vm_compute; exact I).
  assert (parents_ranked (λ _, 0) 1000 leaf_first) as Hranked
    by (refine (bool_decide_unpack _ _); vm_compute; exact I).
  assert (levelled leaf_first (λ x, bool_decide (x ∈ ["Leaf"; "Label"]))
            (λ x, bool_decide (x = "Leaf")) (λ _, 0) "Leaf") as Hlevelled
    by (unfold levelled, no_later; refine (bool_decide_unpack _ _);
        vm_compute; exact I).
  assert (within_depth leaf_first (λ _, 0) 1000 "Leaf" "Label") as Hwithin
    by (apply (levelled_within_depth _ _ _ _ _ _ _ _ Hlevelled); lia).
  split; [exact Hnodup|]. split; [exact Hwf|]. split; [exact Hranked|].
  split.
  { exists (field_class "Tree" ["List[Tree]"; "Leaf"]).
    split; [right; left|]. split; [reflexivity|].
    split; refine (bool_decide_unpack _ _); vm_compute; exact I. }
  split.
  { exists (field_class "Tree" ["List[Tree]"; "Leaf"]).
    split; [right; left|]. split; [reflexivity|].
    split; refine (bool_decide_unpack _ _); vm_compute; exact I. }
  split; [exact Hwithin|].
  destruct (ordered_names_placed leaf_first (λ _, 0) 1000 Hnodup Hwf Hranked)
    as (out & Hout & Hnd & Hsame & _ & Horder & _).
  exists out. split; [exact Hout|]. split; [exact Hnd|].
  apply (Horder (field_class "Leaf" ["Label"]) "Label").
  - apply Hsame. left.
  - refine (bool_decide_unpack _ _); vm_compute; exact I.
  - refine (bool_decide_unpack _ _); vm_compute; exact I.
  - exact Hwithin.
Defined.

Lemma structure_without_extends_witness :
  position_store !! 0 = Some (plain_structure "Position" [prop "line" (BaseType UINTEGER)] [])
  ∧ st_extends (plain_structure "Position" [prop "line" (BaseType UINTEGER)] []) = None
  ∧ ∃ c, structure ∅ 0 position_store = (Done c, position_store)
         ∧ cls_parents c = Some ["TypedDict"].
Proof.
  split; [reflexivity|]. split; [reflexivity|].
  destruct (structure_without_extends ∅ 0 position_store
              (plain_structure "Position" [prop "line" (BaseType UINTEGER)] [])
              eq_refl (or_introl eq_refl)) as [_ Hproduced].
  destruct (Hproduced _ (or_intror eq_refl) eq_refl) as (c & Hrun & _ & Hparents & _).
  exists c. split; [exact Hrun|exact Hparents].
Defined.

Lemma notification_both_witness :
  ntf_messageDirection progress = BOTH
  ∧ ntf_typeName progress = Some "ProgressNotification"
  ∧ type_params (ntf_params progress) = Done "ProgressParams"
  ∧ dict_get "$/progress"
      (dict_set "$/progress" "handle_progress_notification"
         (_client_handle_map (__init__ empty_model)))
    = Some "handle_progress_notification"
  ∧ dict_get "$/progress"
      (dict_set "$/progress" "handle_progress_notification"
         (_server_handle_map (__init__ empty_model)))
    = Some "handle_progress_notification".
Proof.
  split; [reflexivity|]. split; [reflexivity|]. split; [reflexivity|].
  destruct (proj2 (proj2 (notification_both progress (__init__ empty_model) [] []
                            eq_refl eq_refl eq_refl))
              "ProgressNotification" "ProgressParams" eq_refl eq_refl)
    as (_ & Hclient & Hserver & _).
  split; [exact Hclient|exact Hserver].
Defined.

Lemma message_identifier_witness :
  letters_only "HoverRequest" = true
  ∧ to_snake_case "HoverRequest" = snake_case_as_specified "HoverRequest"
  ∧ ∃ g', request hover (__init__ empty_model) = (Done tt, g')
          ∧ compiled_message (snake_case_of_code "HoverRequest")
              "textDocument/hover" (__init__ empty_model) g'.
Proof.
  destruct (message_identifier "HoverRequest") as (_ & Hletters & Hrequest & _).
  split; [reflexivity|]. split; [exact (Hletters eq_refl)|].
  exact (Hrequest hover (__init__ empty_model) "HoverParams" "Hover" [] []
           eq_refl eq_refl eq_refl eq_refl eq_refl).
Defined.


Module utils_witnesses.
Import utils utils_shapes utils_facts.

Lemma get_type_default_shapes_witness :
  hashable (UnionOf [Str; NoneType]) = true
  ∧ handled (UnionOf [Str; NoneType]) = true
  ∧ (∃ val, _get_type_default false false (UnionOf [Str; NoneType]) = Done val)
  ∧ unhandled (OtherType "<enum 'SymbolKind'>") = true
  ∧ _get_type_default false false (OtherType "<enum 'SymbolKind'>")
    = Raise (ValueError "unable get default value for <enum 'SymbolKind'>")
  ∧ inline_record Position = true
  ∧ _get_type_default false false Position = Done (MissingValue Position)
  ∧ hashable list_literal = false
  ∧ _get_type_default false false list_literal = Raise TypeError.
Proof.
  split; [reflexivity|]. split; [reflexivity|].
  split; [exact (proj1 (get_type_default_shapes false false (UnionOf [Str; NoneType]))
                   eq_refl eq_refl)|].
  split; [reflexivity|].
  split; [exact (proj1 (proj2 (get_type_default_shapes false false
                                 (OtherType "<enum 'SymbolKind'>")))
                   eq_refl eq_refl)|].
  split; [reflexivity|].
  split; [exact (proj1 (proj2 (proj2 (get_type_default_shapes false false Position)))
                   eq_refl eq_refl eq_refl)|].
  split; [reflexivity|].
  exact (proj2 (proj2 (proj2 (get_type_default_shapes false false list_literal)))
           eq_refl).
Defined.
End utils_witnesses.

(** * Further properties *)

(** ** Messages, direction by direction *)

(** X1. A request that compiles gives the role that sends it the sender and
    a stub for the result, and the role that receives it a stub of the same
    name for the request, annotated with the result type; with direction
    [BOTH] each role gets all three, two of them under one name.  Whatever
    the direction, the wire method is entered in the dispatch tables of
    both roles. *)
Theorem request_by_direction tp g text params result_ mc ms :
  req_typeName tp = Some text →
  type_params (req_params tp) = Done params →
  type_ (req_result tp) = Done result_ →
  cls_methods (_client g) = Some mc →
  cls_methods (_server g) = Some ms →
  let handler := "handle_" +:+ to_snake_case text in
  let send := request_function_of tp (to_snake_case text) params in
  let on_result := handle_result_function_of handler result_ in
  let on_request := handle_request_function_of handler params result_ in
  let d := req_messageDirection tp in
  ∃ g', request tp g = (Done tt, g')
    ∧ cls_methods (_client g')
      = Some (mc ++ (if sends_to_server d then [send; on_result] else [])
                 ++ (if sends_to_client d then [on_request] else []))
    ∧ cls_methods (_server g')
      = Some (ms ++ (if sends_to_server d then [on_request] else [])
                 ++ (if sends_to_client d then [send; on_result] else []))
    ∧ _client_handle_map g' = dict_set (req_method tp) handler (_client_handle_map g)
    ∧ _server_handle_map g' = dict_set (req_method tp) handler (_server_handle_map g)
    ∧ fn_name on_result = fn_name on_request.
Proof.
  intros Hname Hparams Hresult Hmc Hms handler send on_result on_request d.
  subst d. unfold request. py_unfold.
  rewrite Hname, Hparams, Hresult. cbn.
  destruct (req_messageDirection tp); cbn;
    rewrite ?Hmc, ?Hms; cbn; rewrite ?Hmc, ?Hms; cbn;
    (eexists; split; [reflexivity|]); cbn;
    rewrite <- ?app_assoc, ?app_nil_r, ?dict_set_twice; cbn;
    by repeat split.
Qed.

(** X2. A notification that compiles gives the role that sends it the
    sender only, and the role that receives it the handler stub and the
    dispatch entry only: the table of a role that does not receive it is
    left as it was. *)
Theorem notification_by_direction tp g text params mc ms :
  ntf_typeName tp = Some text →
  type_params (ntf_params tp) = Done params →
  cls_methods (_client g) = Some mc →
  cls_methods (_server g) = Some ms →
  let handler := "handle_" +:+ to_snake_case text in
  let send := notify_function_of tp (to_snake_case text) params in
  let stub := handle_notification_function_of handler params in
  let d := ntf_messageDirection tp in
  ∃ g', notification tp g = (Done tt, g')
    ∧ cls_methods (_client g')
      = Some (mc ++ (if sends_to_server d then [send] else [])
                 ++ (if sends_to_client d then [stub] else []))
    ∧ cls_methods (_server g')
      = Some (ms ++ (if sends_to_server d then [stub] else [])
                 ++ (if sends_to_client d then [send] else []))
    ∧ _client_handle_map g'
      = (if sends_to_client d
         then dict_set (ntf_method tp) handler (_client_handle_map g)
         else _client_handle_map g)
    ∧ _server_handle_map g'
      = (if sends_to_server d
         then dict_set (ntf_method tp) handler (_server_handle_map g)
         else _server_handle_map g).
Proof.
  intros Hname Hparams Hmc Hms handler send stub d.
  subst d. unfold notification. py_unfold.
  rewrite Hname, Hparams. cbn.
  destruct (ntf_messageDirection tp); cbn;
    rewrite ?Hmc, ?Hms; cbn; rewrite ?Hmc, ?Hms; cbn;
    (eexists; split; [reflexivity|]); cbn;
    rewrite <- ?app_assoc, ?app_nil_r; cbn;
    by repeat split.
Qed.

(** X3. A message that fails fails before anything is added: a
    notification without a type name raises [TypeError], and whenever a
    notification or a request raises on a generator whose dispatchers hold
    their method lists, the generator is left as it was and the error is
    that of the missing type name or of a type that did not compile. *)
Theorem failed_message_adds_nothing g mc ms :
  cls_methods (_client g) = Some mc →
  cls_methods (_server g) = Some ms →
  (∀ tp, ntf_typeName tp = None → notification tp g = (Raise TypeError, g))
  ∧ (∀ tp e g', notification tp g = (Raise e, g') →
       g' = g ∧ (ntf_typeName tp = None ∧ e = TypeError
                 ∨ type_params (ntf_params tp) = Raise e))
  ∧ (∀ tp e g', request tp g = (Raise e, g') →
       g' = g ∧ (req_typeName tp = None ∧ e = TypeError
                 ∨ type_params (req_params tp) = Raise e
                 ∨ type_ (req_result tp) = Raise e)).
Proof.
  intros Hmc Hms. split; [|split].
  - intros tp Hname. unfold notification. py_unfold. by rewrite Hname.
  - intros tp e g'. unfold notification. py_unfold.
    destruct (ntf_typeName tp) as [text|]; cbn; [|intros [= <- <-]; auto].
    destruct (type_params (ntf_params tp)) as [params|e0]; cbn;
      [|intros [= <- <-]; auto].
    destruct (ntf_messageDirection tp); cbn;
      rewrite ?Hmc, ?Hms; cbn; rewrite ?Hmc, ?Hms; cbn; discriminate.
  - intros tp e g'. unfold request. py_unfold.
    destruct (req_typeName tp) as [text|]; cbn; [|intros [= <- <-]; auto].
    destruct (type_params (req_params tp)) as [params|e0]; cbn;
      [|intros [= <- <-]; auto].
    destruct (type_ (req_result tp)) as [result_|e0]; cbn;
      [|intros [= <- <-]; auto].
    destruct (req_messageDirection tp); cbn;
      rewrite ?Hmc, ?Hms; cbn; rewrite ?Hmc, ?Hms; cbn; discriminate.
Qed.

(** ** The scanner *)

Lemma flush_filter cur :
  flush cur = filter (λ t, (2 ≤ String.length t)%nat) (flush_identifier cur).
Proof.
  destruct cur as [[|c [|d s]]|]; simpl; done.
Qed.

Lemma scan_filter s : ∀ cur,
  scan cur s = filter (λ t, (2 ≤ String.length t)%nat) (scan_identifiers cur s).
Proof.
  induction s as [|c rest IH]; intros cur; simpl; [apply flush_filter|].
  destruct cur as [tok|].
  - destruct (is_word c); [apply IH|].
    by rewrite filter_app, <- flush_filter, IH.
  - destruct (is_ident_start c); apply IH.
Qed.

Lemma all_word_snoc tok c :
  all_word tok = true → is_word c = true →
  all_word (tok +:+ String c EmptyString) = true.
Proof.
  intros Htok Hc. induction tok as [|d tok IH]; simpl in *.
  - by rewrite Hc.
  - apply andb_true_iff in Htok as [-> Htok]. by apply IH.
Qed.

Lemma scan_shape s : ∀ cur,
  match cur with
  | Some (String c rest) => is_ident_start c = true ∧ all_word rest = true
  | Some EmptyString => False
  | None => True
  end →
  Forall token_shape (scan cur s).
Proof.
  induction s as [|c rest IH]; intros cur Hcur; simpl.
  - destruct cur as [[|a [|b tok]]|]; simpl; try constructor; try done.
  - destruct cur as [[|a tok]|]; [done| |].
    + destruct Hcur as [Ha Htok]. destruct (is_word c) eqn:Hc.
      * apply IH. simpl. split; [done|]. by apply all_word_snoc.
      * apply Forall_app. split; [|by apply IH].
        destruct tok as [|b tok]; simpl; constructor; try done.
    + destruct (is_ident_start c) eqn:Hc; apply IH; simpl; done.
Qed.

(** X4. The scanner of the orderer and of the import resolver returns the
    identifiers of a text that have two characters or more, in order: a
    start character among the letters and the underscore followed by at
    least one word character.  An identifier of one character is never
    returned. *)
Theorem findall_long_identifiers text :
  findall text = filter (λ t, (2 ≤ String.length t)%nat) (identifiers text)
  ∧ Forall token_shape (findall text)
  ∧ Forall (λ t, (2 ≤ String.length t)%nat) (findall text).
Proof.
  split; [apply scan_filter|]. split; [by apply scan_shape|].
  unfold findall. rewrite scan_filter. apply Forall_forall.
  intros t Ht. by apply list_elem_of_filter in Ht as [? _].
Qed.

(** ** The import resolver *)

Section resolve_facts.
Variable names : gset string.

Lemma first_occurrences_filter (P : string → Prop) `{∀ x, Decision (P x)} l :
  first_occurrences (filter P l) = filter P (first_occurrences l).
Proof.
  induction l as [|a l IH]; [done|]. simpl.
  destruct (decide (P a)) as [Ha|Ha].
  - rewrite !filter_cons_True by done. simpl. f_equal.
    rewrite IH, !list_filter_filter. apply list_filter_iff. naive_solver.
  - rewrite !filter_cons_False by done. rewrite IH, list_filter_filter.
    apply list_filter_iff. intros x. split; [|naive_solver].
    intros Hx. split; [done|]. by intros ->.
Qed.

Lemma foldl_add_import toks : ∀ imports,
  foldl (add_import names) imports toks
  = imports ++ first_occurrences (filter (λ t, t ∈ names ∧ t ∉ imports) toks).
Proof.
  induction toks as [|t toks IH]; intros imports; simpl.
  { by rewrite app_nil_r. }
  unfold add_import at 2. case_bool_decide as Hin.
  { rewrite IH, filter_cons_False by naive_solver. done. }
  case_bool_decide as Hname.
  - rewrite IH, filter_cons_True by done. simpl.
    rewrite <- app_assoc. simpl. do 2 f_equal.
    rewrite <- first_occurrences_filter, list_filter_filter. f_equal.
    apply list_filter_iff. intros x.
    rewrite not_elem_of_app, list_elem_of_singleton. naive_solver.
  - rewrite IH, filter_cons_False by naive_solver. done.
Qed.

Lemma scan_annotation_tokens imports annotation :
  scan_annotation names imports annotation
  = foldl (add_import names) imports (from_option findall [] (truthy annotation)).
Proof. unfold scan_annotation. by destruct (truthy annotation). Qed.

Lemma scan_arguments_tokens arguments : ∀ imports,
  foldl (λ imports arg, scan_annotation names imports (arg_annotation arg))
    imports arguments
  = foldl (add_import names) imports
      (concat (findall <$> omap (λ a, truthy (arg_annotation a)) arguments)).
Proof.
  induction arguments as [|a l IH]; intros imports; [done|]. simpl.
  rewrite IH, scan_annotation_tokens.
  destruct (truthy (arg_annotation a)); simpl; [|done].
  by rewrite foldl_app.
Qed.

Lemma scan_variables_tokens variables : ∀ imports,
  foldl (λ imports var, scan_annotation names imports (var_annotation var))
    imports variables
  = foldl (add_import names) imports
      (concat (findall <$> omap (λ v, truthy (var_annotation v)) variables)).
Proof.
  induction variables as [|a l IH]; intros imports; [done|]. simpl.
  rewrite IH, scan_annotation_tokens.
  destruct (truthy (var_annotation a)); simpl; [|done].
  by rewrite foldl_app.
Qed.

Lemma resolve_functions_tokens methods :
  Forall (λ f, is_Some (fn_arguments f)) methods →
  ∀ imports,
    resolve_functions names imports methods
    = Done (foldl (add_import names) imports
              (concat (findall <$> concat (method_annotations <$> methods)))).
Proof.
  induction 1 as [|f methods [arguments Hf] _ IH]; intros imports; [done|].
  simpl. unfold resolve_function. rewrite Hf. simpl.
  rewrite IH. f_equal. unfold method_annotations at 2. rewrite Hf. simpl.
  rewrite fmap_app, concat_app, fmap_app, concat_app, !foldl_app.
  f_equal. rewrite scan_arguments_tokens, scan_annotation_tokens.
  destruct (truthy (fn_annotation f)); simpl; [|done].
  by rewrite app_nil_r.
Qed.

Lemma resolve_functions_no_arguments methods f :
  f ∈ methods → fn_arguments f = None →
  ∀ imports, resolve_functions names imports methods = Raise TypeError.
Proof.
  intros Hf Hnone. induction methods as [|f' methods IH]; intros imports.
  { by apply elem_of_nil in Hf. }
  simpl. unfold resolve_function.
  destruct (fn_arguments f') as [arguments|] eqn:Hf'; [|done].
  simpl. apply IH. apply elem_of_cons in Hf as [->|Hf]; [congruence|done].
Qed.
End resolve_facts.

(** X5. On a class whose methods all have their argument lists, the import
    resolver returns, each once and in the order of their first occurrence,
    exactly the names of the defined types found among the class's parent
    names and the tokens the scanner reads off the annotations of its
    variables, of the arguments of its methods and of their results. *)
Theorem resolve_first_seen c defined_names :
  Forall (λ f, is_Some (fn_arguments f)) (default [] (cls_methods c)) →
  ∃ imports,
    resolve [ClassName c] defined_names = Done imports
    ∧ imports = first_occurrences
                  (filter (λ t, t ∈ name_of <$> defined_names) (class_tokens c))
    ∧ NoDup imports
    ∧ (∀ t, t ∈ imports ↔ t ∈ name_of <$> defined_names ∧ t ∈ class_tokens c).
Proof.
  intros Hargs. eexists. split; [|split; [reflexivity|split]].
  - unfold resolve. simpl.
    rewrite scan_variables_tokens, resolve_functions_tokens by done. simpl.
    rewrite <- !foldl_app, foldl_add_import. simpl. f_equal. f_equal.
    unfold class_tokens, scanned_annotations.
    rewrite fmap_app, concat_app.
    apply list_filter_iff. intros t. rewrite elem_of_list_to_set.
    split; [by intros [? _]|]. intros ?. split; [done|apply not_elem_of_nil].
  - apply first_occurrences_NoDup.
  - intros t. rewrite first_occurrences_elem, list_elem_of_filter. done.
Qed.

(** X6. A method built without arguments (the default of [Function]) makes
    the import resolver raise [TypeError], whatever else the class
    holds. *)
Theorem resolve_without_arguments c methods f defined_names :
  cls_methods c = Some methods →
  f ∈ methods → fn_arguments f = None →
  resolve [ClassName c] defined_names = Raise TypeError.
Proof.
  intros Hmethods Hf Hnone. unfold resolve. simpl. rewrite Hmethods. simpl.
  by rewrite (resolve_functions_no_arguments _ methods f).
Qed.

(** ** The orderer, cycles or not *)

Section appends.
Context (P : string → Prop).

Lemma appends_ret {A} (a : A) : appends P (py_ret a).
Proof. intros st r st' [= <- <-]. exists []. by rewrite app_nil_r. Qed.

Lemma appends_raise {A} e : appends P (@py_raise _ A e).
Proof. intros st r st' [= <- <-]. exists []. by rewrite app_nil_r. Qed.

Lemma appends_iterable {A} (o : option A) : appends P (iterable o).
Proof. destruct o; [apply appends_ret|apply appends_raise]. Qed.

Lemma appends_bind {A B} (m : Py (list string) A) (k : A → Py (list string) B) :
  appends P m → (∀ a, appends P (k a)) → appends P (m ≫= k).
Proof.
  intros Hm Hk st r st'. unfold mbind, py_mbind, py_bind.
  destruct (m st) as [[a|e] st1] eqn:E.
  - destruct (Hm _ _ _ E) as (ext1 & -> & Hext1). intros Hk'.
    destruct (Hk a _ _ _ Hk') as (ext2 & -> & Hext2).
    exists (ext1 ++ ext2). rewrite app_assoc. split; [done|]. by apply Forall_app.
  - intros [= <- <-]. by apply (Hm _ _ _ E).
Qed.

Lemma appends_for {A} (l : list A) (body : A → Py (list string) unit) :
  (∀ x, appends P (body x)) → appends P (py_for l body).
Proof.
  intros Hbody. induction l as [|x l IH]; simpl; [apply appends_ret|].
  apply (appends_bind (body x) (λ _, py_for l body)); [apply Hbody|done].
Qed.

Lemma appends_snoc x : P x → appends P (py_modify (λ st, st ++ [x])).
Proof. intros Hx st r st' [= <- <-]. exists [x]. split; [done|]. by constructor. Qed.

Lemma appends_if {A} (b : bool) (m1 m2 : Py (list string) A) :
  appends P m1 → appends P m2 → appends P (if b then m1 else m2).
Proof. by destruct b. Qed.
End appends.

Lemma name_map_of_key names k o :
  name_map_of names !! k = Some o → o ∈ names ∧ name_of o = k.
Proof.
  induction names as [|x l IH] using rev_ind.
  - unfold name_map_of. simpl. by rewrite lookup_empty.
  - rewrite name_map_of_snoc.
    destruct (decide (name_of x = k)) as [<-|Hne].
    + rewrite lookup_insert_eq. intros [= <-]. split; [|done].
      apply elem_of_app. right. left.
    + rewrite lookup_insert_ne by done. intros [Ho Hk]%IH. split; [|done].
      apply elem_of_app. by left.
Qed.

Lemma name_map_of_declared names o :
  o ∈ names → is_Some (name_map_of names !! name_of o).
Proof.
  induction names as [|x l IH] using rev_ind; intros Ho.
  - by apply elem_of_nil in Ho.
  - rewrite name_map_of_snoc.
    destruct (decide (name_of x = name_of o)) as [->|Hne].
    + rewrite lookup_insert_eq. by eexists.
    + rewrite lookup_insert_ne by done. apply IH.
      apply elem_of_app in Ho as [Ho|Ho]; [done|].
      apply list_elem_of_singleton in Ho. by subst.
Qed.

Section any_names.
Variable names : list Name.

Lemma appends_visit_parent define parent :
  (∀ o, declared_name names (name_of o) → appends (declared_name names) (define o)) →
  appends (declared_name names) (visit_parent (name_map_of names) define parent).
Proof.
  intros Hdef st r st'. unfold visit_parent.
  destruct (bool_decide _); [apply (appends_ret (declared_name names) tt)|].
  destruct (name_map_of names !! parent) as [o|] eqn:E;
    [|apply (appends_ret (declared_name names) tt)].
  apply Hdef. apply name_map_of_key in E as [Ho _].
  by apply name_map_of_declared.
Qed.

Lemma appends_visit_token define typ :
  (∀ o, declared_name names (name_of o) → appends (declared_name names) (define o)) →
  appends (declared_name names) (visit_token (name_map_of names) define typ).
Proof.
  intros Hdef st r st'. unfold visit_token.
  destruct (bool_decide _); [apply (appends_ret (declared_name names) tt)|].
  destruct (name_map_of names !! typ) as [o|] eqn:E;
    [|apply (appends_ret (declared_name names) tt)].
  assert (declared_name names (name_of o)) as Ho.
  { apply name_map_of_key in E as [Ho _]. by apply name_map_of_declared. }
  destruct (define o st) as [[[]|e] st1] eqn:Hrun.
  - intros [= <- <-]. by apply (Hdef o Ho _ _ _ Hrun).
  - destruct (Hdef o Ho _ _ _ Hrun) as (ext & -> & Hext).
    destruct e; intros [= <- <-]; by exists ext.
Qed.

Lemma appends_define_name depth o :
  declared_name names (name_of o) →
  appends (declared_name names) (define_name (name_map_of names) depth o).
Proof.
  revert o. induction depth as [|depth IH]; intros o Ho.
  { apply (appends_raise (declared_name names)). }
  destruct o as [c|v]; cbn [define_name];
    repeat first
      [ apply appends_bind; [|intros ?]
      | apply appends_iterable
      | apply appends_if
      | apply appends_for; intros ?
      | apply appends_ret
      | by apply appends_snoc
      | by apply appends_visit_parent
      | by apply appends_visit_token
      | unfold visit_variable; destruct (truthy _) ].
Qed.
End any_names.

Lemma bind_done {S A B} (m : Py S A) (k : A → Py S B) σ b σ' :
  (m ≫= k) σ = (Done b, σ') →
  ∃ a σ1, m σ = (Done a, σ1) ∧ k a σ1 = (Done b, σ').
Proof.
  unfold mbind, py_mbind, py_bind.
  destruct (m σ) as [[a|e] σ1]; [|discriminate]. intros Hk. by exists a, σ1.
Qed.

(** A call of [define_name] that returns has appended the name last. *)
Lemma define_name_done name_map depth o st st' :
  define_name name_map depth o st = (Done tt, st') →
  ∃ st1, st' = st1 ++ [name_of o].
Proof.
  destruct depth as [|depth]; [discriminate|].
  destruct o as [c|v]; cbn [define_name]; intros Hrun.
  - apply bind_done in Hrun as (parents & st1 & _ & Hrun).
    apply bind_done in Hrun as ([] & st2 & _ & Hrun).
    apply bind_done in Hrun as (variables & st3 & _ & Hrun).
    apply bind_done in Hrun as ([] & st4 & _ & Hrun).
    injection Hrun as <-. by exists st4.
  - apply bind_done in Hrun as ([] & st1 & _ & Hrun).
    injection Hrun as <-. by exists st1.
Qed.

Section returned.
Variable names : list Name.
Variable limit : nat.

Lemma defining_loop_done l : ∀ st0 st,
  (∀ o, o ∈ l → o ∈ names) →
  py_for l (define_name (name_map_of names) limit) st0 = (Done tt, st) →
  ∃ ext, st = st0 ++ ext ∧ Forall (declared_name names) ext
         ∧ ∀ o, o ∈ l → name_of o ∈ st0 ++ ext.
Proof.
  induction l as [|o l IH]; intros st0 st Hl.
  { intros [= <-]. exists []. rewrite app_nil_r. split; [done|]. split; [done|].
    intros o Ho. by apply elem_of_nil in Ho. }
  rewrite py_for_cons.
  destruct (define_name _ limit o st0) as [[[]|e] st1] eqn:Hrun; [|discriminate].
  intros Hrest.
  destruct (appends_define_name names limit o) with (st := st0) (r := Done tt)
    (st' := st1) as (ext1 & -> & Hext1); [|done|].
  { apply name_map_of_declared, Hl. left. }
  destruct (define_name_done _ _ _ _ _ Hrun) as (st1' & Hlast).
  destruct (IH (st0 ++ ext1) st) as (ext2 & -> & Hext2 & Hin2); [|done|].
  { intros o' Ho'. apply Hl. by right. }
  exists (ext1 ++ ext2). rewrite !app_assoc. split; [done|].
  split; [by apply Forall_app|].
  intros o' [->|Ho']%elem_of_cons; [|by apply Hin2].
  apply elem_of_app. left. rewrite Hlast. apply elem_of_app. right. left.
Qed.

(** X7. Whenever the orderer returns, cycles or not, it returns every
    declared name exactly once, each with the last definition declared
    under it; when the declared names are distinct the output is a
    rearrangement of the input. *)
Theorem ordered_names_once out :
  ordered_names limit names = Done out →
  NoDup (name_of <$> out)
  ∧ (∀ x, x ∈ name_of <$> out ↔ x ∈ name_of <$> names)
  ∧ Forall (λ o, name_map_of names !! name_of o = Some o) out
  ∧ (NoDup (name_of <$> names) → out ≡ₚ names).
Proof.
  unfold ordered_names.
  destruct (py_for names _ []) as [[[]|e] st] eqn:Hrun; [|discriminate].
  intros Hcollect.
  destruct (defining_loop_done names [] st) as (ext & -> & Hext & Hin); [done..|].
  simpl in *.
  destruct (collect_ordered_names (name_map_of names) ∅ ext)
    as (out' & Hout' & Hnames & Hall).
  { intros x Hx. destruct (proj1 (Forall_forall _ _) Hext x Hx) as [o Ho].
    exists o. split; [done|]. by apply name_map_of_key in Ho as [_ ?]. }
  rewrite Hcollect in Hout'. injection Hout' as <-.
  assert (name_of <$> out = first_occurrences ext) as Hfirst.
  { rewrite Hnames. apply filter_all. intros x _. set_solver. }
  assert (∀ x, x ∈ name_of <$> out ↔ x ∈ name_of <$> names) as Hsame.
  { intros x. rewrite Hfirst, first_occurrences_elem. split.
    - intros Hx. destruct (proj1 (Forall_forall _ _) Hext x Hx) as [o Ho].
      apply name_map_of_key in Ho as [Ho <-]. apply list_elem_of_fmap. by exists o.
    - intros (o & -> & Ho)%list_elem_of_fmap. by apply Hin. }
  split; [rewrite Hfirst; apply first_occurrences_NoDup|].
  split; [done|]. split; [done|].
  intros Hnodup. apply NoDup_Permutation.
  - apply (NoDup_fmap_1 name_of). rewrite Hfirst. apply first_occurrences_NoDup.
  - by apply (NoDup_fmap_1 name_of).
  - intros o. split.
    + intros Ho. pose proof (proj1 (Forall_forall _ _) Hall o Ho) as Hmap.
      by apply name_map_of_key in Hmap as [? _].
    + intros Ho.
      assert (name_of o ∈ name_of <$> out) as Hname.
      { apply Hsame, list_elem_of_fmap. by exists o. }
      apply list_elem_of_fmap in Hname as (o' & Hname & Ho').
      assert (o' = o) as ->; [|done].
      apply (name_of_inj names); [done|done| |done].
      pose proof (proj1 (Forall_forall _ _) Hall o' Ho') as Hmap.
      by apply name_map_of_key in Hmap as [? _].
Qed.
End returned.

(** *** Definitions already in order *)

Section in_order.
Variable names : list Name.
Variable depth : nat.

(** Names already defined, or not declared at all, are passed over. *)
Lemma visits_idle define toks st :
  (∀ t, t ∈ toks → t ∈ st ∨ name_map_of names !! t = None) →
  py_for toks (visit_parent (name_map_of names) define) st = (Done tt, st)
  ∧ py_for toks (visit_token (name_map_of names) define) st = (Done tt, st).
Proof.
  induction toks as [|t toks IH]; intros Htoks; [done|].
  rewrite !py_for_cons. unfold visit_parent at 1, visit_token at 1.
  destruct (Htoks t) as [Hin|Hnone]; [left| |].
  - rewrite bool_decide_eq_true_2 by done. apply IH. intros t' Ht'.
    apply Htoks. by right.
  - rewrite Hnone. destruct (bool_decide _); apply IH; intros t' Ht';
      apply Htoks; by right.
Qed.

Lemma define_name_idle o st :
  well_formed o →
  (∀ R, R ∈ references o → R ∈ st ∨ name_map_of names !! R = None) →
  define_name (name_map_of names) (S depth) o st = (Done tt, st ++ [name_of o]).
Proof.
  intros Hwf Hrefs. destruct o as [c|v]; cbn [define_name];
    unfold mbind, py_mbind, py_bind, iterable, py_ret, py_modify.
  - destruct Hwf as [[parents Hps] [variables Hvs]].
    rewrite (references_class c parents variables Hps Hvs) in Hrefs.
    rewrite Hps.
    destruct (visits_idle (define_name (name_map_of names) depth) parents st)
      as [-> _].
    { intros t Ht. apply Hrefs, elem_of_app. by left. }
    rewrite Hvs, visit_variables_tokens.
    destruct (visits_idle (define_name (name_map_of names) depth)
                (concat (map findall (omap (λ v, truthy (var_annotation v)) variables)))
                st) as [_ ->]; [|done].
    intros t Ht. apply Hrefs, elem_of_app. by right.
  - case_bool_decide as Hann; [|done].
    destruct (Hwf Hann) as [value Hval]. rewrite Hval.
    rewrite (references_alias v value Hann Hval) in Hrefs.
    by destruct (visits_idle (define_name (name_map_of names) depth)
                   (findall value) st Hrefs) as [_ ->].
Qed.

Lemma defining_loop_in_order l : ∀ seen,
  Forall well_formed l →
  references_seen seen (name_of <$> names) l = true →
  py_for l (define_name (name_map_of names) (S depth)) seen
  = (Done tt, seen ++ (name_of <$> l)).
Proof.
  induction l as [|D l IH]; intros seen Hwf Hseen.
  { by rewrite app_nil_r. }
  apply Forall_cons in Hwf as [HD Hwf].
  simpl in Hseen. apply andb_true_iff in Hseen as [Hrefs Hseen].
  rewrite py_for_cons, define_name_idle; [|done|].
  - rewrite IH by done. by rewrite <- app_assoc.
  - intros R HR.
    pose proof (proj1 (forallb_forall _ _) Hrefs R
                  (proj1 (list_elem_of_In _ _) HR)) as HRb.
    destruct (name_map_of names !! R) as [o|] eqn:Hmap; [|by right]. left.
    apply name_map_of_key in Hmap as [Ho <-].
    rewrite bool_decide_eq_true_2 in HRb.
    + by apply bool_decide_eq_true_1 in HRb.
    + apply list_elem_of_fmap. by exists o.
Qed.

Lemma collect_ordered_distinct l : ∀ defined,
  NoDup (name_of <$> l) →
  (∀ o, o ∈ l → (name_of o ∉ defined) ∧ name_map_of names !! name_of o = Some o) →
  collect_ordered (name_map_of names) defined (name_of <$> l) = Done l.
Proof.
  induction l as [|o l IH]; intros defined Hnodup Hl; [done|].
  rewrite fmap_cons in Hnodup. apply NoDup_cons in Hnodup as [Ho Hnodup].
  destruct (Hl o) as [Hnew Hmap]; [left|].
  rewrite fmap_cons. simpl.
  rewrite bool_decide_eq_false_2, Hmap by done.
  rewrite IH; [done|done|].
  intros o' Ho'. destruct (Hl o') as [Hnew' Hmap']; [by right|].
  split; [|done]. intros [Heq%elem_of_singleton|?]%elem_of_union; [|done].
  apply Ho. rewrite <- Heq. apply list_elem_of_fmap. by exists o'.
Qed.
End in_order.

(** X8. A list of well-formed definitions with distinct names in which
    every definition already stands after the defined names it references
    is returned as it is, for every recursion limit above zero: ordering
    what is ordered changes nothing. *)
Theorem ordered_names_in_order names limit :
  NoDup (name_of <$> names) →
  Forall well_formed names →
  0 < limit →
  in_reference_order names = true →
  ordered_names limit names = Done names.
Proof.
  intros Hnodup Hwf Hlimit Horder. destruct limit as [|depth]; [lia|].
  unfold ordered_names.
  rewrite (defining_loop_in_order names depth names []) by done. simpl.
  apply collect_ordered_distinct; [done|].
  intros o Ho. split; [apply not_elem_of_empty|].
  by apply name_map_of_lookup.
Qed.

(** *** A class that is its own parent *)

Section raises.
Context {S : Type}.

Lemma raises_ret {A} (a : A) : raises_only_recursion (@py_ret S A a).
Proof. by intros σ e σ'. Qed.

Lemma raises_modify (f : S → S) : raises_only_recursion (py_modify f).
Proof. by intros σ e σ'. Qed.

Lemma raises_bind {A B} (m : Py S A) (k : A → Py S B) :
  raises_only_recursion m → (∀ a, raises_only_recursion (k a)) →
  raises_only_recursion (m ≫= k).
Proof.
  intros Hm Hk σ e σ'. unfold mbind, py_mbind, py_bind.
  destruct (m σ) as [[a|e1] σ1] eqn:E.
  - apply Hk.
  - intros [= <- <-]. by apply (Hm _ _ _ E).
Qed.

Lemma raises_for {A} (l : list A) (body : A → Py S unit) :
  (∀ x, raises_only_recursion (body x)) → raises_only_recursion (py_for l body).
Proof.
  intros Hbody. induction l as [|x l IH]; simpl; [apply raises_ret|].
  apply (raises_bind (body x) (λ _, py_for l body)); [apply Hbody|done].
Qed.
End raises.

Section own_parent.
Variable names : list Name.
Variable c : Class_.
Hypothesis names_NoDup : NoDup (name_of <$> names).
Hypothesis names_well_formed : Forall well_formed names.
Hypothesis c_declared : ClassName c ∈ names.

Lemma raises_visit define typ :
  (∀ o, o ∈ names → raises_only_recursion (define o)) →
  raises_only_recursion (visit_parent (name_map_of names) define typ)
  ∧ raises_only_recursion (visit_token (name_map_of names) define typ).
Proof.
  intros Hdef. split; intros st e st'; unfold visit_parent, visit_token;
    (destruct (bool_decide _); [done|]);
    (destruct (name_map_of names !! typ) as [o|] eqn:E; [|done]);
    apply name_map_of_key in E as [Ho _].
  - apply (Hdef o Ho).
  - destruct (define o st) as [[[]|e1] st1] eqn:Hrun; [done|].
    pose proof (Hdef o Ho _ _ _ Hrun) as ->. done.
Qed.

Lemma raises_define_name depth o :
  o ∈ names → raises_only_recursion (define_name (name_map_of names) depth o).
Proof.
  revert o. induction depth as [|depth IH]; intros o Ho.
  { by intros st e st' [= <- <-]. }
  pose proof (proj1 (Forall_forall _ _) names_well_formed o Ho) as Hwf.
  destruct o as [c'|v]; cbn [define_name].
  - destruct Hwf as [[parents Hps] [variables Hvs]]. rewrite Hps, Hvs.
    repeat first
      [ apply raises_bind; [|intros ?]
      | apply raises_for; intros ?
      | apply raises_ret | apply raises_modify
      | by apply raises_visit
      | unfold visit_variable; destruct (truthy _) ].
  - case_bool_decide as Hann.
    + destruct (Hwf Hann) as [value Hval]. rewrite Hval.
      repeat first
        [ apply raises_bind; [|intros ?]
        | apply raises_for; intros ?
        | apply raises_ret | apply raises_modify
        | by apply raises_visit ].
    + repeat first
        [ apply raises_bind; [|intros ?]
        | apply raises_ret | apply raises_modify ].
Qed.

Lemma preserves_visit define typ :
  (∀ o, o ∈ names → preserves (not_defined (cls_name c)) (define o)) →
  preserves (not_defined (cls_name c)) (visit_parent (name_map_of names) define typ)
  ∧ preserves (not_defined (cls_name c)) (visit_token (name_map_of names) define typ).
Proof.
  intros Hdef. split; intros st Hst; unfold visit_parent, visit_token;
    (destruct (bool_decide _); [done|]);
    (destruct (name_map_of names !! typ) as [o|] eqn:E; [|done]);
    apply name_map_of_key in E as [Ho _];
    specialize (Hdef o Ho st Hst).
  - done.
  - destruct (define o st) as [[[]|[]] st1]; done.
Qed.

Lemma preserves_raise {S' A} (I : S' → Prop) e : preserves I (@py_raise S' A e).
Proof. by intros σ. Qed.

Lemma preserves_iterable {S' A} (I : S' → Prop) (o : option A) :
  preserves I (@iterable A S' o).
Proof. destruct o; [apply preserves_ret|apply preserves_raise]. Qed.

Hypothesis own_parent : ∃ parents, cls_parents c = Some parents ∧ cls_name c ∈ parents.

Lemma c_lookup : name_map_of names !! cls_name c = Some (ClassName c).
Proof. by apply name_map_of_lookup. Qed.

Lemma own_parent_raises depth :
  ∀ o, o ∈ names →
    preserves (not_defined (cls_name c)) (define_name (name_map_of names) depth o)
    ∧ (name_of o = cls_name c → ∀ st, not_defined (cls_name c) st →
         ∃ st', define_name (name_map_of names) depth o st = (Raise RecursionError, st')).
Proof.
  induction depth as [|depth IH]; intros o Ho.
  { split; [by intros st|]. intros _ st _. by exists st. }
  assert (name_of o = cls_name c → ∀ st, not_defined (cls_name c) st →
          ∃ st', define_name (name_map_of names) (S depth) o st
                 = (Raise RecursionError, st')
                 ∧ not_defined (cls_name c) st') as Hraise.
  { intros Hname. assert (o = ClassName c) as ->.
    { by apply (name_of_inj names). }
    destruct own_parent as (parents & Hps & Hin). intros st Hst.
    cbn [define_name]. unfold mbind, py_mbind, py_bind, iterable, py_ret.
    rewrite Hps.
    assert (∃ st', py_for parents
                     (visit_parent (name_map_of names)
                        (define_name (name_map_of names) depth)) st
                   = (Raise RecursionError, st')
                   ∧ not_defined (cls_name c) st') as (st' & -> & Hst').
    { clear Hps. revert st Hst.
      induction parents as [|p parents IHp]; intros st Hst;
        [by apply elem_of_nil in Hin|].
      rewrite py_for_cons.
      pose proof (proj1 (preserves_visit (define_name (name_map_of names) depth) p
                           (λ o' Ho', proj1 (IH o' Ho'))) st Hst) as Hkeep.
      destruct (decide (p = cls_name c)) as [->|Hne].
      - unfold visit_parent in *.
        rewrite bool_decide_eq_false_2 in * by done. rewrite c_lookup in *.
        destruct (proj2 (IH (ClassName c) c_declared) eq_refl st Hst) as [st1 Hrun].
        rewrite Hrun in *. by exists st1.
      - apply elem_of_cons in Hin as [?|Hin]; [done|].
        destruct (visit_parent _ _ p st) as [[[]|e] st1] eqn:Hrun; simpl in Hkeep.
        + by apply IHp.
        + exists st1. split; [|done]. f_equal. f_equal.
          eapply (proj1 (raises_visit _ p (raises_define_name depth))), Hrun. }
    by exists st'. }
  split; [|intros Hname st Hst; destruct (Hraise Hname st Hst) as (st' & ? & _);
           by exists st'].
  destruct (decide (name_of o = cls_name c)) as [Hname|Hname].
  { intros st Hst. destruct (Hraise Hname st Hst) as (st' & -> & Hst'). done. }
  assert (∀ typ, preserves (not_defined (cls_name c))
                   (visit_parent (name_map_of names)
                      (define_name (name_map_of names) depth) typ)
                 ∧ preserves (not_defined (cls_name c))
                     (visit_token (name_map_of names)
                        (define_name (name_map_of names) depth) typ)) as Hvisit.
  { intros typ. apply preserves_visit. intros o' Ho'. apply (IH o' Ho'). }
  assert (preserves (not_defined (cls_name c))
            (py_modify (λ st, st ++ [name_of o]))) as Happend.
  { apply preserves_modify. intros st Hst. unfold not_defined in *.
    rewrite not_elem_of_app, list_elem_of_singleton. by split. }
  destruct o as [c'|v]; cbn [define_name];
    repeat first
      [ apply preserves_bind; [|intros ?]
      | apply preserves_iterable
      | apply preserves_for; intros ?
      | apply preserves_ret
      | exact Happend
      | apply Hvisit
      | unfold visit_variable; destruct (truthy _)
      | destruct (bool_decide _) ].
Qed.
End own_parent.

(** X9. A class that names itself among its parents makes the orderer raise
    [RecursionError] at every recursion limit, whatever else is declared:
    what the recursion raises below a parent is caught nowhere. *)
Theorem ordered_names_own_parent names c parents limit :
  NoDup (name_of <$> names) →
  Forall well_formed names →
  ClassName c ∈ names →
  cls_parents c = Some parents →
  cls_name c ∈ parents →
  ordered_names limit names = Raise RecursionError.
Proof.
  intros Hnodup Hwf Hc Hps Hin.
  assert (∃ ps, cls_parents c = Some ps ∧ cls_name c ∈ ps) as Hown by eauto.
  assert (∀ l st, (∀ o, o ∈ l → o ∈ names) → ClassName c ∈ l →
                  not_defined (cls_name c) st →
                  ∃ st', py_for l (define_name (name_map_of names) limit) st
                         = (Raise RecursionError, st')) as Hloop.
  { induction l as [|o l IH]; intros st Hl Hcl Hst; [by apply elem_of_nil in Hcl|].
    rewrite py_for_cons.
    destruct (own_parent_raises names c Hnodup Hwf Hc Hown limit o)
      as [Hkeep Hraise]; [apply Hl; left|].
    specialize (Hkeep st Hst).
    destruct (decide (name_of o = cls_name c)) as [Hname|Hname].
    - destruct (Hraise Hname st Hst) as [st' ->]. by exists st'.
    - apply elem_of_cons in Hcl as [Heq|Hcl]; [by subst o|].
      destruct (define_name _ limit o st) as [[[]|e] st1] eqn:Hrun; simpl in Hkeep.
      + apply IH; [|done..]. intros o' Ho'. apply Hl. by right.
      + exists st1. f_equal. f_equal.
        eapply (raises_define_name names Hwf limit o), Hrun. apply Hl. left. }
  unfold ordered_names.
  destruct (Hloop names []) as [st' ->]; [done|done|apply not_elem_of_nil|done].
Qed.

(** ** Structures and the store *)

Lemma set_properties_same tp : set_properties (st_properties tp) tp = tp.
Proof. by destruct tp. Qed.

Lemma set_properties_twice ps ps' tp :
  set_properties ps (set_properties ps' tp) = set_properties ps tp.
Proof. done. Qed.

Lemma only_extended_refl self_ store : only_extended self_ store store.
Proof.
  split; [done|]. split; [done|]. intros tp Htp. exists [].
  by rewrite app_nil_r, set_properties_same.
Qed.

Lemma only_extended_alter self_ store tp more :
  store !! self_ = Some tp →
  only_extended self_ store
    (alter (set_properties (st_properties tp ++ more)) self_ store).
Proof.
  intros Htp. split; [apply length_alter|]. split.
  - intros j Hj. by rewrite list_lookup_alter_ne.
  - intros tp' Htp'. rewrite Htp in Htp'. injection Htp' as <-.
    exists more. by rewrite list_lookup_alter_eq, Htp.
Qed.

Lemma only_extended_trans self_ s1 s2 s3 :
  only_extended self_ s1 s2 → only_extended self_ s2 s3 →
  only_extended self_ s1 s3.
Proof.
  intros (Hlen1 & Hother1 & Hself1) (Hlen2 & Hother2 & Hself2).
  split; [congruence|]. split.
  - intros j Hj. by rewrite Hother2, Hother1.
  - intros tp Htp. destruct (Hself1 tp Htp) as [more1 H1].
    destruct (Hself2 _ H1) as [more2 H2]. exists (more1 ++ more2).
    rewrite H2. simpl. by rewrite app_assoc.
Qed.

Lemma extend_mixins_frame maps self_ aliased mixins :
  ∀ properties store r store',
    (aliased = true →
       ∃ tp, store !! self_ = Some tp ∧ st_properties tp = properties) →
    extend_mixins maps self_ aliased mixins properties store = (r, store') →
    only_extended self_ store store' ∧ (aliased = false → store' = store).
Proof.
  induction mixins as [|mixin mixins IH]; intros properties store r store' Halias.
  { intros [= <- <-]. split; [apply only_extended_refl|done]. }
  simpl. destruct (pull_reference maps mixin) as [ref|e];
    [|intros [= <- <-]; split; [apply only_extended_refl|done]].
  destruct (store !! ref) as [ref_obj|] eqn:Href;
    [|intros [= <- <-]; split; [apply only_extended_refl|done]].
  destruct aliased.
  - destruct (Halias eq_refl) as (tp & Htp & <-). intros Hrun.
    apply IH in Hrun as [Hext _].
    + split; [|done]. eapply only_extended_trans; [|exact Hext].
      by apply only_extended_alter.
    + intros _. eexists. rewrite list_lookup_alter_eq, Htp. by split.
  - intros Hrun. apply IH in Hrun as [Hext Hsame]; [|done].
    split; [done|]. intros _. by apply Hsame.
Qed.

Lemma structure_store maps self_ store r store' :
  structure maps self_ store = (r, store') →
  only_extended self_ store store'
  ∧ (∀ tp, store !! self_ = Some tp → st_properties tp = [] → store' = store).
Proof.
  unfold structure. destruct (store !! self_) as [tp|] eqn:Htp.
  2:{ intros [= <- <-]. split; [apply only_extended_refl|done]. }
  destruct (match st_extends tp with
            | Some (p :: ps) => comprehension type_ (p :: ps)
            | _ => Done ["TypedDict"]
            end) as [parents|e].
  2:{ intros [= <- <-]. split; [apply only_extended_refl|done]. }
  destruct (extend_mixins _ _ _ _ _ _) as [r1 store1] eqn:Hext.
  apply extend_mixins_frame in Hext as [Hext Hsame].
  2:{ intros _. by exists tp. }
  intros Hrun.
  assert (store' = store1) as ->.
  { destruct r1 as [properties|e]; [|by injection Hrun].
    destruct (comprehension property properties); by injection Hrun. }
  split; [done|]. intros tp' [= <-] Hnil. apply Hsame. by rewrite Hnil.
Qed.

(** X10. Compiling a structure, whether it returns or raises, changes no
    other structure of the model; the structure itself keeps its name, its
    [extends] and its [mixins] and can only have properties appended to its
    list; a structure without own properties is left as it was. *)
Theorem structure_frame maps self_ store r store' :
  structure maps self_ store = (r, store') →
  only_extended self_ store store'
  ∧ (∀ tp, store !! self_ = Some tp → st_properties tp = [] → store' = store).
Proof. apply structure_store. Qed.


Lemma extend_mixins_elsewhere maps self_ aliased mixins initial :
  mixins_elsewhere maps initial self_ mixins →
  ∀ properties store,
    length store = length initial →
    (∀ j, j ≠ self_ → store !! j = initial !! j) →
    ∃ store',
      extend_mixins maps self_ aliased mixins properties store
      = (Done (properties ++
               concat ((λ mixin, from_option (λ t, st_properties t.2) []
                                   (mixin_target maps initial mixin)) <$> mixins)),
         store')
      ∧ (∀ j, j ≠ self_ → store' !! j = initial !! j).
Proof.
  induction 1 as [|mixin mixins (ref & tp & Htarget & Hne) _ IH];
    intros properties store Hlen Hother.
  { exists store. simpl. by rewrite app_nil_r. }
  simpl. rewrite Htarget. simpl.
  destruct mixin as [|name| | | | | | | | |]; try discriminate Htarget.
  simpl in Htarget |- *.
  destruct (maps !! name) as [ref'|] eqn:Hmap; [|discriminate].
  simpl in Htarget. destruct (initial !! ref') as [tp'|] eqn:Href; [|discriminate].
  injection Htarget as -> ->.
  rewrite (Hother ref Hne), Href.
  destruct (IH (properties ++ st_properties tp)
              (if aliased
               then alter (set_properties (properties ++ st_properties tp)) self_ store
               else store)) as (store' & -> & Hother').
  - destruct aliased; [by rewrite length_alter|done].
  - intros j Hj. destruct aliased; [|by apply Hother].
    rewrite list_lookup_alter_ne by done. by apply Hother.
  - exists store'. by rewrite <- app_assoc.
Qed.

(** X11. When every mixin of a structure names a structure of the store
    other than itself, the compiled class has for variables the compiled
    own properties followed, mixin by mixin, by the compiled properties the
    named structures hold in the store at that moment. *)
Theorem structure_flattened maps self_ store tp parents variables :
  store !! self_ = Some tp →
  mixins_elsewhere maps store self_ (default [] (st_mixins tp)) →
  match st_extends tp with
  | Some (p :: ps) => comprehension type_ (p :: ps)
  | _ => Done ["TypedDict"]
  end = Done parents →
  comprehension property (flattened maps store tp) = Done variables →
  ∃ store',
    structure maps self_ store
    = (Done {| cls_name := st_name tp; cls_variables := Some variables;
               cls_methods := None; cls_parents := Some parents;
               cls_docstring := st_documentation tp |}, store').
Proof.
  intros Htp Hmixins Hparents Hvars. unfold structure. rewrite Htp, Hparents.
  destruct (extend_mixins_elsewhere maps self_
              (negb (is_nil (st_properties tp))) (default [] (st_mixins tp))
              store Hmixins (st_properties tp) store eq_refl (λ _ _, eq_refl))
    as (store' & -> & _).
  unfold flattened in Hvars. rewrite Hvars. by exists store'.
Qed.

(** ** The type compiler *)

Lemma type_items items :
  (fix each l : result (list string) :=
     match l with
     | [] => Done []
     | c :: l' => x ← type_ c; xs ← each l'; Done (x :: xs)
     end) items = comprehension type_ items.
Proof. induction items as [|c l IH]; [done|]. simpl. by rewrite IH. Qed.

Lemma type_properties properties :
  (fix each l : result (list Variable_) :=
     match l with
     | [] => Done []
     | p :: l' => x ← property p; xs ← each l'; Done (x :: xs)
     end) properties = comprehension property properties.
Proof. induction properties as [|c l IH]; [done|]. simpl. by rewrite IH. Qed.

Lemma literal_free_items items :
  (fix all l := match l with
                | [] => true
                | c :: l' => literal_free c && all l'
                end) items = forallb literal_free items.
Proof. induction items as [|c l IH]; [done|]. simpl. by rewrite IH. Qed.

Lemma comprehension_total {A B} (f : A → result B) l :
  Forall (λ a, ∃ b, f a = Done b) l → ∃ bs, comprehension f l = Done bs.
Proof.
  induction 1 as [|a l [b Hb] _ [bs IH]]; [by eexists|].
  simpl. rewrite Hb, IH. by eexists.
Qed.

Lemma comprehension_raises {A B} (f : A → result B) l e :
  comprehension f l = Raise e → ∃ a, a ∈ l ∧ f a = Raise e.
Proof.
  induction l as [|a l IH]; [discriminate|]. simpl.
  destruct (f a) as [b|e'] eqn:Hfa; simpl.
  - destruct (comprehension f l) as [bs|e'']; [discriminate|].
    intros [= <-]. destruct (IH eq_refl) as (a' & Ha' & Hf).
    exists a'. split; [by right|done].
  - intros [= <-]. exists a. split; [left|done].
Qed.

Lemma type_literal_free : ∀ tp, literal_free tp = true → ∃ code, type_ tp = Done code.
Proof.
  fix IH 1. intros tp.
  assert (∀ items, forallb literal_free items = true →
                   ∃ codes, comprehension type_ items = Done codes) as Hitems.
  { intros items Hall. apply comprehension_total.
    induction items as [|c l IHl]; [constructor|].
    simpl in Hall. apply andb_true_iff in Hall as [Hc Hl].
    constructor; [by apply IH|by apply IHl]. }
  destruct tp as [name|name|element|key value|items|items|items|properties
                 |value|value|value]; simpl; try (intros _; by eexists).
  - intros Hfree. destruct (IH element Hfree) as [code ->]. by eexists.
  - intros Hfree. destruct (IH value Hfree) as [code ->]. by eexists.
  - rewrite literal_free_items, type_items. intros Hfree.
    destruct (Hitems items Hfree) as [codes ->]. by eexists.
  - rewrite literal_free_items, type_items. intros Hfree.
    destruct (Hitems items Hfree) as [codes ->]. by eexists.
  - rewrite literal_free_items, type_items. intros Hfree.
    destruct (Hitems items Hfree) as [codes ->]. by eexists.
  - discriminate.
Qed.

Lemma type_raises_TypeError : ∀ tp e, type_ tp = Raise e → e = TypeError.
Proof.
  fix IH 1. intros tp e.
  assert (∀ items, (∀ c, c ∈ items → ∀ e, type_ c = Raise e → e = TypeError) →
                   comprehension type_ items = Raise e → e = TypeError) as Hitems.
  { intros items Hall (c & Hc & He)%comprehension_raises. by eapply Hall. }
  assert (∀ items : list Type_,
            ∀ c, c ∈ items → ∀ e, type_ c = Raise e → e = TypeError) as Hall.
  { induction items as [|c l IHl]; intros c' Hc'; [by apply elem_of_nil in Hc'|].
    apply elem_of_cons in Hc' as [->|Hc']; [apply IH|by apply IHl]. }
  destruct tp as [name|name|element|key value|items|items|items|properties
                 |value|value|value]; simpl; try discriminate.
  - destruct (type_ element) as [code|e'] eqn:E; [discriminate|].
    intros [= <-]. by apply (IH element).
  - destruct (type_ value) as [code|e'] eqn:E; [discriminate|].
    intros [= <-]. by apply (IH value).
  - rewrite type_items.
    destruct (comprehension type_ items) as [codes|e'] eqn:E; [discriminate|].
    intros [= <-]. apply (Hitems items); [apply Hall|done].
  - rewrite type_items.
    destruct (comprehension type_ items) as [codes|e'] eqn:E; [discriminate|].
    intros [= <-]. apply (Hitems items); [apply Hall|done].
  - rewrite type_items.
    destruct (comprehension type_ items) as [codes|e'] eqn:E; [discriminate|].
    intros [= <-]. apply (Hitems items); [apply Hall|done].
  - rewrite type_properties.
    destruct (comprehension property properties) as [vars|e'] eqn:E.
    + destruct vars; [discriminate|]. by intros [= <-].
    + intros [= <-]. apply comprehension_raises in E as (p & Hp & He).
      destruct p as [pname ptype optional documentation]. simpl in He.
      destruct (type_ ptype) as [code|e''] eqn:E'; [discriminate|].
      injection He as <-.
      assert (∀ ps : list Property, ∀ p, p ∈ ps →
                ∀ e, type_ (Property_type p) = Raise e → e = TypeError) as Hprops.
      { induction ps as [|p l IHl]; intros p' Hp'; [by apply elem_of_nil in Hp'|].
        apply elem_of_cons in Hp' as [->|Hp']; [|by apply IHl].
        destruct p as [? ptype' ? ?]. simpl. apply IH. }
      by apply (Hprops properties _ Hp).
Qed.

Lemma type_structure_literal properties :
  type_ (StructureLiteralType properties)
  = (vars ← comprehension property properties;
     match vars with
     | [] => Done ("Literal[" +:+ repr_str EmptyString +:+ "]")
     | _ :: _ => Raise TypeError
     end).
Proof. simpl. by rewrite type_properties. Qed.

(** X12. The type compiler returns a type expression for every type that
    holds no structure literal; whatever it raises is a [TypeError]; and it
    raises one for every structure literal with at least one property whose
    properties compile, because it joins the compiled properties, which are
    no strings. *)
Theorem type_compiles tp :
  (literal_free tp = true → ∃ code, type_ tp = Done code)
  ∧ (∀ e, type_ tp = Raise e → e = TypeError)
  ∧ (∀ p properties variables,
       tp = StructureLiteralType (p :: properties) →
       comprehension property (p :: properties) = Done variables →
       type_ tp = Raise TypeError).
Proof.
  split; [apply type_literal_free|]. split; [apply type_raises_TypeError|].
  intros p properties variables -> Hvars.
  rewrite type_structure_literal, Hvars. simpl.
  destruct variables; [|done].
  simpl in Hvars. destruct (property p); [|discriminate].
  simpl in Hvars. destruct (comprehension property properties); discriminate.
Qed.

(** ** The identifier of a message *)

Lemma chr_lower_no_AZ c : is_AZ (chr_lower c) = false.
Proof. destruct c as [[] [] [] [] [] [] [] []]; vm_compute; reflexivity. Qed.

Lemma chr_lower_twice c : chr_lower (chr_lower c) = chr_lower c.
Proof. destruct c as [[] [] [] [] [] [] [] []]; vm_compute; reflexivity. Qed.

Lemma lower_no_AZ s : no_AZ (lower s) = true.
Proof.
  induction s as [|c s IH]; [done|].
  change (negb (is_AZ (chr_lower c)) && no_AZ (lower s) = true).
  by rewrite chr_lower_no_AZ, IH.
Qed.

Lemma lower_twice s : lower (lower s) = lower s.
Proof.
  induction s as [|c s IH]; [done|].
  change (String (chr_lower (chr_lower c)) (lower (lower s))
          = String (chr_lower c) (lower s)).
  by rewrite chr_lower_twice, IH.
Qed.

Lemma sub_boundaries_no_AZ s : no_AZ s = true → sub_boundaries s = s.
Proof.
  rewrite sub_boundaries_separate.
  induction s as [|c1 s IH]; [done|]. intros H. simpl in H.
  apply andb_true_iff in H as [Hc Hs]. destruct s as [|c2 s]; [done|].
  rewrite separate_cons2, (IH Hs).
  simpl in Hs. apply andb_true_iff in Hs as [Hc2 _].
  apply negb_true_iff in Hc2. by rewrite Hc2, andb_false_r.
Qed.

Lemma length_lower s : String.length (lower s) = String.length s.
Proof.
  induction s as [|c s IH]; [done|].
  change (S (String.length (lower s)) = S (String.length s)). by rewrite IH.
Qed.

Lemma length_separate boundary s :
  (String.length s ≤ String.length (separate boundary s))%nat
  ∧ (String.length (separate boundary s) ≤ 2 * String.length s)%nat.
Proof.
  induction s as [|c1 s IH]; [simpl; lia|].
  destruct s as [|c2 s]; [simpl; lia|].
  rewrite separate_cons2. destruct (boundary c1 c2); simpl in *; lia.
Qed.

(** X13. The identifier [to_snake_case] makes holds no character of [A-Z];
    it keeps every character of the type name, adding at most one separator
    per character; and making the identifier of an identifier changes
    nothing. *)
Theorem to_snake_case_normal text :
  no_AZ (to_snake_case text) = true
  ∧ to_snake_case (to_snake_case text) = to_snake_case text
  ∧ (String.length text ≤ String.length (to_snake_case text))%nat
  ∧ (String.length (to_snake_case text) ≤ 2 * String.length text)%nat.
Proof.
  split; [apply lower_no_AZ|]. split.
  - unfold to_snake_case at 1.
    rewrite sub_boundaries_no_AZ by apply lower_no_AZ.
    unfold to_snake_case. apply lower_twice.
  - unfold to_snake_case. rewrite length_lower, sub_boundaries_separate.
    apply length_separate.
Qed.

(** ** Reading the output properties *)

(** X14. Reading an output property changes the generator: a returned
    [server_code] or [client_code] has appended one more [handle] method to
    its dispatcher class, the returned code holding that class, so that a
    second read returns a class with two; and [types_code], whatever it
    returns once the code is generated, has put the four base aliases in
    front of the types list again. *)
Theorem reading_appends g :
  (∀ code g1, server_code g = (Done code, g1) →
     ∃ ms, cls_methods (_server g) = Some ms
           ∧ cls_methods (_server g1)
             = Some (ms ++ [handle_function (_server_handle_map g)])
           ∧ NameCode (ClassName (_server g1)) ∈ code
           ∧ _server_handle_map g1 = _server_handle_map g
           ∧ _is_generated g1 = true)
  ∧ (∀ code g1, client_code g = (Done code, g1) →
       ∃ ms, cls_methods (_client g) = Some ms
             ∧ cls_methods (_client g1)
               = Some (ms ++ [handle_function (_client_handle_map g)])
             ∧ NameCode (ClassName (_client g1)) ∈ code
             ∧ _client_handle_map g1 = _client_handle_map g
             ∧ _is_generated g1 = true)
  ∧ (∀ limit r g1, _is_generated g = true → types_code limit g = (r, g1) →
       _types g1 = base_aliases ++ _types g).
Proof.
  split; [|split].
  - intros code g1. unfold server_code, server_append, methods_append.
    destruct (_is_generated g) eqn:Hflag; [|discriminate]. simpl.
    destruct (cls_methods (_server g)) as [ms|] eqn:Hms; [|discriminate].
    unfold dispatcher_code.
    destruct (resolve _ _) as [imports|e]; [|discriminate]. simpl.
    intros [= <- <-]. exists ms. simpl. repeat split; try done. set_solver.
  - intros code g1. unfold client_code, client_append, methods_append.
    destruct (_is_generated g) eqn:Hflag; [|discriminate]. simpl.
    destruct (cls_methods (_client g)) as [ms|] eqn:Hms; [|discriminate].
    unfold dispatcher_code.
    destruct (resolve _ _) as [imports|e]; [|discriminate]. simpl.
    intros [= <- <-]. exists ms. simpl. repeat split; try done. set_solver.
  - intros limit r g1 Hflag. unfold types_code. rewrite Hflag. simpl.
    destruct (ordered_names _ _); by intros [= <- <-].
Qed.

(** ** Defaults of a [TypedDict] *)

Module utils_more.
Import utils utils_keys.

Lemma value_of_key_lookup only_required recursive key type_hints :
  value_of_key (_get_type_default only_required recursive) key type_hints
  = match dict_get key type_hints with
    | Some type_ => value_for only_required recursive key type_
    | None => Raise (KeyError key)
    end.
Proof.
  induction type_hints as [|[key' type_] type_hints IH]; [done|].
  simpl. by destruct (String.eqb key key').
Qed.

(** The loop, for keys not yet in the dictionary: it returns only if the
    value of every key is computed, and then holds these values under the
    keys, in the order of the loop, after what it held. *)
Lemma typeddict_data_keys only_required recursive type_hints keys :
  ∀ data result_,
    NoDup keys → (∀ key, key ∈ keys → key ∉ data.*1) →
    typeddict_data (_get_type_default only_required recursive) type_hints keys data
    = Done result_ →
    result_.*1 = data.*1 ++ keys
    ∧ (∀ key, key ∉ keys → dict_get key result_ = dict_get key data)
    ∧ (∀ key, key ∈ keys →
         ∃ type_ v, dict_get key type_hints = Some type_
                    ∧ value_for only_required recursive key type_ = Done v
                    ∧ dict_get key result_ = Some v).
Proof.
  induction keys as [|key keys IH]; intros data result_ Hnodup Hfresh.
  { intros [= <-]. rewrite app_nil_r. split; [done|]. split; [done|].
    by intros key Hin%elem_of_nil. }
  apply NoDup_cons in Hnodup as [Hnotin Hnodup].
  simpl. rewrite value_of_key_lookup.
  destruct (dict_get key type_hints) as [type_|] eqn:Htype; [|discriminate].
  destruct (value_for only_required recursive key type_) as [v|e] eqn:Hv;
    [|discriminate].
  simpl. intros Hrun.
  assert (key ∉ data.*1) as Hkey by (apply Hfresh; left).
  assert (∀ k, k ∈ keys → k ∉ (dict_set key v data).*1) as Hfresh'.
  { intros k Hk. rewrite dict_set_keys, bool_decide_false by done.
    intros [Hin|Hin%list_elem_of_singleton]%elem_of_app.
    - by apply (Hfresh k); [right|].
    - by subst k. }
  apply (IH _ _ Hnodup Hfresh') in Hrun as (Hkeys & Hother & Hvalues).
  rewrite dict_set_keys, bool_decide_false in Hkeys by done.
  split; [by rewrite Hkeys, <- app_assoc|]. split.
  - intros k Hk. rewrite Hother.
    + apply dict_get_set_ne. intros ->. apply Hk. left.
    + intros Hin. apply Hk. by right.
  - intros k [->|Hk]%elem_of_cons; [|by apply Hvalues].
    exists type_, v. split; [done|]. split; [done|].
    rewrite (Hother key Hnotin). apply dict_get_set_eq.
Qed.

(** X15. A default that [get_default_value] returns is a dictionary whose
    keys are exactly the keys of the loop, in its order: the keys of the
    hints in declaration order, or the required keys, in the order the
    frozen set yields them, when [only_required] is set.  Each key holds
    the value computed from its own hint: for a key named ["valueSet"]
    what [_get_valueset_default] returns, for any other key the default of
    its type. *)
Theorem get_default_value_keys type_hints required_keys only_required recursive val :
  NoDup (keys_of only_required type_hints required_keys) →
  get_default_value type_hints required_keys only_required recursive = Done val →
  ∃ data,
    val = VDict data
    ∧ data.*1 = keys_of only_required type_hints required_keys
    ∧ ∀ key, key ∈ data.*1 →
        ∃ type_ v,
          dict_get key type_hints = Some type_
          ∧ dict_get key data = Some v
          ∧ (if String.eqb key "valueSet" then _get_valueset_default type_
             else _get_type_default only_required recursive type_) = Done v.
Proof.
  intros Hnodup. unfold get_default_value, _get_typeddict_default.
  destruct (typeddict_data _ _ _ _) as [data|e] eqn:Hdata; [|discriminate].
  intros [= <-]. exists data. split; [done|].
  apply typeddict_data_keys in Hdata as (Hkeys & _ & Hvalues);
    [|done|by intros key _ Hin%elem_of_nil].
  simpl in Hkeys. split; [done|]. intros key Hin. rewrite Hkeys in Hin.
  destruct (Hvalues key Hin) as (type_ & v & Htype & Hv & Hget).
  by exists type_, v.
Qed.

Lemma valueset_returns typ val :
  _get_valueset_default typ = Done val →
  ∃ text items values rest,
    typ = ListOf (EnumInstance text (Some items) :: rest)
    ∧ items = Some <$> values ∧ val = VList values.
Proof.
  unfold _get_valueset_default.
  destruct typ as [ | | | | |args|args|args|args|name hints keys|text it|text|text];
    try discriminate; destruct args as [|a args]; try discriminate.
  destruct a; try discriminate. unfold values_of.
  destruct iteration as [items|]; [|discriminate].
  intros Hrun. exists text, items.
  assert (∃ values, items = Some <$> values ∧ val = VList values)
    as (values & -> & ->); [|by eexists _, _].
  destruct (comprehension _ items) as [values|e] eqn:Hvalues; [|discriminate].
  injection Hrun as <-. exists values. split; [|done].
  revert values Hvalues. induction items as [|[v|] items IH]; intros values; simpl.
  - by intros [= <-].
  - destruct (comprehension _ items) as [values'|e]; [|discriminate].
    intros [= <-]. simpl. f_equal. by apply IH.
  - discriminate.
Qed.

(** X16. A key named ["valueSet"] that the loop goes through gets a value
    only when its hint is a list whose first argument is an instance of
    [Enum] that can be iterated, every item having a [value]: its default
    is then the list of these values.  With any other hint, a list of an
    [Enum] class among them, [get_default_value] raises, whatever the
    other keys are. *)
Theorem get_default_value_valueSet type_hints required_keys only_required recursive
    type_ :
  NoDup (keys_of only_required type_hints required_keys) →
  "valueSet" ∈ keys_of only_required type_hints required_keys →
  dict_get "valueSet" type_hints = Some type_ →
  (∀ val, get_default_value type_hints required_keys only_required recursive
          = Done val →
     ∃ text values rest data,
       type_ = ListOf (EnumInstance text (Some (Some <$> values)) :: rest)
       ∧ val = VDict data
       ∧ dict_get "valueSet" data = Some (VList values))
  ∧ (list_of_enum_instance type_ = false →
       ∃ e, get_default_value type_hints required_keys only_required recursive
            = Raise e).
Proof.
  intros Hnodup Hin Htype.
  assert (∀ val, get_default_value type_hints required_keys only_required recursive
                 = Done val →
            ∃ text values rest data,
              type_ = ListOf (EnumInstance text (Some (Some <$> values)) :: rest)
              ∧ val = VDict data
              ∧ dict_get "valueSet" data = Some (VList values)) as Hreturns.
  { intros val. unfold get_default_value, _get_typeddict_default.
    destruct (typeddict_data _ _ _ _) as [data|e] eqn:Hdata; [|discriminate].
    intros [= <-].
    apply typeddict_data_keys in Hdata as (_ & _ & Hvalues);
      [|done|by intros key _ Hin'%elem_of_nil].
    destruct (Hvalues _ Hin) as (type_' & v & Htype' & Hv & Hget).
    rewrite Htype in Htype'. injection Htype' as <-.
    unfold value_for in Hv. simpl in Hv.
    apply valueset_returns in Hv as (text & items & values & rest & -> & -> & ->).
    by exists text, values, rest, data. }
  split; [exact Hreturns|]. intros Hshape.
  destruct (get_default_value _ _ _ _) as [val|e] eqn:Hrun; [|by exists e].
  destruct (Hreturns val eq_refl) as (text & values & rest & data & -> & _).
  discriminate Hshape.
Qed.
End utils_more.

(** ** What [generate] leaves behind *)

Lemma extended_refl tp : extended tp tp.
Proof. exists []. by rewrite app_nil_r, set_properties_same. Qed.

Lemma extended_trans tp1 tp2 tp3 :
  extended tp1 tp2 → extended tp2 tp3 → extended tp1 tp3.
Proof.
  intros [more1 ->] [more2 ->]. exists (more1 ++ more2). simpl.
  by rewrite app_assoc.
Qed.

Lemma extended_name tp tp' : extended tp tp' → st_name tp' = st_name tp.
Proof. by intros [more ->]. Qed.

Lemma only_extended_all self_ store store' :
  only_extended self_ store store' → Forall2 extended store store'.
Proof.
  intros (Hlen & Hother & Hself). apply Forall2_same_length_lookup.
  split; [done|]. intros j tp tp' Htp Htp'.
  destruct (decide (j = self_)) as [->|Hne].
  - destruct (Hself tp Htp) as [more Hmore]. rewrite Hmore in Htp'.
    injection Htp' as <-. by exists more.
  - rewrite (Hother j Hne), Htp in Htp'. injection Htp' as <-.
    apply extended_refl.
Qed.

Lemma model_extended_refl m : model_extended m m.
Proof.
  repeat (split; [done|]). apply Forall_Forall2_diag, Forall_forall.
  intros tp _. apply extended_refl.
Qed.

Lemma structure_name_of maps self_ store c store' :
  structure maps self_ store = (Done c, store') →
  ∃ tp, store !! self_ = Some tp ∧ cls_name c = st_name tp.
Proof.
  unfold structure. destruct (store !! self_) as [tp|]; [|discriminate].
  destruct (match st_extends tp with
            | Some (p :: ps) => comprehension type_ (p :: ps)
            | _ => Done ["TypedDict"]
            end) as [parents|e]; [|discriminate].
  destruct (extend_mixins _ _ _ _ _ _) as [[properties|e] store1]; [|discriminate].
  destruct (comprehension property properties); [|discriminate].
  intros [= <- <-]. by exists tp.
Qed.

Lemma structure_names m :
  structure_name m <$> seq 0 (length (structures m)) = st_name <$> structures m.
Proof.
  unfold structure_name. apply list_eq. intros i.
  rewrite !list_lookup_fmap.
  destruct (structures m !! i) as [tp|] eqn:Htp.
  - rewrite (lookup_seq_lt _ _ _ (lookup_lt_Some _ _ _ Htp)). simpl.
    by rewrite Htp.
  - by rewrite (lookup_seq_ge _ _ _ (proj1 (lookup_ge_None _ _) Htp)).
Qed.

Section declares.
Variable J : CodeGenerator → Prop.

Lemma declares_ret : declares J [] (py_ret tt).
Proof.
  intros g Hg. split; [done|]. exists []. simpl. by rewrite app_nil_r.
Qed.

Lemma declares_bind l1 l2 (m k : Py CodeGenerator unit) :
  declares J l1 m → declares J l2 k → declares J (l1 ++ l2) (m ≫= λ _, k).
Proof.
  intros Hm Hk g Hg. unfold mbind, py_mbind, py_bind.
  destruct (Hm g Hg) as (HJ & la & Hpre & Hnames & Hdone).
  destruct (m g) as [[[]|e] g1]; simpl in *.
  - subst la. destruct (Hk g1 HJ) as (HJ2 & lb & Hpre2 & Hnames2 & Hdone2).
    split; [done|]. exists (l1 ++ lb). split; [by apply prefix_app|].
    split; [by rewrite Hnames2, Hnames, app_assoc|].
    destruct ((k g1).1); [by subst lb|done].
  - split; [done|]. exists la. split; [by apply prefix_app_r|]. done.
Qed.

Lemma declares_for {A} (f : A → string) (body : A → Py CodeGenerator unit) l :
  (∀ x, declares J [f x] (body x)) → declares J (f <$> l) (py_for l body).
Proof.
  intros Hbody. induction l as [|x l IH]; [apply declares_ret|].
  change (declares J ([f x] ++ (f <$> l)) (body x ≫= λ _, py_for l body)).
  apply declares_bind; [apply Hbody|done].
Qed.

Lemma declares_nothing (m : Py CodeGenerator unit) :
  (∀ g, J g → J (m g).2 ∧ _types (m g).2 = _types g) → declares J [] m.
Proof.
  intros Hm g Hg. destruct (Hm g Hg) as [HJ Htypes]. split; [done|].
  exists []. split; [done|]. unfold type_names. rewrite Htypes, app_nil_r.
  split; [done|]. by destruct ((m g).1).
Qed.

Lemma declares_append code :
  (∀ g l, J g → J (set_types l g)) →
  declares J [name_of code] (types_append code).
Proof.
  intros Hset g Hg. split; [by apply Hset|]. exists [name_of code].
  split; [done|]. split; [|done]. unfold type_names. simpl.
  by rewrite fmap_app.
Qed.
End declares.

(** The messages write to the dispatchers and to their tables only. *)
Section messages_frame.
Variable M : MetaModel.
Variable T : list Name.

Lemma kept_client_append f : preserves (kept M T) (client_append f).
Proof. intros g H. unfold client_append. by destruct (methods_append f (_client g)). Qed.

Lemma kept_server_append f : preserves (kept M T) (server_append f).
Proof. intros g H. unfold server_append. by destruct (methods_append f (_server g)). Qed.

Lemma kept_client_handle method handler : preserves (kept M T) (client_handle method handler).
Proof. by intros g H. Qed.

Lemma kept_server_handle method handler : preserves (kept M T) (server_handle method handler).
Proof. by intros g H. Qed.

Ltac kept_step :=
  first
    [ apply preserves_bind; [|intros ?]
    | apply preserves_when
    | apply preserves_lift
    | apply preserves_get
    | apply kept_client_append
    | apply kept_server_append
    | apply kept_client_handle
    | apply kept_server_handle ].

Lemma kept_request tp : preserves (kept M T) (request tp).
Proof. unfold request. repeat kept_step. Qed.

Lemma kept_notification tp : preserves (kept M T) (notification tp).
Proof. unfold notification. repeat kept_step. Qed.
End messages_frame.

Section generate_names.
Variable m : MetaModel.

Lemma J_set_types g l : (extends_model m) g → (extends_model m) (set_types l g).
Proof. done. Qed.

Lemma declares_request tp : declares (extends_model m) [] (request tp).
Proof.
  apply declares_nothing. intros g Hg.
  destruct (kept_request (model g) (_types g) tp g) as [Hmodel Htypes]; [done|].
  split; [|done]. unfold extends_model. by rewrite Hmodel.
Qed.

Lemma declares_notification tp : declares (extends_model m) [] (notification tp).
Proof.
  apply declares_nothing. intros g Hg.
  destruct (kept_notification (model g) (_types g) tp g) as [Hmodel Htypes]; [done|].
  split; [|done]. unfold extends_model. by rewrite Hmodel.
Qed.

Lemma declares_nothing_for {A} (body : A → Py CodeGenerator unit) l :
  (∀ x, declares (extends_model m) [] (body x)) → declares (extends_model m) [] (py_for l body).
Proof.
  intros Hbody. induction l as [|x l IH]; [apply declares_ret|].
  change (declares (extends_model m) ([] ++ []) (body x ≫= λ _, py_for l body)).
  apply declares_bind; [apply Hbody|done].
Qed.

Lemma declares_enumeration tp :
  declares (extends_model m) [en_name tp] (types_append (ClassName (enumeration tp))).
Proof. apply (declares_append (extends_model m) (ClassName (enumeration tp))), J_set_types. Qed.

Lemma declares_typealias tp :
  declares (extends_model m) [ta_name tp]
    (code ← py_lift (typealias tp); types_append (VariableName code)).
Proof.
  intros g Hg. unfold mbind, py_mbind, py_bind, py_lift, typealias.
  destruct (type_ (ta_type tp)) as [typ|e]; simpl.
  - split; [done|]. exists [ta_name tp]. split; [done|]. split; [|done].
    unfold type_names. simpl. by rewrite fmap_app.
  - split; [done|]. exists []. split; [apply prefix_nil|].
    by rewrite app_nil_r.
Qed.

Lemma declares_structure maps self_ :
  declares (extends_model m) [structure_name m self_]
    (code ← on_structures (structure maps self_); types_append (ClassName code)).
Proof.
  intros g (Hreq & Hntf & Hen & Hta & Hst).
  unfold mbind, py_mbind, py_bind, on_structures.
  destruct (structure maps self_ (structures (model g))) as [r store'] eqn:Hrun.
  pose proof (structure_store _ _ _ _ _ Hrun) as [Hext%only_extended_all _].
  assert ((extends_model m) (set_structures store' g)) as HJ.
  { repeat (split; [done|]). simpl.
    eapply Forall2_trans; [|exact Hst|exact Hext].
    intros ???. apply extended_trans. }
  destruct r as [c|e]; simpl.
  - split; [done|]. exists [structure_name m self_]. split; [done|].
    split; [|done]. unfold type_names. simpl. rewrite fmap_app. simpl.
    apply structure_name_of in Hrun as (tp & Htp & ->).
    unfold structure_name.
    destruct (Forall2_lookup_r _ _ _ _ _ Hst Htp) as (tp0 & -> & Htp0).
    simpl. by rewrite (extended_name _ _ Htp0).
  - split; [done|]. exists []. split; [apply prefix_nil|].
    by rewrite app_nil_r.
Qed.

Lemma declares_generate_loops :
  declares (extends_model m) (declared_names m) generate_loops.
Proof.
  intros g Hg. pose proof Hg as (Hreq & Hntf & Hen & Hta & Hst).
  unfold generate_loops.
  change ((g ← py_get; _) g) with
    ((py_for (enumerations (model g)) (λ tp,
        types_append (ClassName (enumeration tp)));;
      py_for (seq 0 (length (structures (model g)))) (λ self_,
        code ← on_structures (structure (_structure_maps g) self_);
        types_append (ClassName code));;
      py_for (typeAliases (model g)) (λ tp,
        code ← py_lift (typealias tp);
        types_append (VariableName code));;
      py_for (requests (model g)) request;;
      py_for (notifications (model g)) notification) g).
  rewrite Hreq, Hntf, Hen, Hta, <- (Forall2_length _ _ _ Hst).
  generalize (_structure_maps g). intros maps.
  assert (declares (extends_model m) (declared_names m)
    (py_for (enumerations m) (λ tp,
        types_append (ClassName (enumeration tp)));;
      py_for (seq 0 (length (structures m))) (λ self_,
        code ← on_structures (structure maps self_);
        types_append (ClassName code));;
      py_for (typeAliases m) (λ tp,
        code ← py_lift (typealias tp);
        types_append (VariableName code));;
      py_for (requests m) request;;
      py_for (notifications m) notification)) as Hloops.
  { unfold declared_names.
    apply declares_bind; [apply declares_for, declares_enumeration|].
    rewrite <- structure_names.
    apply declares_bind; [apply declares_for, declares_structure|].
    rewrite <- (app_nil_r (ta_name <$> typeAliases m)).
    apply declares_bind; [apply declares_for, declares_typealias|].
    change (@nil string) with (@nil string ++ []).
    apply declares_bind; apply declares_nothing_for;
      [apply declares_request|apply declares_notification]. }
  by apply Hloops.
Qed.
End generate_names.

Lemma generate_declares m r g :
  generate (__init__ m) = (r, g) →
  model_extended m (model g)
  ∧ ∃ l1, l1 `prefix_of` declared_names m
      ∧ type_names g = l1
      ∧ match r with Done _ => l1 = declared_names m | Raise _ => True end.
Proof.
  unfold generate, mbind, py_mbind, py_bind.
  destruct (declares_generate_loops m (__init__ m) (model_extended_refl m))
    as (HJ & l1 & Hpre & Hnames & Hdone).
  destruct (generate_loops (__init__ m)) as [[[]|e] g1]; simpl in *;
    intros [= <- <-]; (split; [done|]); by exists l1.
Qed.

(** X17. After [generate] on a new generator, complete or not, [_types]
    holds definitions named after a prefix of the model's declarations
    taken in the order enumerations, structures, type aliases; after a
    complete [generate] it holds exactly one definition per declaration, in
    that order, under the declared names. *)
Theorem generate_declared_names m r g :
  generate (__init__ m) = (r, g) →
  type_names g `prefix_of` declared_names m
  ∧ (r = Done tt → type_names g = declared_names m).
Proof.
  intros (_ & l1 & Hpre & -> & Hdone)%generate_declares.
  split; [done|]. by intros ->.
Qed.

(** X18. [generate], complete or not, leaves the requests, notifications,
    enumerations and type aliases of the model as they were and keeps
    every structure in its place with its name, [extends], [mixins] and
    documentation; all it can do to the model is append properties to the
    property lists of structures. *)
Theorem generate_extends_model m r g :
  generate (__init__ m) = (r, g) → model_extended m (model g).
Proof. by intros [H _]%generate_declares. Qed.

(** * More theorems at sample inputs *)

Lemma request_by_direction_witness :
  req_typeName hover_both = Some "HoverRequest"
  ∧ type_params (req_params hover_both) = Done "HoverParams"
  ∧ type_ (req_result hover_both) = Done "Hover"
  ∧ ∃ g', request hover_both (__init__ empty_model) = (Done tt, g')
          ∧ _client_handle_map g' = [("textDocument/hover", "handle_hover_request")]
          ∧ _server_handle_map g' = [("textDocument/hover", "handle_hover_request")].
Proof.
  split; [reflexivity|]. split; [reflexivity|]. split; [reflexivity|].
  destruct (request_by_direction hover_both (__init__ empty_model)
              "HoverRequest" "HoverParams" "Hover" [] []
              eq_refl eq_refl eq_refl eq_refl eq_refl)
    as (g' & Hrun & _ & _ & Hclient & Hserver & _).
  exists g'. split; [exact Hrun|]. split; [exact Hclient|exact Hserver].
Defined.

Lemma notification_by_direction_witness :
  ntf_typeName did_open = Some "DidOpenTextDocumentNotification"
  ∧ type_params (ntf_params did_open) = Done "DidOpenTextDocumentParams"
  ∧ ∃ g', notification did_open (__init__ empty_model) = (Done tt, g')
          ∧ _client_handle_map g' = []
          ∧ _server_handle_map g'
            = [("textDocument/didOpen", "handle_did_open_text_document_notification")].
Proof.
  split; [reflexivity|]. split; [reflexivity|].
  destruct (notification_by_direction did_open (__init__ empty_model)
              "DidOpenTextDocumentNotification" "DidOpenTextDocumentParams" [] []
              eq_refl eq_refl eq_refl eq_refl)
    as (g' & Hrun & _ & _ & Hclient & Hserver).
  exists g'. split; [exact Hrun|]. split; [exact Hclient|exact Hserver].
Defined.

Lemma failed_message_adds_nothing_witness :
  cls_methods (_client (__init__ empty_model)) = Some []
  ∧ cls_methods (_server (__init__ empty_model)) = Some []
  ∧ notification nameless (__init__ empty_model)
    = (Raise TypeError, __init__ empty_model).
Proof.
  split; [reflexivity|]. split; [reflexivity|].
  exact (proj1 (failed_message_adds_nothing (__init__ empty_model) [] []
                  eq_refl eq_refl) nameless eq_refl).
Defined.

Lemma resolve_first_seen_witness :
  Forall (λ f, is_Some (fn_arguments f)) (default [] (cls_methods sample_dispatcher))
  ∧ ∃ imports,
      resolve [ClassName sample_dispatcher] sample_types = Done imports
      ∧ NoDup imports
      ∧ "Hover" ∈ imports.
Proof.
  assert (Forall (λ f, is_Some (fn_arguments f))
            (default [] (cls_methods sample_dispatcher))) as Hargs
    by (repeat constructor; by eexists).
  split; [exact Hargs|].
  destruct (resolve_first_seen sample_dispatcher sample_types Hargs)
    as (imports & Hrun & _ & Hnodup & Hiff).
  exists imports. split; [exact Hrun|]. split; [exact Hnodup|].
  apply Hiff. split; refine (bool_decide_unpack _ _); vm_compute; exact I.
Defined.

Lemma resolve_without_arguments_witness :
  resolve [ClassName {| cls_name := "Server"; cls_variables := Some [];
                        cls_methods := Some [bare_function];
                        cls_parents := None; cls_docstring := None |}]
    sample_types = Raise TypeError.
Proof.
  apply (resolve_without_arguments _ [bare_function] bare_function);
    [reflexivity|left|reflexivity].
Defined.

Lemma ordered_names_once_witness :
  NoDup (name_of <$> beside_a_cycle)
  ∧ ordered_names 1000 beside_a_cycle = Done beside_a_cycle_out
  ∧ NoDup (name_of <$> beside_a_cycle_out)
  ∧ beside_a_cycle_out ≡ₚ beside_a_cycle.
Proof.
  assert (NoDup (name_of <$> beside_a_cycle)) as Hnames
    by (refine (bool_decide_unpack _ _); vm_compute; exact I).
  assert (ordered_names 1000 beside_a_cycle = Done beside_a_cycle_out) as Hrun
    by (vm_compute; reflexivity).
  split; [exact Hnames|]. split; [exact Hrun|].
  pose proof (ordered_names_once beside_a_cycle 1000 beside_a_cycle_out Hrun)
    as Honce.
  split; [exact (proj1 Honce)|exact (proj2 (proj2 (proj2 Honce)) Hnames)].
Defined.

Lemma ordered_names_in_order_witness :
  in_reference_order references_first_sample = true
  ∧ ordered_names 1000 references_first_sample = Done references_first_sample.
Proof.
  split; [vm_compute; reflexivity|].
  apply ordered_names_in_order.
  - refine (bool_decide_unpack _ _); vm_compute; exact I.
  - refine (bool_decide_unpack _ _); vm_compute; exact I.
  - lia.
  - vm_compute; reflexivity.
Defined.

Lemma ordered_names_own_parent_witness :
  ordered_names 1000 own_parent_sample = Raise RecursionError.
Proof.
  apply (ordered_names_own_parent own_parent_sample
           {| cls_name := "Node"; cls_variables := Some [];
              cls_methods := None; cls_parents := Some ["Base"; "Node"];
              cls_docstring := None |} ["Base"; "Node"] 1000).
  - refine (bool_decide_unpack _ _); vm_compute; exact I.
  - refine (bool_decide_unpack _ _); vm_compute; exact I.
  - right. left.
  - reflexivity.
  - right. left.
Defined.

Lemma structure_frame_witness :
  only_extended 0 nested_store
    (structure (_structure_maps (__init__ nested_mixins)) 0 nested_store).2.
Proof.
  refine (proj1 (structure_frame (_structure_maps (__init__ nested_mixins)) 0
                   nested_store
                   (structure (_structure_maps (__init__ nested_mixins)) 0
                      nested_store).1 _ _)).
  vm_compute. reflexivity.
Defined.

Lemma structure_flattened_witness :
  nested_store !! 2
  = Some (plain_structure "Outer" [prop "s" (BaseType STRING)] ["Middle"])
  ∧ ∃ c store',
      structure (_structure_maps (__init__ nested_mixins)) 2 nested_store
      = (Done c, store')
      ∧ variable_names c = ["s"; "m"].
Proof.
  split; [reflexivity|].
  assert (mixins_elsewhere (_structure_maps (__init__ nested_mixins)) nested_store 2
            (default [] (st_mixins
               (plain_structure "Outer" [prop "s" (BaseType STRING)] ["Middle"]))))
    as Hmixins.
  { constructor; [|constructor].
    exists 0, (plain_structure "Middle" [prop "m" (BaseType STRING)] ["Inner"]).
    split; [vm_compute; reflexivity|lia]. }
  destruct (structure_flattened (_structure_maps (__init__ nested_mixins)) 2
              nested_store
              (plain_structure "Outer" [prop "s" (BaseType STRING)] ["Middle"])
              ["TypedDict"]
              (match comprehension property
                       (flattened (_structure_maps (__init__ nested_mixins))
                          nested_store
                          (plain_structure "Outer" [prop "s" (BaseType STRING)]
                             ["Middle"])) with
               | Done variables => variables
               | Raise _ => []
               end)
              eq_refl Hmixins eq_refl) as [store' Hrun].
  { vm_compute. reflexivity. }
  eexists _, store'. split; [exact Hrun|]. vm_compute. reflexivity.
Defined.

Lemma type_compiles_witness :
  literal_free locations_map = true
  ∧ (∃ code, type_ locations_map = Done code)
  ∧ type_ range_literal = Raise TypeError.
Proof.
  split; [reflexivity|].
  split; [exact (proj1 (type_compiles locations_map) eq_refl)|].
  destruct (type_compiles range_literal) as (_ & _ & Hliteral).
  eapply Hliteral; [reflexivity|]. vm_compute. reflexivity.
Defined.

Lemma reading_appends_witness :
  generate (__init__ small_model) = (Done tt, small_generated)
  ∧ server_code small_generated = (Done small_server_code, small_read)
  ∧ ∃ ms,
      cls_methods (_server small_generated) = Some ms
      ∧ cls_methods (_server small_read)
        = Some (ms ++ [handle_function (_server_handle_map small_generated)]).
Proof.
  assert (server_code small_generated = (Done small_server_code, small_read))
    as Hread by (vm_compute; reflexivity).
  split; [vm_compute; reflexivity|]. split; [exact Hread|].
  pose proof (proj1 (reading_appends small_generated)
                small_server_code small_read Hread) as (ms & Hms & Hms1 & _).
  exists ms. split; [exact Hms|exact Hms1].
Defined.

Module utils_more_witnesses.
Import utils utils_keys utils_more.

Lemma get_default_value_keys_witness :
  NoDup (keys_of true completion_hints ["tags"; "label"])
  ∧ get_default_value completion_hints ["tags"; "label"] true false
    = Done (VDict [("tags", VList []); ("label", VStr EmptyString)])
  ∧ ∃ data,
      VDict [("tags", VList []); ("label", VStr EmptyString)] = VDict data
      ∧ data.*1 = ["tags"; "label"].
Proof.
  assert (NoDup (keys_of true completion_hints ["tags"; "label"])) as Hnodup
    by (refine (bool_decide_unpack _ _); vm_compute; exact I).
  assert (get_default_value completion_hints ["tags"; "label"] true false
          = Done (VDict [("tags", VList []); ("label", VStr EmptyString)])) as Hrun
    by (vm_compute; reflexivity).
  split; [exact Hnodup|]. split; [exact Hrun|].
  destruct (get_default_value_keys completion_hints ["tags"; "label"] true false _
              Hnodup Hrun) as (data & Hval & Hkeys & _).
  exists data. split; [exact Hval|exact Hkeys].
Defined.

Lemma get_default_value_valueSet_witness :
  list_of_enum_instance (ListOf [OtherType "<enum 'SymbolKind'>"]) = false
  ∧ (∃ e, get_default_value kinds_hints [] false false = Raise e)
  ∧ get_default_value flags_hints [] false false
    = Done (VDict [("valueSet", VList [VInt 1; VInt 2])])
  ∧ ∃ text values rest,
      ListOf [EnumInstance "Perm.R|W" (Some [Some (VInt 1); Some (VInt 2)])]
      = ListOf (EnumInstance text (Some (Some <$> values)) :: rest).
Proof.
  split; [reflexivity|]. split.
  - refine (proj2 (get_default_value_valueSet kinds_hints [] false false
                     (ListOf [OtherType "<enum 'SymbolKind'>"]) _ _ eq_refl)
              eq_refl).
    + refine (bool_decide_unpack _ _); vm_compute; exact I.
    + refine (bool_decide_unpack _ _); vm_compute; exact I.
  - split; [reflexivity|].
    assert (NoDup (keys_of false flags_hints [])) as Hnodup
      by (refine (bool_decide_unpack _ _); vm_compute; exact I).
    assert ("valueSet" ∈ keys_of false flags_hints []) as Hin
      by (refine (bool_decide_unpack _ _); vm_compute; exact I).
    destruct (proj1 (get_default_value_valueSet flags_hints [] false false _
                       Hnodup Hin eq_refl) _ eq_refl)
      as (text & values & rest & data & Hshape & _).
    by exists text, values, rest.
Defined.
End utils_more_witnesses.

Lemma generate_declared_names_witness :
  ∃ g, generate (__init__ small_model) = (Done tt, g)
       ∧ type_names g = ["Keys"; "Hover"].
Proof.
  assert (generate (__init__ small_model)
          = (Done tt, (generate (__init__ small_model)).2)) as Hgen
    by (vm_compute; reflexivity).
  exists (generate (__init__ small_model)).2. split; [exact Hgen|].
  exact (proj2 (generate_declared_names small_model _ _ Hgen) eq_refl).
Defined.

Lemma generate_extends_model_witness :
  ∃ g, generate (__init__ nested_mixins) = (Done tt, g)
       ∧ model_extended nested_mixins (model g).
Proof.
  assert (generate (__init__ nested_mixins)
          = (Done tt, (generate (__init__ nested_mixins)).2)) as Hgen
    by (vm_compute; reflexivity).
  exists (generate (__init__ nested_mixins)).2. split; [exact Hgen|].
  exact (generate_extends_model nested_mixins _ _ Hgen).
Defined.
